(** * Font & Direction Changer: a shallow embedding of the extension's core

    The browser extension consists of four scripts:
    - [content.js]   (the Style Injector, one instance per page),
    - [popup.js]     (the Popup editor),
    - [background.js] (the Dispatcher / service worker),
    - [settings.js]  (the Settings manager: export / import).

    Each script is embedded below in a module of its own; functions keep
    the names they have in the JavaScript source.  JavaScript values are
    modelled by the type [jsval]; strings are sequences of ASCII
    characters; numbers are exact rationals (binary64 rounding is not
    modelled).  The DOM is a tree of nodes whose elements carry a unique
    key standing for object identity.  Platform services that the source
    calls but does not define (URL parsing, JSON, the random generator, the
    storage quota, message delivery) are explicit parameters of the
    functions that use them. *)

From Stdlib Require Import Ascii String QArith Qabs Qround Lqa.
From stdpp Require Import base option list strings gmap fin_maps.

Set Default Proof Using "Type".
Set Warnings "-register-all".
Local Open Scope string_scope.
Local Open Scope nat_scope.
Local Open Scope list_scope.

(** ** JavaScript strings *)

Module JsString.

Definition startsWith (s p : string) : bool := String.prefix p s.

(** [s.includes(sub)] *)
Fixpoint includes (s sub : string) : bool :=
  String.prefix sub s ||
  match s with
  | EmptyString => false
  | String _ s' => includes s' sub
  end.

Definition is_space (c : ascii) : bool :=
  let n := nat_of_ascii c in
  ((9 <=? n) && (n <=? 13)) || (n =? 32).

Fixpoint trimStart (s : string) : string :=
  match s with
  | String c s' => if is_space c then trimStart s' else s
  | EmptyString => EmptyString
  end.

(** Drops trailing white space: a character is kept when it is not a
    space or when something that is kept follows it. *)
Fixpoint trimEnd (s : string) : string :=
  match s with
  | EmptyString => EmptyString
  | String c s' =>
      match trimEnd s' with
      | EmptyString => if is_space c then EmptyString else String c EmptyString
      | r => String c r
      end
  end.

(** [s.trim()] *)
Definition trim (s : string) : string := trimEnd (trimStart s).

Fixpoint map_chars (f : ascii → ascii) (s : string) : string :=
  match s with
  | EmptyString => EmptyString
  | String c s' => String (f c) (map_chars f s')
  end.

Definition lower_char (c : ascii) : ascii :=
  let n := nat_of_ascii c in
  if (65 <=? n) && (n <=? 90) then ascii_of_nat (n + 32) else c.

(** [s.toLowerCase()] on ASCII text *)
Definition toLowerCase (s : string) : string := map_chars lower_char s.

Definition upper_char (c : ascii) : ascii :=
  let n := nat_of_ascii c in
  if (97 <=? n) && (n <=? 122) then ascii_of_nat (n - 32) else c.

(** [s.toUpperCase()] on ASCII text *)
Definition toUpperCase (s : string) : string := map_chars upper_char s.

Definition is_digit (c : ascii) : bool :=
  let n := nat_of_ascii c in (48 <=? n) && (n <=? 57).

Definition is_lower (c : ascii) : bool :=
  let n := nat_of_ascii c in (97 <=? n) && (n <=? 122).

(** [s.replaceAll(a, b)] for single characters, as in
    [fontName.replace(/ /g, "+")] *)
Definition replace_char (a b : ascii) (s : string) : string :=
  map_chars (λ c, if Ascii.eqb c a then b else c) s.

(** First position at which [pat] occurs in [s]: the text before it and
    the text after it. *)
Fixpoint split_at_first (pat s : string) : option (string * string) :=
  if String.prefix pat s
  then Some (EmptyString, String.substring (String.length pat)
                            (String.length s - String.length pat) s)
  else match s with
       | EmptyString => None
       | String c s' =>
           match split_at_first pat s' with
           | Some (pre, post) => Some (String c pre, post)
           | None => None
           end
       end.

(** GetSubstitution of ECMAScript for a string pattern (no captures):
    [$$] is a dollar, [$&] the matched text, [$`] the text before the
    match, [$'] the text after it; any other dollar is literal. *)
Fixpoint getSubstitution (matched pre post repl : string) : string :=
  match repl with
  | EmptyString => EmptyString
  | String c rest =>
      if Ascii.eqb c "$"%char then
        match rest with
        | String c2 r =>
            if Ascii.eqb c2 "$"%char
            then String "$"%char (getSubstitution matched pre post r)
            else if Ascii.eqb c2 "&"%char
            then matched +:+ getSubstitution matched pre post r
            else if Ascii.eqb c2 "`"%char
            then pre +:+ getSubstitution matched pre post r
            else if Ascii.eqb c2 "'"%char
            then post +:+ getSubstitution matched pre post r
            else String c (getSubstitution matched pre post rest)
        | EmptyString => String c EmptyString
        end
      else String c (getSubstitution matched pre post rest)
  end.

(** [s.replace(pat, repl)] with a string pattern: first occurrence only. *)
Definition replace (s pat repl : string) : string :=
  match split_at_first pat s with
  | Some (pre, post) => pre +:+ getSubstitution pat pre post repl +:+ post
  | None => s
  end.

(** The double-quote character, as a string. *)
Definition dq : string := String "034"%char EmptyString.

Definition concat_all (l : list string) : string :=
  fold_right String.append EmptyString l.

(** [l.join(sep)] *)
Fixpoint join (sep : string) (l : list string) : string :=
  match l with
  | [] => EmptyString
  | [x] => x
  | x :: rest => x +:+ sep +:+ join sep rest
  end.

End JsString.

(** ** JavaScript values *)

Module Js.

(** The values that travel through the store and the message bus (JSON
    data, plus [undefined] for an absent property). *)
Inductive jsval :=
| VUndef
| VNull
| VBool (b : bool)
| VNum (q : Q)
| VStr (s : string)
| VArr (items : list jsval)
| VObj (fields : list (string * jsval)).

(** ToBoolean *)
Definition truthy (v : jsval) : bool :=
  match v with
  | VUndef | VNull => false
  | VBool b => b
  | VNum q => negb (Qeq_bool q 0)
  | VStr s => negb (String.eqb s "")
  | VArr _ | VObj _ => true
  end.

(** Property lookup [o[k]] on an own data property; [undefined] on a
    missing key and on a value that is not an object. *)
Fixpoint assoc (k : string) (l : list (string * jsval)) : jsval :=
  match l with
  | [] => VUndef
  | (k', v) :: rest => if String.eqb k' k then v else assoc k rest
  end.

Definition get (v : jsval) (k : string) : jsval :=
  match v with
  | VObj fields => assoc k fields
  | _ => VUndef
  end.

Definition digit_char (d : N) : ascii := ascii_of_nat (48 + N.to_nat d).

(** Decimal digits of a natural number, most significant first. *)
Fixpoint nat_digits_fuel (fuel : nat) (n : N) : string :=
  match fuel with
  | O => String (digit_char (n mod 10)) EmptyString
  | S fuel' =>
      if (n <? 10)%N then String (digit_char n) EmptyString
      else nat_digits_fuel fuel' (n / 10) +:+
           String (digit_char (n mod 10)) EmptyString
  end.

Definition nat_digits (n : N) : string :=
  nat_digits_fuel (N.to_nat (N.log2 n)) n.

(** Digits of the fraction [r / d] (with [r < d]), at most [fuel] of
    them, stopping when the expansion ends. *)
Fixpoint frac_digits (fuel : nat) (r d : Z) : string :=
  match fuel with
  | O => EmptyString
  | S fuel' =>
      if (r =? 0)%Z then EmptyString
      else String (ascii_of_nat (48 + Z.to_nat (r * 10 / d)))
                  (frac_digits fuel' ((r * 10) mod d)%Z d)
  end.

(** Number::toString for a finite number: sign, integer part and the
    decimal expansion of the fraction (exact when it ends within twenty
    digits; exponent notation is not modelled). *)
Definition Number_toString (q : Q) : string :=
  let n := Qnum q in
  let d := Z.pos (Qden q) in
  let a := Z.abs n in
  let ip := (a / d)%Z in
  let fr := frac_digits 20 (a mod d)%Z d in
  (if (n <? 0)%Z then "-" else "") +:+ nat_digits (Z.to_N ip) +:+
  (if String.eqb fr "" then "" else "." +:+ fr).

(** ToString, as used by template literals and [setAttribute]. *)
Fixpoint ToString (v : jsval) : string :=
  match v with
  | VUndef => "undefined"
  | VNull => "null"
  | VBool b => if b then "true" else "false"
  | VNum q => Number_toString q
  | VStr s => s
  | VArr items =>
      JsString.join ","
        (map (λ x, match x with
                   | VUndef | VNull => ""
                   | _ => ToString x
                   end) items)
  | VObj _ => "[object Object]"
  end.

Definition is_string (v : jsval) : bool :=
  match v with VStr _ => true | _ => false end.

(** [array.includes(v)] for an array of strings. *)
Definition array_includes (l : list string) (v : jsval) : bool :=
  match v with
  | VStr s => bool_decide (s ∈ l)
  | _ => false
  end.

(** [a === b] against a string constant. *)
Definition strict_eq_str (v : jsval) (s : string) : bool :=
  match v with VStr s' => String.eqb s' s | _ => false end.

(** Outcome of a call that may raise an exception. *)
Inductive completion (A : Type) :=
| Normal (a : A)
| Throw (message : string).
Arguments Normal {A} a.
Arguments Throw {A} message.

End Js.

Export Js.

(** ** The DOM *)

Module Dom.

(** Object identity of an element. *)
Definition key := nat.

(** A node is a text node or an element.  An element has a tag name
    (upper case, as [tagName] reports it), an [id], its other attributes,
    its child nodes and, when it hosts an open shadow tree, the child
    nodes of its shadow root ([element.shadowRoot]). *)
Inductive node :=
| Text (data : string)
| Elem (k : key) (tagName id : string) (attrs : list (string * string))
       (childNodes : list node) (shadowRoot : option (list node)).

Definition is_element (n : node) : bool :=
  match n with Elem _ _ _ _ _ _ => true | Text _ => false end.

Definition key_of (n : node) : option key :=
  match n with Elem k _ _ _ _ _ => Some k | Text _ => None end.

Definition has_key (k : key) (n : node) : bool :=
  match n with Elem k' _ _ _ _ _ => k' =? k | Text _ => false end.

Definition tagName_of (n : node) : string :=
  match n with Elem _ t _ _ _ _ => t | Text _ => "" end.

Definition id_of (n : node) : string :=
  match n with Elem _ _ i _ _ _ => i | Text _ => "" end.

Definition attrs_of (n : node) : list (string * string) :=
  match n with Elem _ _ _ a _ _ => a | Text _ => [] end.

Definition childNodes_of (n : node) : list node :=
  match n with Elem _ _ _ _ cs _ => cs | Text _ => [] end.

Definition shadowRoot_of (n : node) : option (list node) :=
  match n with Elem _ _ _ _ _ sh => sh | Text _ => None end.

(** [element.children]: the child nodes that are elements. *)
Definition children (n : node) : list node :=
  filter (λ c, is_element c = true) (childNodes_of n).

(** The elements of a subtree in document order, the root first; shadow
    trees are not entered. *)
Fixpoint subtree_elements (n : node) : list node :=
  match n with
  | Text _ => []
  | Elem _ _ _ _ cs _ => n :: flat_map subtree_elements cs
  end.

(** [root.querySelectorAll("*")] on the child nodes of a root. *)
Definition querySelectorAll_star (cs : list node) : list node :=
  flat_map subtree_elements cs.

(** [root.querySelector("#" + id)] on the child nodes of a root. *)
Definition querySelector_id (i : string) (cs : list node) : option node :=
  List.find (λ e, String.eqb (id_of e) i) (querySelectorAll_star cs).

(** [node.textContent] *)
Fixpoint textContent (n : node) : string :=
  match n with
  | Text d => d
  | Elem _ _ _ _ cs _ => JsString.concat_all (map textContent cs)
  end.

(** Applies [f] to the element whose key is [k], wherever it is in the
    tree (shadow trees included). *)
Fixpoint modify (k : key) (f : node → node) (n : node) : node :=
  match n with
  | Text _ => n
  | Elem k' t i a cs sh =>
      if k' =? k then f n
      else Elem k' t i a (map (modify k f) cs)
                (option_map (map (modify k f)) sh)
  end.

(** [element.remove()]: the element with key [k] leaves its parent. *)
Fixpoint remove (k : key) (n : node) : node :=
  match n with
  | Text _ => n
  | Elem k' t i a cs sh =>
      Elem k' t i a
           (filter (λ c, has_key k c = false) (map (remove k) cs))
           (option_map (λ ss, filter (λ c, has_key k c = false)
                                     (map (remove k) ss)) sh)
  end.

(** The element with key [k], searched through the whole tree. *)
Fixpoint lookup_key (k : key) (n : node) : option node :=
  match n with
  | Text _ => None
  | Elem k' _ _ _ cs sh =>
      if k' =? k then Some n
      else
        let fix first (l : list node) : option node :=
          match l with
          | [] => None
          | c :: l' =>
              match lookup_key k c with
              | Some r => Some r
              | None => first l'
              end
          end in
        match first cs with
        | Some r => Some r
        | None => match sh with Some ss => first ss | None => None end
        end
  end.

(** All elements of the tree, shadow trees included. *)
Fixpoint all_elements (n : node) : list node :=
  match n with
  | Text _ => []
  | Elem _ _ _ _ cs sh =>
      n :: flat_map all_elements cs ++
        match sh with Some ss => flat_map all_elements ss | None => [] end
  end.

Definition set_childNodes (cs : list node) (n : node) : node :=
  match n with
  | Elem k t i a _ sh => Elem k t i a cs sh
  | Text _ => n
  end.

Definition set_shadowRoot (ss : list node) (n : node) : node :=
  match n with
  | Elem k t i a cs (Some _) => Elem k t i a cs (Some ss)
  | _ => n
  end.

(** [element.textContent = s] *)
Definition set_textContent (s : string) (n : node) : node :=
  set_childNodes (if String.eqb s "" then [] else [Text s]) n.

Fixpoint attr_set (name value : string) (a : list (string * string))
  : list (string * string) :=
  match a with
  | [] => [(name, value)]
  | (n, v) :: rest =>
      if String.eqb n name then (n, value) :: rest
      else (n, v) :: attr_set name value rest
  end.

Definition attr_remove (name : string) (a : list (string * string))
  : list (string * string) :=
  filter (λ nv, String.eqb (fst nv) name = false) a.

Fixpoint attr_get (name : string) (a : list (string * string))
  : option string :=
  match a with
  | [] => None
  | (n, v) :: rest => if String.eqb n name then Some v else attr_get name rest
  end.

(** [element.setAttribute(name, value)] *)
Definition setAttribute (name value : string) (n : node) : node :=
  match n with
  | Elem k t i a cs sh => Elem k t i (attr_set name value a) cs sh
  | Text _ => n
  end.

(** [element.removeAttribute(name)] *)
Definition removeAttribute (name : string) (n : node) : node :=
  match n with
  | Elem k t i a cs sh => Elem k t i (attr_remove name a) cs sh
  | Text _ => n
  end.

Definition getAttribute (name : string) (n : node) : option string :=
  attr_get name (attrs_of n).

(** [document.head]: the first HEAD child of the document element. *)
Definition document_head (html : node) : option node :=
  List.find (λ c, String.eqb (tagName_of c) "HEAD") (children html).

(** [document.body]: the first BODY or FRAMESET child of the document
    element. *)
Definition document_body (html : node) : option node :=
  List.find (λ c, String.eqb (tagName_of c) "BODY"
                  || String.eqb (tagName_of c) "FRAMESET") (children html).

(** [document.getElementById(id)]: first match in document order. *)
Definition getElementById (i : string) (html : node) : option node :=
  List.find (λ e, String.eqb (id_of e) i) (subtree_elements html).

(** A document: its document element and the next unused key (what
    [document.createElement] hands out). *)
Record document := Document {
  documentElement : node;
  nextKey : key;
}.

End Dom.

(** ** content.js: the Style Injector *)

Module Content.
Import Dom.
Abbreviation dq := JsString.dq.

Definition STYLE_OVERRIDE_TAG_ID : string := "font-direction-changer-style-override".
Definition FONT_LINK_TAG_ID : string := "font-direction-changer-font-link".

(** The seven override values of one apply command. *)
Record tuple := Tuple {
  font : jsval;
  direction : jsval;
  fontSize : jsval;
  lineHeight : jsval;
  fontWeight : jsval;
  letterSpacing : jsval;
  wordSpacing : jsval;
}.

Inductive console_entry :=
| ConsoleWarn (text : string)
| ConsoleError (text : string).

(** The state of one content-script instance: the page it runs in, the
    session store, the module-level variables of content.js, the timer
    table of the page and two traces (console output and the arguments
    of every [applyPageStyles] call). *)
Record state := State {
  doc : document;
  hostname : string;                          (* window.location.hostname *)
  sessionStore : gmap string jsval;           (* browser.storage.session *)
  randomCalls : nat;                          (* Math.random() calls so far *)
  currentApplied : tuple;                     (* currentAppliedFont, ... *)
  observer : bool;                            (* observer is connected *)
  mutationDebounceTimeout : option nat;
  now : nat;                                  (* clock, in milliseconds *)
  timers : list (nat * nat);                  (* pending (id, due time) *)
  nextTimerId : nat;
  console : list console_entry;
  applyCalls : list tuple;
}.

Definition with_doc (d : document) (st : state) : state :=
  State d (hostname st) (sessionStore st) (randomCalls st) (currentApplied st)
        (observer st) (mutationDebounceTimeout st) (now st) (timers st)
        (nextTimerId st) (console st) (applyCalls st).

Definition with_html (html : node) (st : state) : state :=
  with_doc (Document html (nextKey (doc st))) st.

Definition with_sessionStore (s : gmap string jsval) (st : state) : state :=
  State (doc st) (hostname st) s (randomCalls st) (currentApplied st)
        (observer st) (mutationDebounceTimeout st) (now st) (timers st)
        (nextTimerId st) (console st) (applyCalls st).

Definition with_currentApplied (t : tuple) (st : state) : state :=
  State (doc st) (hostname st) (sessionStore st) (randomCalls st) t
        (observer st) (mutationDebounceTimeout st) (now st) (timers st)
        (nextTimerId st) (console st) (applyCalls st).

Definition with_console (c : list console_entry) (st : state) : state :=
  State (doc st) (hostname st) (sessionStore st) (randomCalls st)
        (currentApplied st) (observer st) (mutationDebounceTimeout st)
        (now st) (timers st) (nextTimerId st) c (applyCalls st).

Definition html_of (st : state) : node := documentElement (doc st).

(** Computations of content.js: they change the state and either return
    or throw. *)
Definition M (A : Type) : Type := state → state * completion A.

Definition ret {A} (a : A) : M A := λ st, (st, Normal a).

Definition bind {A B} (m : M A) (f : A → M B) : M B :=
  λ st, match m st with
        | (st', Normal a) => f a st'
        | (st', Throw e) => (st', Throw e)
        end.

Definition throw {A} (e : string) : M A := λ st, (st, Throw e).

Definition update (f : state → state) : M unit := λ st, (f st, Normal tt).

Definition read {A} (f : state → A) : M A := λ st, (st, Normal (f st)).

Notation "'let*' x ':=' m 'in' k" := (bind m (λ x, k))
  (at level 10, x name, m at level 100, k at level 200).
Notation "'run' m 'then' k" := (bind m (λ _, k))
  (at level 10, m at level 100, k at level 200).

(** [forEach] over a list. *)
Fixpoint forEach {A} (l : list A) (f : A → M unit) : M unit :=
  match l with
  | [] => ret tt
  | x :: rest => run f x then forEach rest f
  end.

(** [document.createElement(tag)] with the id and attributes the caller
    sets right after. *)
Definition createElement (tag i : string) (attrs : list (string * string))
  : M node :=
  λ st, let k := nextKey (doc st) in
        (with_doc (Document (documentElement (doc st)) (S k)) st,
         Normal (Elem k tag i attrs [] None)).

Definition systemFonts : list string :=
  ["Tahoma"; "Arial"; "Times New Roman"; "Georgia"].

Definition variableFontsFullRange : list (string * string) :=
  [("Vazirmatn", "100..900"); ("Noto Sans Arabic", "100..900");
   ("Montserrat", "100..900"); ("Cairo", "200..1000");
   ("Nunito", "200..1000"); ("Tajawal", "200..900");
   ("Open Sans", "300..800"); ("Changa", "200..800")].

Definition specificWeightsFonts : list (string * string) :=
  [("Roboto", "100;300;400;500;700;900"); ("Lato", "100;300;400;700;900");
   ("Almarai", "300;400;700;800")].

Fixpoint table_get (k : string) (t : list (string * string)) : option string :=
  match t with
  | [] => None
  | (k', v) :: rest => if String.eqb k' k then Some v else table_get k rest
  end.

Definition is_hex_digit (c : ascii) : bool :=
  let n := nat_of_ascii c in
  JsString.is_digit c || ((65 <=? n) && (n <=? 70)) || ((97 <=? n) && (n <=? 102)).

(** [isNaN(parseInt(s))]: after leading white space and an optional
    sign, a digit must follow (a hexadecimal digit after ["0x"]). *)
Definition parseInt_isNaN (s : string) : bool :=
  let s1 := JsString.trimStart s in
  let s2 := match s1 with
            | String c r =>
                if Ascii.eqb c "+"%char || Ascii.eqb c "-"%char then r else s1
            | EmptyString => s1
            end in
  match s2 with
  | String "0"%char (String x r) =>
      if Ascii.eqb x "x"%char || Ascii.eqb x "X"%char
      then match r with
           | String h _ => negb (is_hex_digit h)
           | EmptyString => true
           end
      else false
  | String c _ => negb (JsString.is_digit c)
  | EmptyString => true
  end.

Definition sessionStore_remove (h : string) : M unit :=
  update (λ st, with_sessionStore (delete h (sessionStore st)) st).

Definition sessionStore_set (h : string) (v : jsval) : M unit :=
  update (λ st, with_sessionStore (<[h := v]> (sessionStore st)) st).

(** [linkElement.onload] *)
Definition fontLink_onload : M unit :=
  let* h := read hostname in sessionStore_remove h.

(** [linkElement.onerror] *)
Definition fontLink_onerror (fontName : string) : M unit :=
  run update (λ st, with_console
    (console st ++
     [ConsoleWarn ("[FontChanger] Font loading blocked by site policy (CSP) or network error: " +:+ fontName)])
    st) then
  let* h := read hostname in
  sessionStore_set h (VObj [("cspBlocked", VBool true)]).

Definition loadGoogleFont (fontName fontWeight : jsval) : M unit :=
  let* html := read html_of in
  (* const head = document.head || document.documentElement *)
  let head := match document_head html with Some h => h | None => html end in
  let* h := read hostname in
  (* 1. always remove the existing font link *)
  run (match getElementById FONT_LINK_TAG_ID html with
   | Some existingLink =>
       match key_of existingLink with
       | Some k => update (λ st, with_html (remove k (html_of st)) st)
       | None => ret tt
       end
   | None => ret tt
   end) then
  (* 2. no font, or a system font: done *)
  if negb (truthy fontName) then sessionStore_remove h
  else if array_includes systemFonts fontName then sessionStore_remove h
  else
    match fontName with
    | VStr name =>
        (* 3. build the URL *)
        let urlFontName := JsString.replace_char " "%char "+"%char name in
        let googleFontUrl0 :=
          "https://fonts.googleapis.com/css2?family=" +:+ urlFontName in
        let* weightParam :=
          (if truthy fontWeight then
             match fontWeight with
             | VStr w =>
                 if negb (String.eqb (JsString.trim w) "") then
                   match table_get name variableFontsFullRange with
                   | Some r => ret (":wght@" +:+ r)
                   | None =>
                       match table_get name specificWeightsFonts with
                       | Some r => ret (":wght@" +:+ r)
                       | None =>
                           if negb (parseInt_isNaN w)
                           then ret (":wght@" +:+ w)
                           else ret ""
                       end
                   end
                 else ret ""
             | _ => throw "TypeError: fontWeight.trim is not a function"
             end
           else ret "") in
        let googleFontUrl1 := googleFontUrl0 +:+ weightParam in
        let googleFontUrl :=
          googleFontUrl1 +:+
          (if JsString.includes googleFontUrl1 "?" then "&" else "?") +:+
          "display=swap" in
        (* 4. create and append the link *)
        let* linkElement := createElement "LINK" FONT_LINK_TAG_ID
          [("rel", "stylesheet"); ("type", "text/css"); ("href", googleFontUrl)] in
        match key_of head with
        | Some hk =>
            update (λ st, with_html
              (modify hk (λ n, set_childNodes (childNodes_of n ++ [linkElement]) n)
                      (html_of st)) st)
        | None => ret tt
        end
    | _ => throw "TypeError: fontName.replace is not a function"
    end.

(** Fuel for the traversal of [getAllShadowRoots]: the first component
    bounds the work an element causes when it is taken from the queue, the
    second sums the first over the elements of a subtree. *)
Fixpoint traversal_weight (n : node) : nat * nat :=
  match n with
  | Text _ => (1, 1)
  | Elem _ _ _ _ cs sh =>
      let cw := map traversal_weight cs in
      let sw := match sh with
                | Some ss => map traversal_weight ss
                | None => []
                end in
      let w := S (sum_list (map fst cw) + sum_list (map snd sw)) in
      (w, w + sum_list (map snd cw))
  end.

(** The [while] loop of [getAllShadowRoots]; a shadow root is identified
    by the key of its host.  [None] means the fuel ran out. *)
Fixpoint getAllShadowRoots_loop (fuel : nat) (elementsToProcess : list node)
    (roots : list key) : option (list key) :=
  match elementsToProcess with
  | [] => Some roots
  | currentElement :: rest =>
      match fuel with
      | O => None
      | S fuel' =>
          let '(queue, roots') :=
            match currentElement with
            | Elem k _ _ _ _ (Some ss) =>
                if bool_decide (k ∈ roots) then (rest, roots)
                else (rest ++ querySelectorAll_star ss, roots ++ [k])
            | _ => (rest, roots)
            end in
          getAllShadowRoots_loop fuel' (queue ++ children currentElement) roots'
      end
  end.

Definition getAllShadowRoots (element : node) : list key :=
  match getAllShadowRoots_loop (S (fst (traversal_weight element))) [element] [] with
  | Some roots => roots
  | None => []
  end.

(** The first argument of [applyStylesToRoot]: [document.head] (which
    may be [null]) or the shadow root of a host element. *)
Inductive rootNode :=
| DocumentHead (head : option key)
| ShadowRoot (host : key).

Definition excludeSelectorsList : list string :=
  [("[class*=" +:+ dq +:+ "icon" +:+ dq +:+ "]"); ("[class*=" +:+ dq +:+ "fa" +:+ dq +:+ "]"); "i"; ".material-icons";
   ".material-symbols-outlined"; "pre"; "code"; "samp"; "kbd"].

Definition textAlignSelectors : list string :=
  ["body"; ":host"; "div"; "p"; "section"; "article"; "main"; "header";
   "footer"; "nav"; "aside"; "h1"; "h2"; "h3"; "h4"; "h5"; "h6"; "li";
   "ul"; "ol"; "td"; "th"; "label"; "input"; "textarea"].

(** [.replace(/[^a-z0-9-_]/g, "-")] *)
Definition sanitize_char (c : ascii) : ascii :=
  if JsString.is_lower c || JsString.is_digit c
     || Ascii.eqb c "-"%char || Ascii.eqb c "_"%char
  then c else "-"%char.

Definition styleElementId (styleElementIdSuffix : string) : string :=
  JsString.map_chars sanitize_char
    (JsString.toLowerCase (STYLE_OVERRIDE_TAG_ID +:+ "-" +:+ styleElementIdSuffix)).

(** The text of the rule set ([cssRules]) that [applyStylesToRoot]
    synthesises. *)
Definition cssRules (rootIsDocumentHead : bool) (t : tuple) : string :=
  let baseElementStyles :=
    (if truthy (font t)
     then ("font-family: " +:+ dq) +:+ ToString (font t) +:+ (dq +:+ ", Tahoma, sans-serif !important;")
     else "") +:+
    (if truthy (fontWeight t)
     then "font-weight: " +:+ ToString (fontWeight t) +:+ " !important;" else "") +:+
    (if truthy (fontSize t)
     then "font-size: " +:+ ToString (fontSize t) +:+ "px !important;" else "") +:+
    (if truthy (lineHeight t)
     then "line-height: " +:+ ToString (lineHeight t) +:+ " !important;" else "") +:+
    (if truthy (letterSpacing t)
     then "letter-spacing: " +:+ ToString (letterSpacing t) +:+ "px !important;"
     else "") +:+
    (if truthy (wordSpacing t)
     then "word-spacing: " +:+ ToString (wordSpacing t) +:+ "px !important;"
     else "") in
  let formElementFontStyles :=
    (if truthy (font t)
     then ("font-family: " +:+ dq) +:+ ToString (font t) +:+ (dq +:+ ", Tahoma, sans-serif !important;")
     else "") +:+
    (if truthy (fontWeight t)
     then "font-weight: " +:+ ToString (fontWeight t) +:+ " !important;" else "") in
  let excludeCssSelector :=
    JsString.join "" (map (λ selector, ":not(" +:+ selector +:+ ")") excludeSelectorsList) in
  (if negb (String.eqb baseElementStyles "") then
     " :host " +:+ excludeCssSelector +:+ ", * " +:+ excludeCssSelector +:+
     " { " +:+ baseElementStyles +:+ " } " +:+
     (if rootIsDocumentHead
      then " body " +:+ excludeCssSelector +:+ " { " +:+ baseElementStyles +:+ " } "
      else "")
   else "") +:+
  (if negb (String.eqb formElementFontStyles "") then
     (" input:not([type=" +:+ dq +:+ "button" +:+ dq +:+ "]):not([type=" +:+ dq +:+ "submit" +:+ dq +:+ "]):not([type=" +:+ dq +:+ "reset" +:+ dq +:+ "]):not([type=" +:+ dq +:+ "image" +:+ dq +:+ "]), textarea, select { ")
     +:+ formElementFontStyles +:+ " } "
   else "") +:+
  (if strict_eq_str (direction t) "rtl" || strict_eq_str (direction t) "ltr" then
     let textAlign := if strict_eq_str (direction t) "rtl" then "right" else "left" in
     let targetedTextAlignSelector :=
       JsString.join ", "
         (map (λ sel, sel +:+ (":not([style*=" +:+ dq +:+ "text-align:center" +:+ dq +:+ "]):not([align=" +:+ dq +:+ "center" +:+ dq +:+ "])"))
              textAlignSelectors) in
     " :host, * { direction: " +:+ ToString (direction t) +:+ " !important; } " +:+
     (if negb (String.eqb targetedTextAlignSelector "")
      then " " +:+ targetedTextAlignSelector +:+ " { text-align: " +:+ textAlign +:+
           " !important; } "
      else "")
   else "").

Definition with_randomCalls (n : nat) (st : state) : state :=
  State (doc st) (hostname st) (sessionStore st) n (currentApplied st)
        (observer st) (mutationDebounceTimeout st) (now st) (timers st)
        (nextTimerId st) (console st) (applyCalls st).

Definition with_applyCalls (l : list tuple) (st : state) : state :=
  State (doc st) (hostname st) (sessionStore st) (randomCalls st)
        (currentApplied st) (observer st) (mutationDebounceTimeout st)
        (now st) (timers st) (nextTimerId st) (console st) l.

(** The child nodes of a root: of the element itself for the head, of
    its shadow root for a shadow host. *)
Definition root_childNodes (r : key) (shadow : bool) (html : node)
  : option (list node) :=
  match lookup_key r html with
  | Some e => if shadow then shadowRoot_of e else Some (childNodes_of e)
  | None => None
  end.

(** [root.insertBefore(x, root.firstChild)] on the element that is the
    root (the head) or that hosts it (a shadow root). *)
Definition insertBefore_firstChild (shadow : bool) (x : node) (n : node) : node :=
  if shadow then
    match shadowRoot_of n with
    | Some ss => set_shadowRoot (x :: ss) n
    | None => n
    end
  else set_childNodes (x :: childNodes_of n) n.

(** What the observer of [startObservingDOM] is told about: the child
    lists of the document element and of its descendants ([childList]
    with [subtree]).  Attributes are not observed and shadow trees are not
    part of the subtree; an element is the object its key names, a text
    node is told by its data. *)
Inductive mark :=
| Enter (k : key)
| Leave
| Chars (data : string).

#[global] Instance mark_eq_dec : EqDecision mark.
Proof. solve_decision. Defined.

Fixpoint childLists (n : node) : list mark :=
  match n with
  | Text d => [Chars d]
  | Elem k _ _ _ cs _ => Enter k :: flat_map childLists cs ++ [Leave]
  end.

Section WithRandom.

(** [randomSuffix n] is what the [n]-th evaluation of
    [Math.random().toString(36).substring(2, 9)] yields. *)
Variable randomSuffix : nat → string.

Definition applyStylesToRoot (rootNode : rootNode) (t : tuple) : M unit :=
  let* n := read randomCalls in
  run update (with_randomCalls (S n)) then
  let randomSuffix := randomSuffix n in
  let* html := read html_of in
  let target : completion (option (key * bool * string)) :=
    match rootNode with
    | ShadowRoot hk =>
        match lookup_key hk html with
        | Some host =>
            let name :=
              if negb (String.eqb (id_of host) "") then id_of host
              else if negb (String.eqb (tagName_of host) "") then tagName_of host
              else "shadow" in
            Normal (Some (hk, true, name +:+ "-" +:+ randomSuffix))
        | None => Normal None
        end
    | DocumentHead (Some hk) => Normal (Some (hk, false, "document"))
    | DocumentHead None =>
        Throw "TypeError: Cannot read properties of null (reading 'querySelector')"
    end in
  match target with
  | Throw e => throw e
  | Normal None => ret tt
  | Normal (Some (r, shadow, styleElementIdSuffix)) =>
      let currentStyleElementId := styleElementId styleElementIdSuffix in
      match root_childNodes r shadow html with
      | None => ret tt
      | Some kids =>
          let styleElement := querySelector_id currentStyleElementId kids in
          let css := cssRules (negb shadow) t in
          if negb (String.eqb css "") then
            match styleElement with
            | None =>
                let* created := createElement "STYLE" currentStyleElementId
                                  [("type", "text/css")] in
                update (λ st, with_html
                  (modify r (insertBefore_firstChild shadow
                               (set_textContent css created))
                          (html_of st)) st)
            | Some e =>
                if negb (String.eqb (textContent e) css) then
                  match key_of e with
                  | Some ek =>
                      update (λ st, with_html
                        (modify ek (set_textContent css) (html_of st)) st)
                  | None => ret tt
                  end
                else ret tt
            end
          else
            match styleElement with
            | Some e =>
                match key_of e with
                | Some ek =>
                    update (λ st, with_html (remove ek (html_of st)) st)
                | None => ret tt
                end
            | None => ret tt
            end
      end
  end.

Definition set_dir_on (k : key) (value : string) : M unit :=
  update (λ st, with_html (modify k (setAttribute "dir" value) (html_of st)) st).

Definition remove_dir_on (k : key) : M unit :=
  update (λ st, with_html (modify k (removeAttribute "dir") (html_of st)) st).

Definition applyPageStyles (requested : tuple) : M unit :=
  run update (λ st, with_applyCalls (applyCalls st ++ [requested])
                      (with_currentApplied requested st)) then
  run loadGoogleFont (font requested) (fontWeight requested) then
  let* html := read html_of in
  run applyStylesToRoot
        (DocumentHead (match document_head html with
                       | Some h => key_of h
                       | None => None
                       end)) requested then
  let* html := read html_of in
  run forEach (getAllShadowRoots html)
        (λ shadowRoot, applyStylesToRoot (ShadowRoot shadowRoot) requested) then
  if truthy (direction requested) then
    let dir := ToString (direction requested) in
    run update (λ st, with_html (setAttribute "dir" dir (html_of st)) st) then
    let* html := read html_of in
    run match document_body html with
        | Some b => match key_of b with
                    | Some bk => set_dir_on bk dir
                    | None => ret tt
                    end
        | None => ret tt
        end then
    let* html := read html_of in
    forEach (getAllShadowRoots html) (λ root, set_dir_on root dir)
  else
    run update (λ st, with_html (removeAttribute "dir" (html_of st)) st) then
    let* html := read html_of in
    run match document_body html with
        | Some b => match key_of b with
                    | Some bk => remove_dir_on bk
                    | None => ret tt
                    end
        | None => ret tt
        end then
    let* html := read html_of in
    forEach (getAllShadowRoots html) (λ root, remove_dir_on root).

Definition null_tuple : tuple :=
  Tuple VNull VNull VNull VNull VNull VNull VNull.

(** The arguments [resetPageStyles] passes to [applyStylesToRoot]. *)
Definition reset_arguments : tuple :=
  Tuple VNull VNull (VStr "") (VStr "") (VStr "") VNull VNull.

Definition resetPageStyles : M unit :=
  run update (with_currentApplied null_tuple) then
  run loadGoogleFont VNull VNull then
  let* html := read html_of in
  run applyStylesToRoot
        (DocumentHead (match document_head html with
                       | Some h => key_of h
                       | None => None
                       end)) reset_arguments then
  run update (λ st, with_html (removeAttribute "dir" (html_of st)) st) then
  let* html := read html_of in
  run match document_body html with
      | Some b => match key_of b with
                  | Some bk => remove_dir_on bk
                  | None => ret tt
                  end
      | None => ret tt
      end then
  let* html := read html_of in
  forEach (getAllShadowRoots html)
    (λ shadowRoot,
       run applyStylesToRoot (ShadowRoot shadowRoot) reset_arguments then
       remove_dir_on shadowRoot).

(** The tuple carried by a request or stored in a record. *)
Definition tuple_of (o : jsval) : tuple :=
  Tuple (get o "font") (get o "direction") (get o "fontSize")
        (get o "lineHeight") (get o "fontWeight") (get o "letterSpacing")
        (get o "wordSpacing").

(** The [browser.runtime.onMessage] listener: the response handed to
    [sendResponse] (if any) and the listener's return value. *)
Definition onMessage (request : jsval) : M (option jsval * bool) :=
  if strict_eq_str (get request "action") "applyStyles" then
    run applyPageStyles (tuple_of request) then
    ret (Some (VObj [("status", VStr "Styles received.")]), true)
  else if strict_eq_str (get request "action") "resetStyles" then
    run resetPageStyles then
    ret (Some (VObj [("status", VStr "Styles reset.")]), true)
  else ret (None, false).

Definition any_truthy (t : tuple) : bool :=
  truthy (font t) || truthy (direction t) || truthy (fontSize t)
  || truthy (lineHeight t) || truthy (fontWeight t)
  || truthy (letterSpacing t) || truthy (wordSpacing t).

Definition with_observer (b : bool) (st : state) : state :=
  State (doc st) (hostname st) (sessionStore st) (randomCalls st)
        (currentApplied st) b (mutationDebounceTimeout st)
        (now st) (timers st) (nextTimerId st) (console st) (applyCalls st).

Definition startObservingDOM : M unit := update (with_observer true).

(** [loadAndApplyInitialStyles]; its argument is the outcome of
    [storageArea.get(null)]. *)
Definition loadAndApplyInitialStyles
    (stored : completion (gmap string jsval)) : M unit :=
  λ st,
    let body : M unit :=
      match stored with
      | Throw e => throw e
      | Normal data =>
          let* hostname := read hostname in
          let settings := default VUndef (data !! hostname) in
          if truthy settings && any_truthy (tuple_of settings)
          then applyPageStyles (tuple_of settings)
          else update (with_currentApplied null_tuple)
      end in
    let st1 :=
      match body st with
      | (st', Normal _) => st'
      | (st', Throw error) =>
          with_console
            (console st' ++
             [ConsoleError ("[FontChanger] Error loading initial styles: " +:+ error)])
            st'
      end in
    startObservingDOM st1.

(** *** Timers *)

Definition with_timers (v : option nat) (l : list (nat * nat)) (next : nat)
    (st : state) : state :=
  State (doc st) (hostname st) (sessionStore st) (randomCalls st)
        (currentApplied st) (observer st) v (now st) l next
        (console st) (applyCalls st).

Definition with_now (t : nat) (st : state) : state :=
  State (doc st) (hostname st) (sessionStore st) (randomCalls st)
        (currentApplied st) (observer st) (mutationDebounceTimeout st) t
        (timers st) (nextTimerId st) (console st) (applyCalls st).

(** [clearTimeout(id)] *)
Definition clearTimeout (id : option nat) (l : list (nat * nat))
  : list (nat * nat) :=
  match id with
  | Some i => filter (λ p, fst p ≠ i) l
  | None => l
  end.

(** [handleMutations]: cancel the pending timer, start a new one that
    is due 300 ms from now. *)
Definition handleMutations : M unit :=
  update (λ st,
    let cleared := clearTimeout (mutationDebounceTimeout st) (timers st) in
    let id := nextTimerId st in
    with_timers (Some id) (cleared ++ [(id, now st + 300)]) (S id) st).

(** The function [handleMutations] hands to [setTimeout].  What it
    writes to the page is reported to the observer when it is over, see
    [deliver_records] and [run_timer]. *)
Definition debounced_reapply : M unit :=
  let* current := read currentApplied in
  if any_truthy current then applyPageStyles current else ret tt.

(** The end of a task: the records of the writes the task made to the
    observed child lists are delivered, that is, the observer, if it is
    connected, calls [handleMutations].  The records themselves are not
    kept: content.js writes to a child list by adding an element it has
    just created, by removing an element or by replacing a text with a
    different one, so there are records exactly when the observed child
    lists are no longer those of the start of the task, [before]. *)
Definition deliver_records (before : node) : M unit :=
  λ st,
    if observer st
       && negb (bool_decide (childLists before = childLists (html_of st)))
    then handleMutations st
    else (st, Normal tt).

(** The task of a timer: the callback runs (an exception it throws is
    reported on the console), then the records of its writes are
    delivered. *)
Definition run_timer (st : state) : state :=
  let st' :=
    match debounced_reapply st with
    | (st', Normal _) => st'
    | (st', Throw e) =>
        with_console (console st' ++ [ConsoleError ("Uncaught " +:+ e)]) st'
    end in
  fst (deliver_records (html_of st) st').

(** The pending timer that is due first (the older one on a tie). *)
Fixpoint earliest (l : list (nat * nat)) : option (nat * nat) :=
  match l with
  | [] => None
  | (i, d) :: rest =>
      match earliest rest with
      | Some (i', d') => if d' <? d then Some (i', d') else Some (i, d)
      | None => Some (i, d)
      end
  end.

(** Runs the timers that are due at or before time [t], those that
    the tasks of earlier ones start included. *)
Fixpoint fire_due (fuel : nat) (t : nat) (st : state) : state :=
  match fuel with
  | O => st
  | S fuel' =>
      match earliest (timers st) with
      | Some (i, d) =>
          if d <=? t then
            let st1 := with_now (max (now st) d)
                         (with_timers (mutationDebounceTimeout st)
                            (filter (λ p, fst p ≠ i) (timers st))
                            (nextTimerId st) st) in
            fire_due fuel' t (run_timer st1)
          else st
      | None => st
      end
  end.

(** Time passes until [t].  A timer that a task starts is due 300 ms
    after the task, so no more than [t] tasks follow those of the timers
    that are pending. *)
Definition advance (t : nat) (st : state) : state :=
  let st' := fire_due (length (timers st) + t) t st in
  with_now (max (now st') t) st'.

(** The mutation observer delivers a batch of records at time [t]. *)
Definition deliver_mutations (t : nat) (st : state) : state :=
  let st' := advance t st in
  if observer st' then fst (handleMutations st') else st'.

(** A burst: batches delivered at the given times, in order. *)
Definition deliver_burst (times : list nat) (st : state) : state :=
  foldl (λ s t, deliver_mutations t s) st times.

End WithRandom.

End Content.

(** ** The browser services shared by the extension pages *)

Module Browser.

Record tab := Tab {
  tab_id : option nat;
  tab_url : option string;
}.

(** What a page of the extension does to the outside world, in order. *)
Inductive effect :=
| StorageSyncSet (items : list (string * jsval))
| TabsSendMessage (tabId : nat) (message : jsval)
| ConsoleWarn (text : string)
| ConsoleError (text : string)
| LocationReload
| Download (filename content : string).

(** The services the scripts call but do not define.
    - [URL_hostname u] is [new URL(u).hostname], [None] when the
      constructor throws;
    - [tabs_query] is the outcome of
      [browser.tabs.query({active: true, currentWindow: true})];
    - [sync_get_error] is the error with which [storage.sync.get] is
      rejected, if it is;
    - [sync_set_error store items] is the error with which
      [storage.sync.set(items)] is rejected, if it is;
    - [sendMessage_error tabId message] is the error with which
      [tabs.sendMessage] is rejected, if it is;
    - [JSON_stringify] and [JSON_parse] are the JSON codec, the latter
      answering with the message of the SyntaxError on malformed text. *)
Record platform := Platform {
  URL_hostname : string → option string;
  tabs_query : completion (list tab);
  sync_get_error : option string;
  sync_set_error : gmap string jsval → list (string * jsval) → option string;
  sendMessage_error : nat → jsval → option string;
  JSON_stringify : jsval → string;
  JSON_parse : string → completion jsval;
}.

(** The synchronised store and the trace of effects so far. *)
Record world := World {
  sync : gmap string jsval;
  trace : list effect;
}.

Definition emit (e : effect) (w : world) : world :=
  World (sync w) (trace w ++ [e]).

(** [storage.sync.set(items)]: the listed keys are overwritten, all
    other keys are kept.  The call is recorded in the trace whether or
    not the store accepts it. *)
Definition store_merge (items : list (string * jsval))
    (s : gmap string jsval) : gmap string jsval :=
  foldl (λ m kv, <[fst kv := snd kv]> m) s items.

Definition storage_sync_set (P : platform) (items : list (string * jsval))
    (w : world) : world * completion unit :=
  match sync_set_error P (sync w) items with
  | Some e => (emit (StorageSyncSet items) w, Throw e)
  | None => (World (store_merge items (sync w))
                   (trace w ++ [StorageSyncSet items]), Normal tt)
  end.

(** [truthy] for an optional string such as [tab.url]. *)
Definition nonempty (s : option string) : bool :=
  match s with
  | Some u => negb (String.eqb u "")
  | None => false
  end.

End Browser.

(** ** popup.js: the Popup editor *)

Module Popup.
Import Browser.

(** A JavaScript number: exact rationals stand for the finite ones. *)
Inductive jsnum :=
| NaN
| Infinity (negative : bool)
| Fin (q : Q).

Definition isNaN (x : jsnum) : bool :=
  match x with NaN => true | _ => false end.

(** [x < y] *)
Definition num_lt (x y : jsnum) : bool :=
  match x, y with
  | NaN, _ | _, NaN => false
  | Infinity true, Infinity true => false
  | Infinity true, _ => true
  | _, Infinity true => false
  | Infinity false, _ => false
  | _, Infinity false => true
  | Fin a, Fin b => match (a ?= b)%Q with Lt => true | _ => false end
  end.

Definition num_neg (x : jsnum) : jsnum :=
  match x with
  | NaN => NaN
  | Infinity b => Infinity (negb b)
  | Fin q => Fin (- q)%Q
  end.

(** [x + y] *)
Definition num_add (x y : jsnum) : jsnum :=
  match x, y with
  | NaN, _ | _, NaN => NaN
  | Infinity a, Infinity b => if Bool.eqb a b then Infinity a else NaN
  | Infinity a, _ | _, Infinity a => Infinity a
  | Fin a, Fin b => Fin (a + b)%Q
  end.

Definition num_truthy (x : jsnum) : bool :=
  match x with
  | NaN => false
  | Infinity _ => true
  | Fin q => negb (Qeq_bool q 0%Q)
  end.

(** [Math.round(x)]: the nearest integer, halves going up. *)
Definition Math_round (x : jsnum) : jsnum :=
  match x with
  | Fin q => Fin (inject_Z (Qfloor (q + (1 # 2))%Q))
  | _ => x
  end.

(** The integer [n] for which [n / 100] is nearest to [|q|], the larger
    one on a tie (step 8 of Number.prototype.toFixed). *)
Definition hundredths (q : Q) : Z := Qfloor (Qabs q * 100 + (1 # 2))%Q.

Definition two_digits (n : Z) : string :=
  String (digit_char (Z.to_N ((n / 10) mod 10)%Z))
    (String (digit_char (Z.to_N (n mod 10)%Z)) EmptyString).

(** [x.toFixed(2)] *)
Definition toFixed2 (x : jsnum) : string :=
  match x with
  | NaN => "NaN"
  | Infinity b => if b then "-Infinity" else "Infinity"
  | Fin q =>
      let n := hundredths q in
      (if Qlt_le_dec q 0%Q then "-" else "") +:+
      nat_digits (Z.to_N (n / 100)%Z) +:+ "." +:+ two_digits n
  end.

(** ToString of a number. *)
Definition num_toString (x : jsnum) : string :=
  match x with
  | NaN => "NaN"
  | Infinity b => if b then "-Infinity" else "Infinity"
  | Fin q => Number_toString q
  end.

(** The longest prefix of decimal digits, and what follows it. *)
Fixpoint span_digits (s : string) : string * string :=
  match s with
  | String c r =>
      if JsString.is_digit c
      then let '(d, rest) := span_digits r in (String c d, rest)
      else (EmptyString, s)
  | EmptyString => (EmptyString, EmptyString)
  end.

Fixpoint digits_value_acc (acc : N) (s : string) : N :=
  match s with
  | String c r => digits_value_acc (acc * 10 + N.of_nat (nat_of_ascii c - 48))%N r
  | EmptyString => acc
  end.

Definition digits_value (s : string) : N := digits_value_acc 0 s.

(** The exponent part of a decimal literal, when one is present. *)
Definition parse_exponent (s : string) : Z :=
  match s with
  | String c r =>
      if Ascii.eqb c "e"%char || Ascii.eqb c "E"%char then
        let '(neg, r1) :=
          match r with
          | String sg r' =>
              if Ascii.eqb sg "-"%char then (true, r')
              else if Ascii.eqb sg "+"%char then (false, r')
              else (false, r)
          | EmptyString => (false, r)
          end in
        let '(ds, _) := span_digits r1 in
        if String.eqb ds "" then 0%Z
        else if neg then (- Z.of_N (digits_value ds))%Z
             else Z.of_N (digits_value ds)
      else 0%Z
  | EmptyString => 0%Z
  end.

(** The value of the longest prefix of [s] that is an unsigned decimal
    literal, with the sign [neg] applied. *)
Definition parse_magnitude (neg : bool) (s2 : string) : jsnum :=
  if String.prefix "Infinity" s2 then Infinity neg
  else
    let '(ip, s3) := span_digits s2 in
    let '(fp, s4) :=
      match s3 with
      | String c r =>
          if Ascii.eqb c "."%char then span_digits r else (EmptyString, s3)
      | EmptyString => (EmptyString, s3)
      end in
    if String.eqb ip "" && String.eqb fp "" then NaN
    else
      let mantissa := Z.of_N (digits_value (ip +:+ fp)) in
      let e := (parse_exponent s4 - Z.of_nat (String.length fp))%Z in
      let magnitude := (inject_Z mantissa * Qpower 10%Q e)%Q in
      Fin (if neg then - magnitude else magnitude)%Q.

(** [parseFloat(s)]: the value of the longest prefix of [s] (after
    leading white space) that is a decimal literal. *)
Definition parseFloat (s : string) : jsnum :=
  let s1 := JsString.trimStart s in
  match s1 with
  | String c r =>
      if Ascii.eqb c "-"%char then parse_magnitude true r
      else if Ascii.eqb c "+"%char then parse_magnitude false r
      else parse_magnitude false s1
  | EmptyString => parse_magnitude false s1
  end.

(** The number controls of the popup. *)
Inductive numberInput :=
| fontSizeInput
| lineHeightInput
| letterSpacingInput
| wordSpacingInput.

Record config := Config {
  cfg_min : Q;
  cfg_max : Q;
  cfg_step : Q;
  cfg_default : string;
}.

Definition numberInputConfig (target : numberInput) : config :=
  match target with
  | fontSizeInput => Config 8%Q 72%Q 1%Q ""
  | lineHeightInput => Config (8 # 10)%Q 3%Q (1 # 10)%Q ""
  | letterSpacingInput => Config (-5)%Q 10%Q (1 # 10)%Q ""
  | wordSpacingInput => Config (-10)%Q 30%Q (5 # 10)%Q ""
  end.

(** The controls of the popup: the [value] of the two selects and of
    the four number inputs, the [active] class of the two direction
    buttons, whether the controls are disabled, and whether
    [window.currentTranslations] is set. *)
Record ui := UI {
  fontSelect : string;
  fontWeightSelect : string;
  fontSizeInputElement : string;
  lineHeightInputElement : string;
  letterSpacingInputElement : string;
  wordSpacingInputElement : string;
  btnRtl : bool;
  btnLtr : bool;
  disabled : bool;
  currentTranslations : bool;
}.

Definition input_value (target : numberInput) (u : ui) : string :=
  match target with
  | fontSizeInput => fontSizeInputElement u
  | lineHeightInput => lineHeightInputElement u
  | letterSpacingInput => letterSpacingInputElement u
  | wordSpacingInput => wordSpacingInputElement u
  end.

Definition set_input_value (target : numberInput) (v : string) (u : ui) : ui :=
  match target with
  | fontSizeInput =>
      UI (fontSelect u) (fontWeightSelect u) v (lineHeightInputElement u)
         (letterSpacingInputElement u) (wordSpacingInputElement u)
         (btnRtl u) (btnLtr u) (disabled u) (currentTranslations u)
  | lineHeightInput =>
      UI (fontSelect u) (fontWeightSelect u) (fontSizeInputElement u) v
         (letterSpacingInputElement u) (wordSpacingInputElement u)
         (btnRtl u) (btnLtr u) (disabled u) (currentTranslations u)
  | letterSpacingInput =>
      UI (fontSelect u) (fontWeightSelect u) (fontSizeInputElement u)
         (lineHeightInputElement u) v (wordSpacingInputElement u)
         (btnRtl u) (btnLtr u) (disabled u) (currentTranslations u)
  | wordSpacingInput =>
      UI (fontSelect u) (fontWeightSelect u) (fontSizeInputElement u)
         (lineHeightInputElement u) (letterSpacingInputElement u) v
         (btnRtl u) (btnLtr u) (disabled u) (currentTranslations u)
  end.

Definition set_fontSelect (v : string) (u : ui) : ui :=
  UI v (fontWeightSelect u) (fontSizeInputElement u)
     (lineHeightInputElement u) (letterSpacingInputElement u)
     (wordSpacingInputElement u) (btnRtl u) (btnLtr u) (disabled u)
     (currentTranslations u).

Definition set_fontWeightSelect (v : string) (u : ui) : ui :=
  UI (fontSelect u) v (fontSizeInputElement u)
     (lineHeightInputElement u) (letterSpacingInputElement u)
     (wordSpacingInputElement u) (btnRtl u) (btnLtr u) (disabled u)
     (currentTranslations u).

(** [updateDirectionButtonsVisualState] *)
Definition updateDirectionButtonsVisualState (activeDirection : string)
    (u : ui) : ui :=
  UI (fontSelect u) (fontWeightSelect u) (fontSizeInputElement u)
     (lineHeightInputElement u) (letterSpacingInputElement u)
     (wordSpacingInputElement u)
     (String.eqb activeDirection "rtl") (String.eqb activeDirection "ltr")
     (disabled u) (currentTranslations u).

Definition getCurrentSelectedDirection (u : ui) : string :=
  if btnRtl u then "rtl" else if btnLtr u then "ltr" else "".

(** The seven values read from the controls. *)
Record settings := Settings {
  font : string;
  fontWeight : string;
  direction : string;
  fontSize : string;
  lineHeight : string;
  letterSpacing : string;
  wordSpacing : string;
}.

Definition getCurrentUISettings (u : ui) : settings :=
  Settings (fontSelect u) (fontWeightSelect u) (getCurrentSelectedDirection u)
           (JsString.trim (fontSizeInputElement u))
           (JsString.trim (lineHeightInputElement u))
           (JsString.trim (letterSpacingInputElement u))
           (JsString.trim (wordSpacingInputElement u)).

(** [getCurrentTab] *)
Definition getCurrentTab (P : platform) (w : world) : world * option tab :=
  match tabs_query P with
  | Normal tabs => (w, head tabs)
  | Throw error => (emit (ConsoleError ("Error getting current tab: " +:+ error)) w, None)
  end.

(** The record [saveAndApplySettings] writes, as the object literal of
    the source lists its properties. *)
Definition settings_fields (font direction fontSize lineHeight fontWeight
    letterSpacing wordSpacing hostname : string) : list (string * jsval) :=
  [("font", VStr font); ("direction", VStr direction);
   ("fontSize", VStr fontSize); ("lineHeight", VStr lineHeight);
   ("fontWeight", VStr fontWeight); ("letterSpacing", VStr letterSpacing);
   ("wordSpacing", VStr wordSpacing); ("host", VStr hostname)].

Definition saveAndApplySettings (P : platform)
    (font direction fontSize lineHeight fontWeight letterSpacing
     wordSpacing : string) (w : world) : world :=
  let '(w, currentTab) := getCurrentTab P w in
  match currentTab with
  | None => w
  | Some currentTab =>
      match tab_url currentTab with
      | None => w
      | Some url =>
          if String.eqb url ""
             || JsString.startsWith url "chrome://"
             || JsString.startsWith url "about:"
             || JsString.startsWith url "edge://"
          then w
          else
            match URL_hostname P url with
            | None => w
            | Some hostname =>
                let settings :=
                  settings_fields font direction fontSize lineHeight
                    fontWeight letterSpacing wordSpacing hostname in
                match storage_sync_set P [(hostname, VObj settings)] w with
                | (w, Throw error) =>
                    emit (ConsoleError ("Error saving settings: " +:+ error)) w
                | (w, Normal _) =>
                    match tab_id currentTab with
                    | Some (S _ as id) =>
                        let message :=
                          VObj (("action", VStr "applyStyles") :: settings) in
                        let w := emit (TabsSendMessage id message) w in
                        match sendMessage_error P id message with
                        | Some error =>
                            emit (ConsoleWarn
                              ("Could not send message to content script: " +:+ error)) w
                        | None => w
                        end
                    | _ => w
                    end
                end
            end
      end
  end.

(** The [value]s of [window.FONT_LIST] (fonts-config.js). *)
Definition FONT_LIST : list string :=
  [""; "Vazirmatn"; "Noto Sans Arabic"; "Cairo"; "Rubik"; "Lalezar";
   "Baloo Bhaijaan 2"; "Playpen Sans"; "Gulzar"; "Roboto"; "Open Sans";
   "Inter"; "Noto Sans"; "Nunito"; "Playfair Display"; "Roboto Slab";
   "Josefin Sans"; "Merriweather"; "Crimson Text"; "Roboto Mono"].

(** The weights [from, from + 100, ...] up to [to]. *)
Definition weight_range (from to : nat) : list nat :=
  map (λ i, from + 100 * i) (seq 0 (S ((to - from) / 100))).

(** [fontsWithWeightSupport]: the weights offered for a font. *)
Definition fontsWithWeightSupport : list (string * list nat) :=
  [("Vazirmatn", weight_range 100 900);
   ("Noto Sans Arabic", weight_range 100 900);
   ("Cairo", weight_range 200 1000);
   ("Rubik", weight_range 300 900);
   ("Baloo Bhaijaan 2", weight_range 400 800);
   ("Playpen Sans", weight_range 100 900);
   ("Roboto", [100; 300; 400; 500; 700; 900]);
   ("Open Sans", weight_range 300 800);
   ("Inter", weight_range 100 900);
   ("Noto Sans", [100; 200; 300; 400; 500; 600; 700; 800; 900]);
   ("Nunito", weight_range 200 1000);
   ("Playfair Display", weight_range 400 900);
   ("Roboto Slab", weight_range 100 900);
   ("Josefin Sans", weight_range 100 700);
   ("Merriweather", [300; 400; 700; 900]);
   ("Crimson Text", [400; 600; 700]);
   ("Roboto Mono", weight_range 100 700)].

Fixpoint fontInfo (name : string) (t : list (string * list nat))
  : option (list nat) :=
  match t with
  | [] => None
  | (k, ws) :: rest => if String.eqb k name then Some ws else fontInfo name rest
  end.

(** Assigning [v] to the [value] of a select whose options are
    [options]: a value that is no option leaves nothing selected. *)
Definition select_value (options : list string) (v : string) : string :=
  if bool_decide (v ∈ options) then v else "".

(** [populateFontSelectDOM(fontSelect, selectedValue)]: the options are
    rebuilt from [FONT_LIST]; the one equal to [selectedValue] is
    selected, the first one otherwise. *)
Definition populateFontSelectDOM (selectedValue : string) (u : ui) : ui :=
  if negb (currentTranslations u) then u
  else set_fontSelect
         (if bool_decide (selectedValue ∈ FONT_LIST) then selectedValue
          else default "" (head FONT_LIST)) u.

(** [updateFontWeightSelector(selectedFontName, currentWeightValue)] *)
Definition updateFontWeightSelector (selectedFontName currentWeightValue : string)
    (u : ui) : ui :=
  if negb (currentTranslations u) then u
  else
    match fontInfo selectedFontName fontsWithWeightSupport with
    | Some weights =>
        if negb (String.eqb selectedFontName "") then
          set_fontWeightSelect
            (select_value ("" :: map (λ w, nat_digits (N.of_nat w)) weights)
                          currentWeightValue) u
        else set_fontWeightSelect "" u
    | None => set_fontWeightSelect "" u
    end.

(** The user's actions on the controls.  For [InputEvent] and the two
    select changes the browser first stores the new value in the
    control, then runs the listener. *)
Inductive edit :=
| StepperClick (target : numberInput) (up : bool) (dataStep : option string)
| InputEvent (target : numberInput) (typed : string)
| ChangeEvent (target : numberInput)
| FontSelectChange (value : string)
| FontWeightSelectChange (value : string)
| BtnRtlClick
| BtnLtrClick
| ResetClick.

Definition save (P : platform) (s : settings) (w : world) : world :=
  saveAndApplySettings P (font s) (direction s) (fontSize s) (lineHeight s)
    (fontWeight s) (letterSpacing s) (wordSpacing s) w.

(** The clamping and rounding shared by the stepper and the [change]
    listener. *)
Definition clamp_round (target : numberInput) (value : jsnum) : jsnum :=
  let config := numberInputConfig target in
  let v1 := if num_lt value (Fin (cfg_min config)) then Fin (cfg_min config)
            else value in
  let v2 := if num_lt (Fin (cfg_max config)) v1 then Fin (cfg_max config)
            else v1 in
  match target with
  | fontSizeInput => Math_round v2
  | _ => parseFloat (toFixed2 v2)
  end.

(** The click listener of a [.stepper-btn]. *)
Definition stepper_click (P : platform) (target : numberInput) (up : bool)
    (dataStep : option string) (u : ui) (w : world) : ui * world :=
  if disabled u then (u, w)
  else
    let config := numberInputConfig target in
    let step :=
      let s := match dataStep with
               | Some d => parseFloat d
               | None => NaN
               end in
      if num_truthy s then s else Fin (cfg_step config) in
    let text := JsString.trim (input_value target u) in
    let currentValue0 := parseFloat text in
    let currentValue1 :=
      if isNaN currentValue0 || String.eqb text "" then
        let baseValue := match target with
                         | fontSizeInput => Fin 16%Q
                         | _ => Fin 0%Q
                         end in
        if up then num_add baseValue (num_neg step) else num_add baseValue step
      else currentValue0 in
    let currentValue2 :=
      num_add currentValue1 (if up then step else num_neg step) in
    let u' := set_input_value target
                (num_toString (clamp_round target currentValue2)) u in
    (u', save P (getCurrentUISettings u') w).

(** The [input] listener of a number control. *)
Definition number_input (P : platform) (target : numberInput) (u : ui)
    (w : world) : ui * world :=
  (u, save P (getCurrentUISettings u) w).

(** The [change] listener of a number control. *)
Definition number_change (P : platform) (target : numberInput) (u : ui)
    (w : world) : ui * world :=
  let config := numberInputConfig target in
  let text := JsString.trim (input_value target u) in
  let numericValue := parseFloat text in
  let u' :=
    if isNaN numericValue || String.eqb text ""
    then set_input_value target (cfg_default config) u
    else set_input_value target
           (num_toString (clamp_round target numericValue)) u in
  (u', save P (getCurrentUISettings u') w).

Definition fontSelect_change (P : platform) (u : ui) (w : world) : ui * world :=
  let selectedFont := fontSelect u in
  let u' := updateFontWeightSelector selectedFont "" u in
  (u', save P (getCurrentUISettings u') w).

Definition fontWeightSelect_change (P : platform) (u : ui) (w : world)
  : ui * world :=
  (u, save P (getCurrentUISettings u) w).

Definition direction_click (P : platform) (which : string) (u : ui)
    (w : world) : ui * world :=
  let currentDirection := getCurrentSelectedDirection u in
  let newDirection := if negb (String.eqb currentDirection which)
                      then which else "" in
  let u' := updateDirectionButtonsVisualState newDirection u in
  let s := getCurrentUISettings u' in
  (u', saveAndApplySettings P (font s) newDirection (fontSize s)
         (lineHeight s) (fontWeight s) (letterSpacing s) (wordSpacing s) w).

Definition reset_click (P : platform) (u : ui) (w : world) : ui * world :=
  let u1 := populateFontSelectDOM "" u in
  let u2 := updateFontWeightSelector "" "" u1 in
  let u3 := set_input_value fontSizeInput
              (cfg_default (numberInputConfig fontSizeInput)) u2 in
  let u4 := set_input_value lineHeightInput
              (cfg_default (numberInputConfig lineHeightInput)) u3 in
  let u5 := set_input_value letterSpacingInput
              (cfg_default (numberInputConfig letterSpacingInput)) u4 in
  let u6 := set_input_value wordSpacingInput
              (cfg_default (numberInputConfig wordSpacingInput)) u5 in
  let u7 := updateDirectionButtonsVisualState "" u6 in
  (u7, saveAndApplySettings P "" "" "" "" "" "" "" w).

(** The control state once the browser has recorded the user's action
    and the listener has updated the controls, and the world once the
    listener has run. *)
Definition handle (P : platform) (e : edit) (u : ui) (w : world) : ui * world :=
  match e with
  | StepperClick target up dataStep => stepper_click P target up dataStep u w
  | InputEvent target typed =>
      number_input P target (set_input_value target typed u) w
  | ChangeEvent target => number_change P target u w
  | FontSelectChange value => fontSelect_change P (set_fontSelect value u) w
  | FontWeightSelectChange value =>
      fontWeightSelect_change P (set_fontWeightSelect value u) w
  | BtnRtlClick => direction_click P "rtl" u w
  | BtnLtrClick => direction_click P "ltr" u w
  | ResetClick => reset_click P u w
  end.

End Popup.

(** ** background.js: the Dispatcher *)

Module Background.
Import Browser.

(** The [browser.tabs.onUpdated] listener. *)
Definition onUpdated (P : platform) (tabId : nat)
    (changeInfo_status : option string) (tab : tab) (w : world) : world :=
  match tab_url tab with
  | Some url =>
      if bool_decide (changeInfo_status = Some "complete")
         && negb (String.eqb url "")
         && (JsString.startsWith url "http" || JsString.startsWith url "file")
      then
        let attempt : world * completion unit :=
          match URL_hostname P url with
          | None => (w, Throw "TypeError: Invalid URL")
          | Some hostname =>
              match sync_get_error P with
              | Some e => (w, Throw e)
              | None =>
                  let settings := default VUndef (sync w !! hostname) in
                  if truthy settings then
                    let message :=
                      VObj [("action", VStr "applyStyles");
                            ("font", get settings "font");
                            ("direction", get settings "direction");
                            ("fontSize", get settings "fontSize");
                            ("lineHeight", get settings "lineHeight");
                            ("fontWeight", get settings "fontWeight");
                            ("letterSpacing", get settings "letterSpacing");
                            ("wordSpacing", get settings "wordSpacing")] in
                    let w := emit (TabsSendMessage tabId message) w in
                    match sendMessage_error P tabId message with
                    | Some error =>
                        if negb (JsString.includes error "Could not establish connection")
                        then (emit (ConsoleWarn
                                ("[Service Worker] Could not apply styles to tab "
                                 +:+ nat_digits (N.of_nat tabId) +:+ ": " +:+ error)) w,
                              Normal tt)
                        else (w, Normal tt)
                    | None => (w, Normal tt)
                    end
                  else (w, Normal tt)
              end
          end in
        match attempt with
        | (w, Normal _) => w
        | (w, Throw error) =>
            emit (ConsoleError
              ("[Service Worker] Error in tabs.onUpdated listener: " +:+ error)) w
        end
      else w
  | None => w
  end.

End Background.

(** ** settings.js: export and import *)

Module Settings.
Import Browser.

Definition EXPORT_FILE_NAME : string := "font_changer_settings_backup.json".

(** The settings page: the status line ([None] when the element is
    missing from the page; otherwise its text and class), the loaded
    translations and the value of the file input. *)
Record page := Page {
  importStatusMessageElement : option (string * string);
  currentTranslations : option (gmap string string);
  importFile_value : option string;
}.

(** [getLocalizedText(key, fallback)] *)
Definition getLocalizedText (pg : page) (key fallback : string) : string :=
  match currentTranslations pg with
  | Some t =>
      match t !! key with
      | Some text => if String.eqb text "" then fallback else text
      | None => fallback
      end
  | None => fallback
  end.

(** [displayStatusMessage(key, type, duration, placeholders)]; the timer
    that later hides the line is left out. *)
Definition displayStatusMessage (key type : string)
    (placeholders : list (string * string)) (pg : page) : page :=
  match importStatusMessageElement pg with
  | None => pg
  | Some _ =>
      let text :=
        foldl (λ text p,
                 JsString.replace text
                   ("$" +:+ JsString.toUpperCase (fst p) +:+ "$") (snd p))
              (getLocalizedText pg key key) placeholders in
      Page (Some (text, "status-message visible " +:+ type))
           (currentTranslations pg) (importFile_value pg)
  end.

(** The keys [handleExportSettings] keeps. *)
Definition exported_key (key : string) : bool :=
  JsString.includes key "."
  || bool_decide (key ∈ ["uiFont"; "theme"; "extensionLanguage"]).

Definition exportData (data : gmap string jsval) : list (string * jsval) :=
  filter (λ kv, exported_key (fst kv) = true) (map_to_list data).

Definition handleExportSettings (P : platform) (pg : page) (w : world)
  : page * world :=
  match sync_get_error P with
  | Some _ => (displayStatusMessage "exportErrorMessage" "error" [] pg, w)
  | None =>
      let exportData := exportData (sync w) in
      if length exportData =? 0
      then (displayStatusMessage "exportNoSettingsMessage" "" [] pg, w)
      else
        (displayStatusMessage "exportSuccessMessage" "success" [] pg,
         emit (Download EXPORT_FILE_NAME (JSON_stringify P (VObj exportData))) w)
  end.

(** [storageArea.set(settings)] for a parsed document: only an object
    is a set of items. *)
Definition storageArea_set (P : platform) (settings : jsval) (w : world)
  : world * completion unit :=
  match settings with
  | VObj items => storage_sync_set P items w
  | _ => (w, Throw "TypeError: Error in invocation of storage.set")
  end.

(** [handleImportSettings(event)]; [file] is the text of
    [event.target.files[0]], if a file was chosen. *)
Definition handleImportSettings (P : platform) (file : option string)
    (pg : page) (w : world) : page * world :=
  match file with
  | None => (pg, w)
  | Some text =>
      let '(pg1, w1) :=
        match JSON_parse P text with
        | Normal settings =>
            match storageArea_set P settings w with
            | (w', Normal _) => (pg, emit LocationReload w')
            | (w', Throw message) =>
                (displayStatusMessage "importErrorMessage" "error"
                   [("ERROR", message)] pg, w')
            end
        | Throw message =>
            (displayStatusMessage "importErrorMessage" "error"
               [("ERROR", message)] pg, w)
        end in
      (Page (importStatusMessageElement pg1) (currentTranslations pg1) None, w1)
  end.

(** The document the last export handed to the browser, if any. *)
Definition last_download (tr : list effect) : option string :=
  last (omap (λ e, match e with
                   | Download _ content => Some content
                   | _ => None
                   end) tr).

End Settings.

(** * Properties *)

(** ** Vocabulary of the statements *)

Module Props.
Import Browser.

(** An effect that only writes to the console. *)
Definition is_console (e : effect) : bool :=
  match e with
  | ConsoleWarn _ | ConsoleError _ => true
  | _ => false
  end.

(** The active tab as [saveAndApplySettings] refuses it: there is no
    tab, the tab has no URL, the URL is browser-internal, or the URL has
    no parsable hostname. *)
Inductive refused_tab (P : platform) : option tab → Prop :=
| refused_absent : refused_tab P None
| refused_no_url t :
    nonempty (tab_url t) = false → refused_tab P (Some t)
| refused_internal t url :
    tab_url t = Some url →
    JsString.startsWith url "chrome://" = true
    ∨ JsString.startsWith url "about:" = true
    ∨ JsString.startsWith url "edge://" = true →
    refused_tab P (Some t)
| refused_unparsable t url :
    tab_url t = Some url → URL_hostname P url = None →
    refused_tab P (Some t).

(** The active tab as the popup can edit it: it is a tab with a
    non-zero id whose URL is not browser-internal and has the hostname
    [hostname], and the store accepts writes. *)
Record usable_tab (P : platform) (w : world) (hostname : string) (id : nat)
  : Prop := {
  usable_query : ∃ t rest url,
      tabs_query P = Normal (t :: rest) ∧ tab_url t = Some url
      ∧ tab_id t = Some id ∧ URL_hostname P url = Some hostname
      ∧ String.eqb url "" = false
      ∧ JsString.startsWith url "chrome://" = false
      ∧ JsString.startsWith url "about:" = false
      ∧ JsString.startsWith url "edge://" = false;
  usable_id : id ≠ 0;
  usable_store : ∀ items, sync_set_error P (sync w) items = None;
}.

(** The record the popup writes for the control values [s]. *)
Definition record_of (s : Popup.settings) (hostname : string) : jsval :=
  VObj (Popup.settings_fields (Popup.font s) (Popup.direction s)
          (Popup.fontSize s) (Popup.lineHeight s) (Popup.fontWeight s)
          (Popup.letterSpacing s) (Popup.wordSpacing s) hostname).

(** The [applyStyles] command the popup sends for the control values [s]. *)
Definition command_of (s : Popup.settings) (hostname : string) : jsval :=
  VObj (("action", VStr "applyStyles") ::
        Popup.settings_fields (Popup.font s) (Popup.direction s)
          (Popup.fontSize s) (Popup.lineHeight s) (Popup.fontWeight s)
          (Popup.letterSpacing s) (Popup.wordSpacing s) hostname).

(** The effects of a delivery attempt that the popup logs. *)
Definition delivery_log (P : platform) (id : nat) (message : jsval)
  : list effect :=
  match sendMessage_error P id message with
  | Some error =>
      [ConsoleWarn ("Could not send message to content script: " +:+ error)]
  | None => []
  end.

(** The direction the two direction buttons of the popup show. *)
Definition shown_direction (u : Popup.ui) : string :=
  if Popup.btnRtl u then "rtl" else if Popup.btnLtr u then "ltr" else "".

(** The seven fields and the host, as the controls [u] of the popup
    show them: the two selects, the pressed direction button and the
    four number inputs without the spaces around their text. *)
Definition controls_fields (u : Popup.ui) (hostname : string)
  : list (string * jsval) :=
  [("font", VStr (Popup.fontSelect u));
   ("direction", VStr (shown_direction u));
   ("fontSize", VStr (JsString.trim (Popup.fontSizeInputElement u)));
   ("lineHeight", VStr (JsString.trim (Popup.lineHeightInputElement u)));
   ("fontWeight", VStr (Popup.fontWeightSelect u));
   ("letterSpacing", VStr (JsString.trim (Popup.letterSpacingInputElement u)));
   ("wordSpacing", VStr (JsString.trim (Popup.wordSpacingInputElement u)));
   ("host", VStr hostname)].

(** The site record of the controls [u], and the [applyStyles] command
    with the same fields. *)
Definition controls_record (u : Popup.ui) (hostname : string) : jsval :=
  VObj (controls_fields u hostname).

Definition controls_command (u : Popup.ui) (hostname : string) : jsval :=
  VObj (("action", VStr "applyStyles") :: controls_fields u hostname).

(** The selects, the direction and every number input but [target]
    show in [u'] what they show in [u]. *)
Definition others_kept (target : Popup.numberInput) (u u' : Popup.ui) : Prop :=
  Popup.fontSelect u' = Popup.fontSelect u
  ∧ Popup.fontWeightSelect u' = Popup.fontWeightSelect u
  ∧ shown_direction u' = shown_direction u
  ∧ ∀ other, other ≠ target →
      Popup.input_value other u' = Popup.input_value other u.

(** What the controls show after the edit [e] of the controls [u]: the
    control the edit is made on has its new value and the others have
    the values they had, but for the weight, which a change of font
    clears, and for the reset, which clears all. *)
Definition edited (e : Popup.edit) (u u' : Popup.ui) : Prop :=
  match e with
  | Popup.StepperClick target _ _ | Popup.ChangeEvent target =>
      others_kept target u u'
  | Popup.InputEvent target typed =>
      others_kept target u u' ∧ Popup.input_value target u' = typed
  | Popup.FontSelectChange value =>
      Popup.fontSelect u' = value ∧ Popup.fontWeightSelect u' = ""
      ∧ shown_direction u' = shown_direction u
      ∧ ∀ input, Popup.input_value input u' = Popup.input_value input u
  | Popup.FontWeightSelectChange value =>
      Popup.fontSelect u' = Popup.fontSelect u
      ∧ Popup.fontWeightSelect u' = value
      ∧ shown_direction u' = shown_direction u
      ∧ ∀ input, Popup.input_value input u' = Popup.input_value input u
  | Popup.BtnRtlClick =>
      Popup.fontSelect u' = Popup.fontSelect u
      ∧ Popup.fontWeightSelect u' = Popup.fontWeightSelect u
      ∧ shown_direction u'
        = (if String.eqb (shown_direction u) "rtl" then "" else "rtl")
      ∧ ∀ input, Popup.input_value input u' = Popup.input_value input u
  | Popup.BtnLtrClick =>
      Popup.fontSelect u' = Popup.fontSelect u
      ∧ Popup.fontWeightSelect u' = Popup.fontWeightSelect u
      ∧ shown_direction u'
        = (if String.eqb (shown_direction u) "ltr" then "" else "ltr")
      ∧ ∀ input, Popup.input_value input u' = Popup.input_value input u
  | Popup.ResetClick =>
      Popup.fontSelect u' = "" ∧ Popup.fontWeightSelect u' = ""
      ∧ shown_direction u' = ""
      ∧ ∀ input, Popup.input_value input u' = ""
  end.

(** The key of a site record: a hostname, which has a dot in it. *)
Definition site_key (key : string) : Prop :=
  ∃ a b, key = a +:+ "." +:+ b.

(** The three keys of the settings that hold for all sites. *)
Definition global_key (key : string) : Prop :=
  key = "uiFont" ∨ key = "theme" ∨ key = "extensionLanguage".

(** The keys a backup is to hold. *)
Definition backed_up (key : string) : Prop := site_key key ∨ global_key key.

(** An object made of entries of [store], each key at most once. *)
Definition entries_of (store : gmap string jsval)
    (items : list (string * jsval)) : Prop :=
  NoDup items.*1 ∧ ∀ key value, (key, value) ∈ items → store !! key = Some value.

(** The JSON codec of the platform reads back what it wrote, for the
    objects made of entries of [store]. *)
Definition codec_reads_back (P : platform) (store : gmap string jsval) : Prop :=
  ∀ items, entries_of store items →
    JSON_parse P (JSON_stringify P (VObj items)) = Normal (VObj items).

(** The [applyStyles] command the Dispatcher builds from a stored
    record. *)
Definition dispatched_command (record : jsval) : jsval :=
  VObj [("action", VStr "applyStyles");
        ("font", get record "font");
        ("direction", get record "direction");
        ("fontSize", get record "fontSize");
        ("lineHeight", get record "lineHeight");
        ("fontWeight", get record "fontWeight");
        ("letterSpacing", get record "letterSpacing");
        ("wordSpacing", get record "wordSpacing")].

(** A URL of one of the schemes the Dispatcher serves. *)
Definition web_or_file_url (url : string) : Prop :=
  JsString.startsWith url "http://" = true
  ∨ JsString.startsWith url "https://" = true
  ∨ JsString.startsWith url "file://" = true.

(** The failure message of a delivery to a tab without receiver. *)
Definition no_receiver (error : string) : Prop :=
  JsString.includes error "Could not establish connection" = true.

(** Two states of a content script agree on everything but the page,
    the session store, the random generator and the console. *)
Record same_control (st st' : Content.state) : Prop := {
  same_hostname : Content.hostname st' = Content.hostname st;
  same_currentApplied : Content.currentApplied st' = Content.currentApplied st;
  same_observer : Content.observer st' = Content.observer st;
  same_timeout :
    Content.mutationDebounceTimeout st' = Content.mutationDebounceTimeout st;
  same_now : Content.now st' = Content.now st;
  same_timers : Content.timers st' = Content.timers st;
  same_nextTimerId : Content.nextTimerId st' = Content.nextTimerId st;
  same_applyCalls : Content.applyCalls st' = Content.applyCalls st;
}.

(** A computation that leaves the control part of the state alone. *)
Definition keeps_control {A} (m : Content.M A) : Prop :=
  ∀ st, same_control st (fst (m st)).

(** The times of a burst: each batch arrives less than 300 ms after
    the one before it. *)
Fixpoint within_window (first : nat) (later : list nat) : Prop :=
  match later with
  | [] => True
  | t :: rest => first ≤ t ∧ t < first + 300 ∧ within_window t rest
  end.

(** The time of the last batch of a burst. *)
Definition last_time (first : nat) (later : list nat) : nat :=
  List.last later first.

(** What a state without override keeps while time passes and
    mutations arrive. *)
Definition idle_like (st st' : Content.state) : Prop :=
  Content.doc st' = Content.doc st
  ∧ Content.sessionStore st' = Content.sessionStore st
  ∧ Content.applyCalls st' = Content.applyCalls st
  ∧ Content.currentApplied st' = Content.currentApplied st
  ∧ Content.console st' = Content.console st
  ∧ Content.randomCalls st' = Content.randomCalls st.

(** The state of the debounce timer right after a batch delivered at
    time [t]: exactly one timer is pending, it is the one
    [mutationDebounceTimeout] names and it is due at [t + 300]. *)
Definition armed (st0 st : Content.state) (t : nat) : Prop :=
  (∃ id, Content.timers st = [(id, t + 300)]
         ∧ Content.mutationDebounceTimeout st = Some id)
  ∧ Content.applyCalls st = Content.applyCalls st0
  ∧ Content.currentApplied st = Content.currentApplied st0
  ∧ Content.observer st = true
  ∧ Content.now st = t.

(** The elements with the given tag among the child nodes of the
    head ([host = None]) or of the shadow root of a host. *)
Definition injected (tag : string) (host : option Dom.key) (st : Content.state)
  : list Dom.node :=
  let html := Content.html_of st in
  let kids :=
    match host with
    | None => match Dom.document_head html with
              | Some h => Dom.childNodes_of h
              | None => []
              end
    | Some k => match Dom.lookup_key k html with
                | Some e => default [] (Dom.shadowRoot_of e)
                | None => []
                end
    end in
  filter (λ c, Dom.tagName_of c = tag) kids.

(** The keys of the elements of a tree, shadow trees included. *)
Fixpoint keys (n : Dom.node) : list Dom.key :=
  match n with
  | Dom.Text _ => []
  | Dom.Elem k _ _ _ cs sh =>
      k :: flat_map keys cs ++
        match sh with Some ss => flat_map keys ss | None => [] end
  end.

(** An element without element children and without shadow root. *)
Definition leaf (e : Dom.node) : bool :=
  forallb (λ c, negb (Dom.is_element c)) (Dom.childNodes_of e)
  && match Dom.shadowRoot_of e with None => true | Some _ => false end.

(** An element that hosts a shadow root. *)
Definition is_host (e : Dom.node) : bool :=
  match Dom.shadowRoot_of e with Some _ => true | None => false end.

(** An element that carries one of the ids of the extension is what the
    extension creates under that id: a [style] element or the font
    [link], without element children. *)
Definition owned (e : Dom.node) : bool :=
  (if JsString.startsWith (Dom.id_of e) Content.STYLE_OVERRIDE_TAG_ID
   then leaf e && String.eqb (Dom.tagName_of e) "STYLE" else true)
  && (if String.eqb (Dom.id_of e) Content.FONT_LINK_TAG_ID
      then leaf e && String.eqb (Dom.tagName_of e) "LINK" else true).

(** A document as a browser holds it: an element is one object (no
    key occurs twice), [createElement] hands out unused keys, and the
    ids of the extension are on elements of the extension only. *)
Record well_formed (d : Dom.document) : Prop := {
  wf_distinct : NoDup (keys (Dom.documentElement d));
  wf_fresh : Forall (λ k, k < Dom.nextKey d) (keys (Dom.documentElement d));
  wf_owned : Forall (λ e, owned e = true)
                    (Dom.all_elements (Dom.documentElement d));
}.

(** A value that is a string whenever it is truthy. *)
Definition string_or_falsy (v : jsval) : Prop :=
  truthy v = true → ∃ s, v = VStr s.

(** A [style] element whose text is [css]. *)
Definition style_with (css : string) (s : Dom.node) : bool :=
  String.eqb (Dom.tagName_of s) "STYLE" && String.eqb (Dom.textContent s) css
  && leaf s.

(** The shadow tree of [h] holds an element that satisfies [G]. *)
Definition shadow_holds (G : Dom.node → Prop) (h : Dom.node) : Prop :=
  ∃ ss s, Dom.shadowRoot_of h = Some ss
          ∧ s ∈ Dom.querySelectorAll_star ss ∧ G s.

(** The shadow tree of [h] holds a [style] element with the text [css]. *)
Definition styled (css : string) (h : Dom.node) : Prop :=
  shadow_holds (λ s, style_with css s = true) h.

(** The tree has an element with key [k] that satisfies [P]. *)
Definition at_key (P : Dom.node → Prop) (k : Dom.key) (n : Dom.node) : Prop :=
  ∃ e, e ∈ Dom.all_elements n ∧ Dom.key_of e = Some k ∧ P e.

(** What a shadow host keeps while the page around it changes: its
    identity, its shadow root, an element that satisfies [G] in the shadow
    tree and the value [dir] of its [dir] attribute. *)
Definition host_kept (G : Dom.node → Prop) (dir : string) (e e' : Dom.node)
  : Prop :=
  Dom.key_of e' = Dom.key_of e ∧ is_host e' = true
  ∧ (shadow_holds G e → shadow_holds G e')
  ∧ (Dom.getAttribute "dir" e = Some dir → Dom.getAttribute "dir" e' = Some dir).

(** A tree [n'] that came out of [n] by edits that keep every host. *)
Record evolves (G : Dom.node → Prop) (dir : string) (n n' : Dom.node)
  : Prop := {
  ev_text : Dom.is_element n = false → n' = n;
  ev_light : ∀ s, s ∈ Dom.subtree_elements n → G s →
                  ∃ s', s' ∈ Dom.subtree_elements n' ∧ G s';
  ev_hosts : ∀ e, e ∈ Dom.all_elements n → is_host e = true →
                  ∃ e', e' ∈ Dom.all_elements n' ∧ host_kept G dir e e';
}.

(** The search of [lookup_key] through a list of trees. *)
Definition first_found (k : Dom.key) (l : list Dom.node) : option Dom.node :=
  (fix first (l : list Dom.node) : option Dom.node :=
     match l with
     | [] => None
     | c :: l' =>
         match Dom.lookup_key k c with
         | Some r => Some r
         | None => first l'
         end
     end) l.

(** The elements the traversal of [getAllShadowRoots] has taken from its
    queue ([done]) cover what they lead to: their element children and,
    for a host, the elements of its shadow tree are done or queued, and
    the key of a host is among the roots found. *)
Record traversed (T : Dom.node) (done queue : list Dom.node)
    (roots : list Dom.key) : Prop := {
  tr_inside : ∀ e, e ∈ done ++ queue → e ∈ Dom.all_elements T;
  tr_children : ∀ e c, e ∈ done → c ∈ Dom.children e → c ∈ done ++ queue;
  tr_shadow : ∀ e k ss, e ∈ done → Dom.key_of e = Some k →
      Dom.shadowRoot_of e = Some ss →
      k ∈ roots ∧ ∀ x, x ∈ Dom.querySelectorAll_star ss → x ∈ done ++ queue;
  tr_roots : ∀ k, k ∈ roots →
      ∃ e, e ∈ done ∧ Dom.key_of e = Some k ∧ is_host e = true;
}.

(** A string of decimal digits. *)
Fixpoint all_digits (s : string) : bool :=
  match s with
  | EmptyString => true
  | String c r => JsString.is_digit c && all_digits r
  end.

(** The number [parseFloat] reads back from [toFixed(2)]: the nearest
    multiple of a hundredth. *)
Definition fixed2 (q : Q) : Q :=
  let magnitude := (inject_Z (Popup.hundredths q) * Qpower 10 (-2))%Q in
  if Qlt_le_dec q 0 then (- magnitude)%Q else magnitude.

(** A string without white space. *)
Fixpoint no_space (s : string) : bool :=
  match s with
  | EmptyString => true
  | String c r => negb (JsString.is_space c) && no_space r
  end.

(** The value lies within the bounds of the control. *)
Definition within_bounds (target : Popup.numberInput) (q : Q) : Prop :=
  (Popup.cfg_min (Popup.numberInputConfig target) <= q)%Q
  ∧ (q <= Popup.cfg_max (Popup.numberInputConfig target))%Q.

(** The value is rounded as the control requires: to an integer for
    the font size, to two decimals otherwise. *)
Definition rounded (target : Popup.numberInput) (q : Q) : Prop :=
  match target with
  | Popup.fontSizeInput => ∃ n : Z, (q == inject_Z n)%Q
  | _ => ∃ n : Z, (q == n # 100)%Q
  end.

(** A stored text is acceptable for a control when it is empty or
    reads as a number within the bounds, rounded as required. *)
Definition acceptable (target : Popup.numberInput) (stored : string) : Prop :=
  stored = ""
  ∨ ∃ q, Popup.parseFloat stored = Popup.Fin q
         ∧ within_bounds target q ∧ rounded target q.

(** The property of the record that holds a number control's value. *)
Definition field_name (target : Popup.numberInput) : string :=
  match target with
  | Popup.fontSizeInput => "fontSize"
  | Popup.lineHeightInput => "lineHeight"
  | Popup.letterSpacingInput => "letterSpacing"
  | Popup.wordSpacingInput => "wordSpacing"
  end.

(** The value stored for a control under a hostname, if any. *)
Definition stored_field (w : world) (hostname : string)
    (target : Popup.numberInput) : jsval :=
  get (default VUndef (sync w !! hostname)) (field_name target).


(** A shadow host of the page with the key [k]. *)
Definition host_key (T : Dom.node) (k : Dom.key) : Prop :=
  ∃ h, h ∈ Dom.all_elements T ∧ Dom.key_of h = Some k ∧ is_host h = true.

End Props.

(** ** Concrete pages, stores and services for the examples *)

Module Sample.
Import Browser.

(** The hostname of an absolute URL with an authority: the text
    between ["://"] and the next slash, colon, question mark or hash. *)
Fixpoint until_delimiter (s : string) : string :=
  match s with
  | EmptyString => EmptyString
  | String c r =>
      if Ascii.eqb c "/"%char || Ascii.eqb c ":"%char
         || Ascii.eqb c "?"%char || Ascii.eqb c "#"%char
      then EmptyString else String c (until_delimiter r)
  end.

Definition hostname_of (url : string) : option string :=
  match JsString.split_at_first "://" url with
  | Some (scheme, rest) =>
      if String.eqb scheme "" then None else Some (until_delimiter rest)
  | None => None
  end.

(** A compact JSON writer. *)
Definition json_quote (s : string) : string := JsString.dq +:+ s +:+ JsString.dq.

Fixpoint json_stringify (v : jsval) : string :=
  match v with
  | VUndef | VNull => "null"
  | VBool b => if b then "true" else "false"
  | VNum q => Number_toString q
  | VStr s => json_quote s
  | VArr items => "[" +:+ JsString.join "," (map json_stringify items) +:+ "]"
  | VObj fields =>
      "{" +:+ JsString.join ","
               (map (λ kv, json_quote (fst kv) +:+ ":" +:+ json_stringify (snd kv))
                    fields) +:+ "}"
  end.

(** A JSON reader for documents without escapes in strings: the value
    read and the rest of the text, or the message of the SyntaxError. *)
Fixpoint read_until_quote (s : string) : option (string * string) :=
  match s with
  | EmptyString => None
  | String c r =>
      if Ascii.eqb c "034"%char then Some (EmptyString, r)
      else match read_until_quote r with
           | Some (t, rest) => Some (String c t, rest)
           | None => None
           end
  end.

Definition number_chars (c : ascii) : bool :=
  JsString.is_digit c || Ascii.eqb c "-"%char || Ascii.eqb c "."%char.

Fixpoint span_number (s : string) : string * string :=
  match s with
  | String c r =>
      if number_chars c
      then let '(d, rest) := span_number r in (String c d, rest)
      else (EmptyString, s)
  | EmptyString => (EmptyString, EmptyString)
  end.

Definition syntax_error (s : string) : string :=
  "Unexpected token in JSON: " +:+ s.

Fixpoint json_value (fuel : nat) (s : string) : completion (jsval * string) :=
  match fuel with
  | O => Throw "Maximum depth exceeded"
  | S fuel' =>
      let s := JsString.trimStart s in
      if String.prefix "null" s then Normal (VNull, String.substring 4 (String.length s) s)
      else if String.prefix "true" s
      then Normal (VBool true, String.substring 4 (String.length s) s)
      else if String.prefix "false" s
      then Normal (VBool false, String.substring 5 (String.length s) s)
      else
        match s with
        | EmptyString => Throw "Unexpected end of JSON input"
        | String c r =>
            if Ascii.eqb c "034"%char then
              match read_until_quote r with
              | Some (t, rest) => Normal (VStr t, rest)
              | None => Throw "Unterminated string in JSON"
              end
            else if Ascii.eqb c "["%char then
              let fix items (n : nat) (s : string) (acc : list jsval)
                  : completion (jsval * string) :=
                match n with
                | O => Throw "Maximum length exceeded"
                | S n' =>
                    match json_value fuel' s with
                    | Throw e => Throw e
                    | Normal (v, rest) =>
                        match JsString.trimStart rest with
                        | String d rest' =>
                            if Ascii.eqb d ","%char then items n' rest' (acc ++ [v])
                            else if Ascii.eqb d "]"%char
                            then Normal (VArr (acc ++ [v]), rest')
                            else Throw (syntax_error rest)
                        | EmptyString => Throw "Unexpected end of JSON input"
                        end
                    end
                end in
              match JsString.trimStart r with
              | String d rest' =>
                  if Ascii.eqb d "]"%char then Normal (VArr [], rest')
                  else items (String.length r) r []
              | EmptyString => Throw "Unexpected end of JSON input"
              end
            else if Ascii.eqb c "{"%char then
              let fix members (n : nat) (s : string) (acc : list (string * jsval))
                  : completion (jsval * string) :=
                match n with
                | O => Throw "Maximum length exceeded"
                | S n' =>
                    match JsString.trimStart s with
                    | String q r1 =>
                        if Ascii.eqb q "034"%char then
                          match read_until_quote r1 with
                          | Some (k, r2) =>
                              match JsString.trimStart r2 with
                              | String col r3 =>
                                  if Ascii.eqb col ":"%char then
                                    match json_value fuel' r3 with
                                    | Throw e => Throw e
                                    | Normal (v, rest) =>
                                        match JsString.trimStart rest with
                                        | String d rest' =>
                                            if Ascii.eqb d ","%char
                                            then members n' rest' (acc ++ [(k, v)])
                                            else if Ascii.eqb d "}"%char
                                            then Normal (VObj (acc ++ [(k, v)]), rest')
                                            else Throw (syntax_error rest)
                                        | EmptyString =>
                                            Throw "Unexpected end of JSON input"
                                        end
                                    end
                                  else Throw (syntax_error r2)
                              | EmptyString => Throw "Unexpected end of JSON input"
                              end
                          | None => Throw "Unterminated string in JSON"
                          end
                        else Throw (syntax_error s)
                    | EmptyString => Throw "Unexpected end of JSON input"
                    end
                end in
              match JsString.trimStart r with
              | String d rest' =>
                  if Ascii.eqb d "}"%char then Normal (VObj [], rest')
                  else members (String.length r) r []
              | EmptyString => Throw "Unexpected end of JSON input"
              end
            else
              let '(digits, rest) := span_number s in
              match Popup.parseFloat digits with
              | Popup.Fin q => Normal (VNum q, rest)
              | _ => Throw (syntax_error s)
              end
        end
  end.

Definition json_parse (s : string) : completion jsval :=
  match json_value (String.length s) s with
  | Normal (v, rest) =>
      if String.eqb (JsString.trimStart rest) "" then Normal v
      else Throw (syntax_error rest)
  | Throw e => Throw e
  end.

(** A browser whose active tab shows [url]; every store operation and
    every delivery succeeds unless [delivery] says otherwise. *)
Definition browser (url : option string) (delivery : option string) : platform :=
  Platform hostname_of (Normal [Tab (Some 7) url]) None (λ _ _, None)
           (λ _ _, delivery) json_stringify json_parse.

Definition empty_world : world := World ∅ [].

(** The popup right after it was opened on a page without settings. *)
Definition fresh_ui : Popup.ui :=
  Popup.UI "" "" "" "" "" "" false false false true.

(** A record as the popup writes it. *)
Definition vazir_record : jsval :=
  VObj (Popup.settings_fields "Vazirmatn" "rtl" "18" "" "" "" "" "example.com").

(** A record whose seven values are all empty. *)
Definition empty_record : jsval :=
  VObj (Popup.settings_fields "" "" "" "" "" "" "" "example.com").

(** A store with one site record and one global key. *)
Definition small_store : gmap string jsval :=
  <["example.com" := vazir_record]> (<["theme" := VStr "dark"]> ∅).

(** A page with a shadow root nested in another shadow root:
    [<div id=widget>] hosts a shadow tree that contains [<span>], which
    hosts a shadow tree of its own. *)
Definition nested_page : Dom.node :=
  Dom.Elem 0 "HTML" "" []
    [Dom.Elem 1 "HEAD" "" [] [] None;
     Dom.Elem 2 "BODY" "" []
       [Dom.Elem 3 "DIV" "widget" []
          [Dom.Text "light"]
          (Some [Dom.Elem 4 "SPAN" "" []
                   [Dom.Text "inner"]
                   (Some [Dom.Elem 5 "B" "" [] [Dom.Text "deep"] None])])]
       None]
    None.

(** A content script that has just started on [page]. *)
Definition started (page : Dom.node) (next : nat) : Content.state :=
  Content.State (Dom.Document page next) "example.com" ∅ 0
                Content.null_tuple false None 0 [] 0 [] [].

(** A random generator that never repeats itself within six calls. *)
Definition suffixes (n : nat) : string :=
  match n with
  | 0 => "k3j9x2a" | 1 => "p0q8w1z" | 2 => "m5n7b4c"
  | 3 => "t2y6u8i" | 4 => "d1f3g5h" | _ => "z9x7c5v"
  end.

Definition rtl_tuple : Content.tuple :=
  Content.Tuple (VStr "Arial") (VStr "rtl") (VStr "18") (VStr "") (VStr "")
                (VStr "") (VStr "").

(** A content script on the nested page after [rtl_tuple] was applied
    on request, with its observer connected. *)
Definition styled_state : Content.state :=
  Content.with_observer true
    (fst (Content.applyPageStyles suffixes rtl_tuple (started nested_page 6))).

(** The settings page with its status line and the English text of
    the import error. *)
Definition settings_page : Settings.page :=
  Settings.Page (Some ("", "status-message"))
    (Some {["importErrorMessage" := "Import failed: $ERROR$"]}) None.

Definition page_url : string := "https://example.com/articles/1".

(** A tuple with a web font. *)
Definition vazir_tuple : Content.tuple :=
  Content.Tuple (VStr "Vazirmatn") (VStr "rtl") (VStr "18") (VStr "") (VStr "400")
                (VStr "") (VStr "").

(** The page after [vazir_tuple] was applied once, and twice. *)
Definition applied_once : Content.state :=
  fst (Content.applyPageStyles suffixes vazir_tuple (started nested_page 6)).

Definition applied_twice : Content.state :=
  fst (Content.applyPageStyles suffixes vazir_tuple applied_once).


End Sample.

(** ** The popup writes and pushes the whole tuple (C4, C10) *)

Section PopupSave.
Import Browser Popup Props.

Variable P : platform.

Lemma saveAndApplySettings_usable w hostname id s :
  usable_tab P w hostname id →
  save P s w =
    World (<[hostname := record_of s hostname]> (sync w))
          (trace w ++ [StorageSyncSet [(hostname, record_of s hostname)];
                       TabsSendMessage id (command_of s hostname)]
                   ++ delivery_log P id (command_of s hostname)).
Proof.
  intros [(t & rest & url & Hq & Hurl & Hid & Hhost & Hne & Hc & Ha & He) Hid0 Hst].
  unfold save, saveAndApplySettings, getCurrentTab.
  rewrite Hq. cbn [head]. rewrite Hurl, Hne, Hc, Ha, He. cbn [orb].
  rewrite Hhost. unfold storage_sync_set. rewrite Hst.
  rewrite Hid. destruct id as [|n]; [done|].
  unfold delivery_log, command_of, record_of, emit. cbn.
  destruct (sendMessage_error P (S n) _); cbn;
    rewrite <- ?app_assoc; reflexivity.
Qed.

Lemma saveAndApplySettings_refused w f d fs lh fw ls ws :
  refused_tab P (snd (getCurrentTab P w)) →
  saveAndApplySettings P f d fs lh fw ls ws w = fst (getCurrentTab P w).
Proof.
  unfold saveAndApplySettings.
  destruct (getCurrentTab P w) as [w1 ct]. cbn [fst snd].
  inversion 1 as [| t Hn | t url Hu Hp | t url Hu Hp]; subst; try done.
  - destruct (tab_url t) as [u|]; [|done].
    cbn in Hn. apply negb_false_iff in Hn. by rewrite Hn.
  - rewrite Hu.
    destruct Hp as [H1|[H1|H1]]; rewrite H1;
      by rewrite ?orb_true_r.
  - rewrite Hu, Hp. by destruct (_ || _).
Qed.

End PopupSave.

Section PopupEdits.
Import Browser Popup Props.

Variable P : platform.

Lemma direction_after_click which u :
  which = "rtl" ∨ which = "ltr" →
  let newDirection :=
    if negb (String.eqb (getCurrentSelectedDirection u) which) then which else "" in
  getCurrentSelectedDirection (updateDirectionButtonsVisualState newDirection u)
  = newDirection.
Proof.
  intros [-> | ->]; unfold getCurrentSelectedDirection;
    destruct (btnRtl u), (btnLtr u); reflexivity.
Qed.

Lemma reset_controls_empty u :
  currentTranslations u = true →
  getCurrentUISettings (fst (reset_click P u (World ∅ [])))
  = Settings "" "" "" "" "" "" "".
Proof.
  intros Ht. destruct u. cbn in Ht. subst. reflexivity.
Qed.

Lemma others_kept_set target v u :
  others_kept target u (set_input_value target v u).
Proof.
  destruct target; repeat split; intros [] ?; done.
Qed.

Lemma input_value_set target v u :
  input_value target (set_input_value target v u) = v.
Proof. by destruct target. Qed.

Lemma fontSelect_change_controls value u :
  currentTranslations u = true →
  let u' := updateFontWeightSelector value "" (set_fontSelect value u) in
  fontSelect u' = value ∧ fontWeightSelect u' = ""
  ∧ shown_direction u' = shown_direction u
  ∧ ∀ input, input_value input u' = input_value input u.
Proof.
  intros Htr. cbn zeta. unfold updateFontWeightSelector.
  cbn [currentTranslations set_fontSelect]. rewrite Htr. cbn [negb].
  destruct (fontInfo value fontsWithWeightSupport) as [weights|];
    [destruct (negb (String.eqb value ""))|];
    (split; [done|]; split;
       [first [done | cbn; unfold select_value;
                      by rewrite bool_decide_eq_true_2 by left]|];
     split; [done|]; by intros []).
Qed.

Lemma direction_click_controls which u :
  which = "rtl" ∨ which = "ltr" →
  let newDirection :=
    if negb (String.eqb (getCurrentSelectedDirection u) which) then which else "" in
  let u' := updateDirectionButtonsVisualState newDirection u in
  fontSelect u' = fontSelect u ∧ fontWeightSelect u' = fontWeightSelect u
  ∧ shown_direction u'
    = (if String.eqb (shown_direction u) which then "" else which)
  ∧ ∀ input, input_value input u' = input_value input u.
Proof.
  intros Hw. cbn zeta. split; [done|]. split; [done|]. split.
  - destruct Hw as [-> | ->];
      unfold shown_direction, getCurrentSelectedDirection;
      destruct (btnRtl u), (btnLtr u); reflexivity.
  - by intros [].
Qed.

(** C4.  On every edit of a popup control, in a popup whose active tab
    can be edited, the control edited shows its new value and the other
    controls the values they had (a change of font clears the weight, a
    reset clears all); the record written to the store, in one [set]
    call under the hostname of the tab, has the seven fields as all the
    controls show them after the edit, and the hostname as its [host];
    the same fields are then sent to the tab as an [applyStyles]
    command. *)
Theorem C4_edit_writes_and_pushes_full_tuple e u w hostname id :
  usable_tab P w hostname id →
  disabled u = false →
  currentTranslations u = true →
  let u' := fst (handle P e u w) in
  let w' := snd (handle P e u w) in
  edited e u u'
  ∧ sync w' = <[hostname := controls_record u' hostname]> (sync w)
  ∧ trace w' =
      trace w ++ [StorageSyncSet [(hostname, controls_record u' hostname)];
                  TabsSendMessage id (controls_command u' hostname)]
              ++ delivery_log P id (controls_command u' hostname).
Proof.
  intros Hus Hdis Htr.
  assert (Hsave : ∀ s, save P s w = _) by
    (intros s; exact (saveAndApplySettings_usable P w hostname id s Hus)).
  assert (Hgoal : ∀ u1 s1,
    getCurrentUISettings u1 = s1 →
    let w1 := save P s1 w in
    sync w1 = <[hostname := controls_record u1 hostname]> (sync w)
    ∧ trace w1 =
        trace w ++ [StorageSyncSet [(hostname, controls_record u1 hostname)];
                    TabsSendMessage id (controls_command u1 hostname)]
                ++ delivery_log P id (controls_command u1 hostname)).
  { intros u1 s1 <-. cbn zeta. rewrite Hsave. cbn [sync trace]. by split. }
  cbn zeta.
  destruct e; cbn [handle edited].
  - unfold stepper_click. rewrite Hdis. cbn [fst snd].
    split; [apply others_kept_set|]. exact (Hgoal _ _ eq_refl).
  - unfold number_input. cbn [fst snd].
    split; [split; [apply others_kept_set|apply input_value_set]|].
    exact (Hgoal _ _ eq_refl).
  - unfold number_change. cbn [fst snd].
    split; [|exact (Hgoal _ _ eq_refl)].
    destruct (_ || _); apply others_kept_set.
  - unfold fontSelect_change. cbn [fst snd].
    split; [|exact (Hgoal _ _ eq_refl)].
    by apply fontSelect_change_controls.
  - unfold fontWeightSelect_change. cbn [fst snd].
    split; [|exact (Hgoal _ _ eq_refl)].
    split; [done|]. split; [done|]. split; [done|]. by intros [].
  - unfold direction_click. cbn [fst snd].
    split; [exact (direction_click_controls "rtl" u (or_introl eq_refl))|].
    pose proof (direction_after_click "rtl" u (or_introl eq_refl)) as Hd.
    cbn zeta in Hd.
    remember (updateDirectionButtonsVisualState _ u) as u1 eqn:Hu1.
    rewrite <- Hd. exact (Hgoal u1 _ eq_refl).
  - unfold direction_click. cbn [fst snd].
    split; [exact (direction_click_controls "ltr" u (or_intror eq_refl))|].
    pose proof (direction_after_click "ltr" u (or_intror eq_refl)) as Hd.
    cbn zeta in Hd.
    remember (updateDirectionButtonsVisualState _ u) as u1 eqn:Hu1.
    rewrite <- Hd. exact (Hgoal u1 _ eq_refl).
  - pose proof (reset_controls_empty u Htr) as Hr.
    unfold reset_click in *. cbn [fst snd] in *.
    split; [|exact (Hgoal _ _ Hr)].
    destruct u. cbn in Htr. subst.
    split; [done|]. split; [done|]. split; [done|]. by intros [].
Qed.

(** C10.  When the active tab is absent, has no URL, has a
    browser-internal URL or a URL without a parsable hostname,
    [saveAndApplySettings] writes nothing to the store and sends no
    message: the store is unchanged and the only thing the call may add
    to the trace is console output. *)
Theorem C10_refused_tab_changes_nothing w f d fs lh fw ls ws :
  refused_tab P (snd (getCurrentTab P w)) →
  let w' := saveAndApplySettings P f d fs lh fw ls ws w in
  sync w' = sync w
  ∧ ∃ log, trace w' = trace w ++ log
           ∧ ∀ e, e ∈ log → is_console e = true.
Proof.
  intros Hr. cbn zeta. rewrite (saveAndApplySettings_refused P w); [|done].
  unfold getCurrentTab. destruct (tabs_query P) as [tabs|err]; cbn.
  - split; [done|]. exists []. rewrite app_nil_r. split; [done|].
    intros e He. by apply elem_of_nil in He.
  - split; [done|]. eexists. split; [done|].
    intros e He. apply list_elem_of_singleton in He. by subst.
Qed.

End PopupEdits.

(** ** The Dispatcher pushes the stored record on navigation (C5) *)

Section Dispatcher.
Import Browser Background Props.

Variable P : platform.

Lemma prefix_app_l a b s :
  String.prefix (a +:+ b) s = true → String.prefix a s = true.
Proof.
  revert s. induction a as [|c a IH]; intros s; [by destruct s|].
  destruct s as [|c' s]; simpl; [done|].
  destruct (Ascii.ascii_dec c c'); [apply IH|done].
Qed.

Lemma web_or_file_url_accepted url :
  web_or_file_url url →
  negb (String.eqb url "")
  && (JsString.startsWith url "http" || JsString.startsWith url "file") = true.
Proof.
  unfold web_or_file_url, JsString.startsWith.
  intros [H|[H|H]].
  - rewrite (prefix_app_l "http" "://" url H). by destruct url.
  - rewrite (prefix_app_l "http" "s://" url H). by destruct url.
  - rewrite (prefix_app_l "file" "://" url H), orb_true_r. by destruct url.
Qed.

(** C5.  When a tab whose URL is an http(s) or file URL completes a
    navigation and the store holds a record for the hostname of that
    URL, the Dispatcher sends the tab an [applyStyles] command with the
    seven values of the record.  A failed delivery is not reported as
    an error: the listener completes, the store is untouched, at most a
    warning is logged, and nothing at all is logged when the failure is
    the no-receiver one. *)
Theorem C5_navigation_complete_pushes_record tabId t url hostname fields w :
  tab_url t = Some url →
  web_or_file_url url →
  URL_hostname P url = Some hostname →
  sync_get_error P = None →
  sync w !! hostname = Some (VObj fields) →
  let w' := onUpdated P tabId (Some "complete") t w in
  let command := dispatched_command (VObj fields) in
  sync w' = sync w
  ∧ (∃ log, trace w' = trace w ++ [TabsSendMessage tabId command] ++ log
            ∧ (∀ e, e ∈ log → ∃ text, e = ConsoleWarn text)
            ∧ (sendMessage_error P tabId command = None → log = [])
            ∧ (∀ error, sendMessage_error P tabId command = Some error →
                        no_receiver error → log = [])).
Proof.
  intros Hurl Hweb Hhost Hget Hrec. cbn zeta.
  unfold onUpdated. rewrite Hurl.
  rewrite bool_decide_eq_true_2 by done.
  rewrite <- andb_assoc, (web_or_file_url_accepted url Hweb). cbn [andb].
  rewrite Hhost, Hget, Hrec. cbn [default truthy].
  fold (dispatched_command (VObj fields)).
  destruct (sendMessage_error P tabId _) as [error|] eqn:Hsend.
  - destruct (JsString.includes error _) eqn:Hinc; cbn [negb].
    + split; [done|]. exists []. rewrite app_nil_r.
      repeat split; [|done..]. intros e He. by apply elem_of_nil in He.
    + split; [done|]. eexists [_]. split.
      { cbn. rewrite <- app_assoc. reflexivity. }
      repeat split.
      * intros e He. apply list_elem_of_singleton in He. eauto.
      * done.
      * intros error' [= <-] Hno. unfold no_receiver in Hno. congruence.
  - split; [done|]. exists []. rewrite app_nil_r.
    repeat split; [|done..]. intros e He. by apply elem_of_nil in He.
Qed.

End Dispatcher.

(** ** Export and import (C6, C7) *)

Section ExportImport.
Import Browser Settings Props.

Variable P : platform.

Lemma store_merge_lookup_other items (s : gmap string jsval) key :
  key ∉ items.*1 → store_merge items s !! key = s !! key.
Proof.
  unfold store_merge. revert s.
  induction items as [|[k v] items IH]; intros s Hn; [done|].
  cbn in *. apply not_elem_of_cons in Hn as [Hne Hn].
  rewrite IH by done. by rewrite lookup_insert_ne.
Qed.

Lemma store_merge_lookup_item items (s : gmap string jsval) key value :
  NoDup items.*1 → (key, value) ∈ items →
  store_merge items s !! key = Some value.
Proof.
  unfold store_merge. revert s.
  induction items as [|[k v] items IH]; intros s Hnd Hin.
  - by apply elem_of_nil in Hin.
  - cbn in *. apply NoDup_cons in Hnd as [Hk Hnd].
    apply elem_of_cons in Hin as [[= <- <-]|Hin].
    + pose proof (store_merge_lookup_other items (<[key:=value]> s) key Hk) as H.
      unfold store_merge in H. rewrite H. apply lookup_insert_eq.
    + by apply IH.
Qed.

Lemma exportData_elem (data : gmap string jsval) key value :
  (key, value) ∈ exportData data
  ↔ exported_key key = true ∧ data !! key = Some value.
Proof.
  unfold exportData. rewrite list_elem_of_filter, elem_of_map_to_list. done.
Qed.

Lemma exportData_NoDup (data : gmap string jsval) :
  NoDup (exportData data).*1.
Proof.
  unfold exportData.
  eapply sublist_NoDup; [apply (NoDup_fst_map_to_list data)|].
  apply fmap_sublist, sublist_filter.
Qed.

Lemma exportData_keys (data : gmap string jsval) key :
  key ∈ (exportData data).*1
  ↔ exported_key key = true ∧ is_Some (data !! key).
Proof.
  rewrite list_elem_of_fmap. split.
  - intros [[k v] [-> Hin]]. apply exportData_elem in Hin as [? ?]. eauto.
  - intros [Hk [v Hv]]. exists (key, v). split; [done|].
    by apply exportData_elem.
Qed.

Lemma includes_dot key :
  JsString.includes key "." = true ↔ site_key key.
Proof.
  unfold site_key. induction key as [|c key IH].
  - split; [done|]. by intros ([|? ?] & b & ?).
  - cbn [JsString.includes String.prefix]. split.
    + destruct (ascii_dec "." c) as [<-|Hc].
      * intros _. by exists "", key.
      * cbn [orb]. intros (a & b & ->)%IH. by exists (String c a), b.
    + intros ([|c' a] & b & Heq); injection Heq as -> ->.
      * destruct (ascii_dec "." "."); [by destruct b|done].
      * apply orb_true_iff. right. apply IH. eauto.
Qed.

Lemma exported_key_backed_up key :
  exported_key key = true ↔ backed_up key.
Proof.
  unfold exported_key, backed_up, global_key.
  rewrite orb_true_iff, includes_dot, bool_decide_eq_true.
  rewrite !elem_of_cons, elem_of_nil. tauto.
Qed.

Lemma exported_key_not_backed_up key :
  exported_key key = false ↔ ¬ backed_up key.
Proof.
  rewrite <- exported_key_backed_up. by destruct (exported_key key).
Qed.

(** C6.  Exporting a store that holds a site record or a global key,
    and importing the downloaded document, on a platform whose JSON
    codec reads back the objects it writes and whose store accepts the
    write: every key with a dot and
    each of the keys [uiFont], [theme] and [extensionLanguage] is in
    the importing store afterwards, with the value it had in the
    exported store; every other key is left as the importing store had
    it; the export itself changes nothing in the store it reads, and
    imported into the store it came from, the document changes
    nothing. *)
Theorem C6_export_import_round_trip pg w pg2 w2 :
  sync_get_error P = None →
  (∃ key, backed_up key ∧ is_Some (sync w !! key)) →
  codec_reads_back P (sync w) →
  (∀ items, sync_set_error P (sync w2) items = None) →
  let exported := snd (handleExportSettings P pg w) in
  ∃ document,
    last_download (trace exported) = Some document
    ∧ sync exported = sync w
    ∧ let imported := snd (handleImportSettings P (Some document) pg2 w2) in
      (∀ a b value,
          sync w !! (a +:+ "." +:+ b) = Some value →
          sync imported !! (a +:+ "." +:+ b) = Some value)
      ∧ (∀ key value,
          key = "uiFont" ∨ key = "theme" ∨ key = "extensionLanguage" →
          sync w !! key = Some value →
          sync imported !! key = Some value)
      ∧ (∀ key,
          ¬ backed_up key ∨ sync w !! key = None →
          sync imported !! key = sync w2 !! key)
      ∧ (sync w2 = sync w → sync imported = sync w).
Proof.
  intros Hget (key0 & Hkey0 & value0 & Hvalue0) Hreads Hset. cbn zeta.
  assert (Hcodec :
    JSON_parse P (JSON_stringify P (VObj (exportData (sync w))))
    = Normal (VObj (exportData (sync w)))).
  { apply Hreads. split; [apply exportData_NoDup|].
    intros key value Hin. by apply exportData_elem in Hin as [_ ?]. }
  unfold handleExportSettings. rewrite Hget.
  destruct (length (exportData (sync w)) =? 0) eqn:Hlen.
  { apply Nat.eqb_eq, length_zero_iff_nil in Hlen.
    assert (Hin : (key0, value0) ∈ exportData (sync w)).
    { apply exportData_elem. by rewrite exported_key_backed_up. }
    rewrite Hlen in Hin. by apply elem_of_nil in Hin. }
  cbn [snd emit trace sync].
  exists (JSON_stringify P (VObj (exportData (sync w)))).
  split.
  { unfold last_download. rewrite omap_app. cbn. by rewrite last_snoc. }
  split; [done|].
  unfold handleImportSettings. rewrite Hcodec.
  unfold storageArea_set, storage_sync_set. rewrite Hset.
  cbn [snd emit sync].
  assert (Hitem : ∀ key value,
    backed_up key → sync w !! key = Some value →
    store_merge (exportData (sync w)) (sync w2) !! key = Some value).
  { intros key value Hk Hv. apply store_merge_lookup_item.
    - apply exportData_NoDup.
    - apply exportData_elem. by rewrite exported_key_backed_up. }
  assert (Hother : ∀ key,
    ¬ backed_up key ∨ sync w !! key = None →
    store_merge (exportData (sync w)) (sync w2) !! key = sync w2 !! key).
  { intros key Hk. apply store_merge_lookup_other.
    rewrite exportData_keys, exported_key_backed_up. intros [Hk1 [v Hv]].
    destruct Hk; [done|congruence]. }
  split; [|split; [|split; [done|]]].
  - intros a b value. apply Hitem. left. by exists a, b.
  - intros key value Hk. apply Hitem. by right.
  - intros Heq. apply map_eq. intros key. rewrite Heq in *.
    destruct (exported_key key) eqn:Hk.
    + apply exported_key_backed_up in Hk.
      destruct (sync w !! key) as [v|] eqn:Hv.
      * by rewrite (Hitem key v Hk Hv).
      * rewrite Hother by auto. done.
    + apply exported_key_not_backed_up in Hk. rewrite Hother by auto. done.
Qed.

Lemma includes_cons c s sub :
  JsString.includes (String c s) sub = false → JsString.includes s sub = false.
Proof. simpl. intros H. by apply orb_false_iff in H as [_ H]. Qed.

Lemma getSubstitution_plain matched before after repl :
  JsString.includes repl "$" = false →
  JsString.getSubstitution matched before after repl = repl.
Proof.
  induction repl as [|c r IH]; intros Hplain; [reflexivity|].
  pose proof (includes_cons _ _ _ Hplain) as Hr.
  simpl in Hplain. apply orb_false_iff in Hplain as [Hc _].
  simpl. destruct (Ascii.eqb c "$") eqn:Heq.
  - apply Ascii.eqb_eq in Heq. subst c.
    destruct (Ascii.ascii_dec "$" "$"); [by destruct r|done].
  - by rewrite IH.
Qed.

Lemma getSubstitution_app matched before after plain repl :
  JsString.includes plain "$" = false →
  JsString.getSubstitution matched before after (plain +:+ repl)
  = plain +:+ JsString.getSubstitution matched before after repl.
Proof.
  induction plain as [|c r IH]; intros Hplain; [reflexivity|].
  pose proof (includes_cons _ _ _ Hplain) as Hr.
  simpl in Hplain. apply orb_false_iff in Hplain as [Hc _].
  change (String c r +:+ repl) with (String c (r +:+ repl)).
  cbn [JsString.getSubstitution].
  destruct (Ascii.eqb c "$") eqn:Heq.
  - apply Ascii.eqb_eq in Heq. subst c.
    destruct (Ascii.ascii_dec "$" "$"); [by destruct r|done].
  - rewrite IH by done. reflexivity.
Qed.

Lemma import_parse_error_status text message pg w shown :
  JSON_parse P text = Throw message →
  importStatusMessageElement pg = Some shown →
  handleImportSettings P (Some text) pg w
  = (Page (Some (JsString.replace
                   (getLocalizedText pg "importErrorMessage" "importErrorMessage")
                   "$ERROR$" message,
                 "status-message visible error"))
          (currentTranslations pg) None,
     w).
Proof.
  intros Hparse Hel. unfold handleImportSettings. rewrite Hparse.
  unfold displayStatusMessage. rewrite Hel. reflexivity.
Qed.

(** X16.  When the chosen document does not parse as JSON the import is
    abandoned: the store is left as it was and nothing is added to the
    trace (no [set] call, no reload); a message without a dollar is
    shown as it is, at the place of the placeholder of the localized
    import-error text. *)
Lemma import_parse_error_keeps_store text message pg w :
  JSON_parse P text = Throw message →
  let pg' := fst (handleImportSettings P (Some text) pg w) in
  let w' := snd (handleImportSettings P (Some text) pg w) in
  w' = w
  ∧ (∀ shown before after,
       importStatusMessageElement pg = Some shown →
       JsString.split_at_first "$ERROR$"
         (getLocalizedText pg "importErrorMessage" "importErrorMessage")
       = Some (before, after) →
       JsString.includes message "$" = false →
       importStatusMessageElement pg'
       = Some (before +:+ message +:+ after, "status-message visible error")).
Proof.
  intros Hparse. cbn zeta. split.
  { unfold handleImportSettings. by rewrite Hparse. }
  intros shown before after Hel Hsplit Hplain.
  rewrite (import_parse_error_status _ _ _ _ _ Hparse Hel). cbn [fst].
  unfold JsString.replace. rewrite Hsplit.
  by rewrite getSubstitution_plain.
Qed.

(** C7.  When the chosen document does not parse as JSON the import is
    abandoned and the store is left as it was, as claimed; but the
    message of the parse error is not always the text shown.  The
    status line is built by [replace], which reads the message as a
    replacement pattern: where the message has [$&] (parsers quote the
    offending text of the document in their message) the status line
    has the placeholder [$ERROR$] instead, so the message is not
    interpolated as it is. *)
Theorem C7_dollar_pattern_in_message_is_expanded
    text m1 m2 pg w shown before after :
  JSON_parse P text = Throw (m1 +:+ "$&" +:+ m2) →
  JsString.includes m1 "$" = false →
  JsString.includes m2 "$" = false →
  importStatusMessageElement pg = Some shown →
  JsString.split_at_first "$ERROR$"
    (getLocalizedText pg "importErrorMessage" "importErrorMessage")
  = Some (before, after) →
  let pg' := fst (handleImportSettings P (Some text) pg w) in
  let w' := snd (handleImportSettings P (Some text) pg w) in
  w' = w
  ∧ importStatusMessageElement pg'
    = Some (before +:+ (m1 +:+ "$ERROR$" +:+ m2) +:+ after,
            "status-message visible error").
Proof.
  intros Hparse Hm1 Hm2 Hel Hsplit. cbn zeta.
  rewrite (import_parse_error_status _ _ _ _ _ Hparse Hel). cbn [fst snd].
  split; [done|].
  unfold JsString.replace. rewrite Hsplit.
  rewrite getSubstitution_app by done.
  change ("$&" +:+ m2) with (String "$" (String "&" m2)).
  cbn [JsString.getSubstitution]. cbn [Ascii.eqb Bool.eqb].
  rewrite getSubstitution_plain by done.
  reflexivity.
Qed.

End ExportImport.

(** ** The Style Injector: what an apply leaves alone *)

Section ContentFrame.
Import Dom Content Props.

Variable randomSuffix : nat → string.

Lemma same_control_refl st : same_control st st.
Proof. by split. Qed.

Lemma same_control_trans st1 st2 st3 :
  same_control st1 st2 → same_control st2 st3 → same_control st1 st3.
Proof. intros [] []. split; congruence. Qed.

Lemma keeps_ret {A} (a : A) : keeps_control (ret a).
Proof. intros st. apply same_control_refl. Qed.

Lemma keeps_throw {A} e : keeps_control (@throw A e).
Proof. intros st. apply same_control_refl. Qed.

Lemma keeps_read {A} (f : state → A) : keeps_control (read f).
Proof. intros st. apply same_control_refl. Qed.

Lemma keeps_bind {A B} (m : M A) (f : A → M B) :
  keeps_control m → (∀ a, keeps_control (f a)) → keeps_control (bind m f).
Proof.
  intros Hm Hf st. unfold bind. specialize (Hm st).
  destruct (m st) as [st' [a|e]]; cbn [fst] in *; [|done].
  eapply same_control_trans; [done|]. apply Hf.
Qed.

Lemma keeps_update f :
  (∀ st, same_control st (f st)) → keeps_control (update f).
Proof. intros Hf st. apply Hf. Qed.

Lemma keeps_forEach {A} (l : list A) (f : A → M unit) :
  (∀ a, keeps_control (f a)) → keeps_control (forEach l f).
Proof.
  intros Hf. induction l as [|x l IH]; cbn [forEach].
  - apply keeps_ret.
  - apply keeps_bind; [apply Hf|done].
Qed.

Lemma keeps_createElement tag i attrs :
  keeps_control (createElement tag i attrs).
Proof. intros st. by split. Qed.

Lemma keeps_with_html html : ∀ st, same_control st (with_html html st).
Proof. by split. Qed.

Lemma keeps_with_sessionStore s : ∀ st, same_control st (with_sessionStore s st).
Proof. by split. Qed.

Lemma keeps_with_randomCalls n : ∀ st, same_control st (with_randomCalls n st).
Proof. by split. Qed.

Ltac keeps :=
  repeat first
    [ apply keeps_ret | apply keeps_throw | apply keeps_read
    | apply keeps_createElement
    | apply keeps_forEach; intros ?
    | apply keeps_bind; [|intros ?]
    | apply keeps_update; intros ?;
      first [apply keeps_with_html | apply keeps_with_sessionStore
            | apply keeps_with_randomCalls]
    | match goal with
      | |- keeps_control (match ?x with _ => _ end) => destruct x
      | |- keeps_control (if ?b then _ else _) => destruct b
      | |- keeps_control (let _ := _ in _) => cbn zeta
      end ].

Lemma keeps_loadGoogleFont fontName fontWeight :
  keeps_control (loadGoogleFont fontName fontWeight).
Proof.
  unfold loadGoogleFont, sessionStore_remove. keeps.
Qed.

Lemma keeps_applyStylesToRoot root t :
  keeps_control (applyStylesToRoot randomSuffix root t).
Proof.
  unfold applyStylesToRoot. keeps.
Qed.

Lemma keeps_set_dir_on k v : keeps_control (set_dir_on k v).
Proof. unfold set_dir_on. keeps. Qed.

Lemma keeps_remove_dir_on k : keeps_control (remove_dir_on k).
Proof. unfold remove_dir_on. keeps. Qed.

(** An apply records its tuple as the current one, logs the call and
    touches no timer, whether it completes or throws. *)
Lemma applyPageStyles_control t st :
  let st' := fst (applyPageStyles randomSuffix t st) in
  currentApplied st' = t
  ∧ applyCalls st' = applyCalls st ++ [t]
  ∧ timers st' = timers st
  ∧ mutationDebounceTimeout st' = mutationDebounceTimeout st
  ∧ nextTimerId st' = nextTimerId st
  ∧ now st' = now st
  ∧ observer st' = observer st
  ∧ hostname st' = hostname st.
Proof.
  cbn zeta. unfold applyPageStyles.
  set (rest := bind (loadGoogleFont _ _) _).
  assert (Hrest : keeps_control rest).
  { unfold rest.
    pose proof keeps_loadGoogleFont. pose proof keeps_applyStylesToRoot.
    pose proof keeps_set_dir_on. pose proof keeps_remove_dir_on.
    repeat first
      [ done | apply keeps_ret | apply keeps_read
      | apply keeps_forEach; intros ?
      | apply keeps_bind; [|intros ?]
      | apply keeps_update; intros ?; apply keeps_with_html
      | match goal with
        | |- keeps_control (match ?x with _ => _ end) => destruct x
        | |- keeps_control (if ?b then _ else _) => destruct b
        | |- keeps_control (let _ := _ in _) => cbn zeta
        end ]. }
  unfold bind at 1. unfold update at 1.
  destruct (Hrest (with_applyCalls (applyCalls st ++ [t])
                     (with_currentApplied t st))) as [].
  cbn in *. repeat split; congruence.
Qed.

End ContentFrame.

(** ** Debounced re-application (C8, C9) *)

Section Debounce.
Import Dom Content Props.

Variable randomSuffix : nat → string.

Local Abbreviation fire_due := (Content.fire_due randomSuffix).
Local Abbreviation advance := (Content.advance randomSuffix).
Local Abbreviation deliver_mutations := (Content.deliver_mutations randomSuffix).
Local Abbreviation deliver_burst := (Content.deliver_burst randomSuffix).

Lemma run_timer_idle st :
  any_truthy (currentApplied st) = false → Content.run_timer randomSuffix st = st.
Proof.
  intros Hidle. unfold Content.run_timer, debounced_reapply, bind, read.
  rewrite Hidle. cbn [ret]. unfold deliver_records.
  rewrite bool_decide_eq_true_2 by done. by rewrite andb_false_r.
Qed.

Lemma fire_due_none fuel t st :
  timers st = [] → fire_due fuel t st = st.
Proof. intros Htim. destruct fuel; [done|]. cbn. by rewrite Htim. Qed.

Lemma fire_due_not_due fuel t st i d :
  timers st = [(i, d)] → t < d → fire_due fuel t st = st.
Proof.
  intros Htim Hlt. destruct fuel; [done|]. cbn. rewrite Htim. cbn.
  assert (Hd : (d <=? t) = false) by (apply Nat.leb_gt; lia).
  by rewrite Hd.
Qed.

Lemma fire_due_idle fuel t st :
  any_truthy (currentApplied st) = false →
  idle_like st (fire_due fuel t st).
Proof.
  revert st. induction fuel as [|fuel IH]; intros st Hidle; [done|].
  cbn [Content.fire_due].
  destruct (earliest (timers st)) as [[i d]|]; [|done].
  destruct (d <=? t); [|done].
  rewrite run_timer_idle by done.
  match goal with |- idle_like _ (fire_due _ _ ?s) =>
    specialize (IH s Hidle); destruct IH as (?&?&?&?&?&?) end.
  repeat split; cbn in *; congruence.
Qed.

Lemma advance_idle t st :
  any_truthy (currentApplied st) = false → idle_like st (advance t st).
Proof.
  intros Hidle. unfold Content.advance.
  destruct (fire_due_idle (length (timers st) + t) t st Hidle) as (?&?&?&?&?&?).
  repeat split; cbn; congruence.
Qed.

Lemma deliver_mutations_idle t st :
  any_truthy (currentApplied st) = false → idle_like st (deliver_mutations t st).
Proof.
  intros Hidle. unfold Content.deliver_mutations.
  destruct (advance_idle t st Hidle) as (?&?&?&?&?&?).
  unfold handleMutations, update.
  destruct (observer _); cbn [fst]; repeat split;
    cbn [doc sessionStore applyCalls currentApplied console randomCalls
         with_timers]; congruence.
Qed.

Lemma deliver_burst_idle times st :
  any_truthy (currentApplied st) = false → idle_like st (deliver_burst times st).
Proof.
  revert st. induction times as [|t times IH]; intros st Hidle; [done|].
  unfold Content.deliver_burst. cbn [foldl].
  destruct (deliver_mutations_idle t st Hidle) as (?&?&?&Hc&?&?).
  assert (Hidle' : any_truthy (currentApplied (deliver_mutations t st)) = false)
    by (by rewrite Hc).
  destruct (IH _ Hidle') as (?&?&?&?&?&?).
  unfold Content.deliver_burst in *.
  repeat split; congruence.
Qed.

(** C9.  A stored record whose seven override values are all empty is
    handled at page load exactly as a missing record: both leave the
    same state, in which nothing was applied, the page is untouched and
    no override is current; from that state no burst of mutations and
    no passing of time re-applies anything. *)
Theorem C9_empty_record_is_no_record st (stored missing : gmap string jsval) record :
  stored !! hostname st = Some record →
  any_truthy (tuple_of record) = false →
  missing !! hostname st = None →
  let loaded := fst (loadAndApplyInitialStyles randomSuffix (Normal stored) st) in
  loaded = fst (loadAndApplyInitialStyles randomSuffix (Normal missing) st)
  ∧ doc loaded = doc st
  ∧ applyCalls loaded = applyCalls st
  ∧ currentApplied loaded = null_tuple
  ∧ ∀ times T,
      let later := advance T (deliver_burst times loaded) in
      applyCalls later = applyCalls st ∧ doc later = doc st.
Proof.
  intros Hstored Hempty Hmissing. cbn zeta.
  unfold loadAndApplyInitialStyles, bind, read.
  rewrite Hstored, Hmissing. cbn [default truthy andb]. unfold id.
  rewrite Hempty, andb_false_r. cbn.
  split_and!; [done..|].
  intros times T.
  match goal with |- context [deliver_burst times ?s] => set (loaded := s) end.
  assert (Hidle : any_truthy (currentApplied loaded) = false) by done.
  destruct (deliver_burst_idle times loaded Hidle) as (Hd&?&Ha&Hc&?&?).
  assert (Hidle' : any_truthy (currentApplied (deliver_burst times loaded)) = false)
    by (by rewrite Hc).
  destruct (advance_idle T _ Hidle') as (Hd'&?&Ha'&?&?&?).
  unfold Content.advance in Ha', Hd'.
  cbn [applyCalls doc with_now] in Ha', Hd'.
  split; [by rewrite Ha', Ha | by rewrite Hd', Hd].
Qed.

Lemma deliver_first st t :
  observer st = true → timers st = [] → now st ≤ t →
  armed st (deliver_mutations t st) t.
Proof.
  intros Hobs Htim Hnow.
  unfold Content.deliver_mutations, Content.advance.
  rewrite fire_due_none by done.
  cbn [observer with_now]. rewrite Hobs.
  cbn. rewrite Htim.
  assert (Hmax : now st `max` t = t) by lia. rewrite Hmax.
  unfold armed.
  cbn [observer applyCalls currentApplied now timers
       mutationDebounceTimeout with_timers with_now].
  split_and!; [|done..].
  exists (nextTimerId st). split; [|done].
  by destruct (mutationDebounceTimeout st).
Qed.

Lemma deliver_next st0 st t t' :
  armed st0 st t → t ≤ t' → t' < t + 300 →
  armed st0 (deliver_mutations t' st) t'.
Proof.
  intros ((id & Htim & Hto) & Hcalls & Hcur & Hobs & Hnow) Hle Hlt.
  unfold Content.deliver_mutations, Content.advance.
  rewrite (fire_due_not_due _ _ _ id (t + 300)) by done.
  cbn [observer with_now]. rewrite Hobs.
  cbn. rewrite Htim, Hto, Hnow.
  assert (Hmax : t `max` t' = t') by lia. rewrite Hmax.
  cbn. rewrite decide_False by (cbn; tauto).
  unfold armed.
  cbn [observer applyCalls currentApplied now timers
       mutationDebounceTimeout with_timers with_now].
  split_and!; [|done..]. eauto.
Qed.

Lemma last_nonempty_default (a : nat) l d1 d2 :
  List.last (a :: l) d1 = List.last (a :: l) d2.
Proof.
  revert a. induction l as [|b l IH]; intros a; [done|].
  change (List.last (a :: b :: l) d1) with (List.last (b :: l) d1).
  change (List.last (a :: b :: l) d2) with (List.last (b :: l) d2).
  apply IH.
Qed.

Lemma last_time_cons t t' later :
  last_time t (t' :: later) = last_time t' later.
Proof.
  unfold last_time. destruct later as [|a later]; [done|].
  change (List.last (t' :: a :: later) t) with (List.last (a :: later) t).
  apply last_nonempty_default.
Qed.

Lemma deliver_burst_armed st0 st t later :
  armed st0 st t → within_window t later →
  armed st0 (deliver_burst later st) (last_time t later).
Proof.
  revert st t. induction later as [|t' later IH]; intros st t Harm Hwin; [done|].
  destruct Hwin as (Hle & Hlt & Hwin).
  unfold Content.deliver_burst. cbn [foldl].
  pose proof (deliver_next st0 st t t' Harm Hle Hlt) as Hnext.
  specialize (IH _ _ Hnext Hwin).
  by rewrite last_time_cons.
Qed.

Lemma advance_armed_early st0 st t T :
  armed st0 st t → T < t + 300 →
  applyCalls (advance T st) = applyCalls st0
  ∧ timers (advance T st) = timers st.
Proof.
  intros ((id & Htim & Hto) & Hcalls & Hcur & Hobs & Hnow) Hlt.
  unfold Content.advance.
  rewrite (fire_due_not_due _ _ _ id (t + 300)) by done.
  cbn. done.
Qed.

(** The timer of a burst fires once its 300 ms have passed: the
    current tuple is re-applied, once; if the re-apply wrote to the
    observed child lists, its records start the next timer, due 300 ms
    later. *)
Lemma advance_armed_due st0 st t T :
  armed st0 st t → any_truthy (currentApplied st0) = true →
  t + 300 ≤ T → T < t + 600 →
  applyCalls (advance T st) = applyCalls st0 ++ [currentApplied st0]
  ∧ (timers (advance T st) = []
     ∨ ∃ id, timers (advance T st) = [(id, t + 600)]).
Proof.
  intros ((id & Htim & Hto) & Hcalls & Hcur & Hobs & Hnow) Htruthy Hle Hlt.
  unfold Content.advance. rewrite Htim.
  cbn [length Nat.add Content.fire_due]. rewrite Htim. cbn [earliest].
  assert (Hd : (t + 300 <=? T) = true) by (apply Nat.leb_le; lia).
  rewrite Hd.
  assert (Hf : filter (λ p : nat * nat, p.1 ≠ id) [(id, t + 300)] = []).
  { cbn. by rewrite decide_False by (cbn; tauto). }
  rewrite Hf, Hnow.
  assert (Hmax : t `max` (t + 300) = t + 300) by lia. rewrite Hmax.
  set (st1 := with_now (t + 300) (with_timers _ [] _ st)).
  assert (Hrun :
    applyCalls (Content.run_timer randomSuffix st1)
    = applyCalls st0 ++ [currentApplied st0]
    ∧ (timers (Content.run_timer randomSuffix st1) = []
       ∨ ∃ id', timers (Content.run_timer randomSuffix st1) = [(id', t + 600)])).
  { unfold Content.run_timer, debounced_reapply, bind, read.
    change (currentApplied st1) with (currentApplied st).
    rewrite Hcur, Htruthy.
    pose proof (applyPageStyles_control randomSuffix (currentApplied st0) st1)
      as (_ & Ha & Ht & Hmdt & Hid & Hn & _ & _).
    cbn [applyCalls timers now nextTimerId mutationDebounceTimeout
         with_now with_timers st1] in Hmdt, Hn, Ht, Hid, Ha.
    set (applied := match applyPageStyles _ _ st1 with
                    | (st', Normal _) => st'
                    | (st', Throw e) =>
                        with_console
                          (console st' ++ [ConsoleError ("Uncaught " +:+ e)]) st'
                    end).
    assert (Happlied : applyCalls applied = applyCalls st0 ++ [currentApplied st0]
              ∧ timers applied = [] ∧ now applied = t + 300
              ∧ mutationDebounceTimeout applied = Some id).
    { unfold applied.
      destruct (applyPageStyles _ _ st1) as [st' [[]|e]]; cbn [fst] in *;
        cbn [applyCalls timers now mutationDebounceTimeout with_console];
        rewrite Ha, Ht, Hn, Hmdt, Hcalls, Hto; done. }
    destruct Happlied as (Hac & Htc & Hnc & Hmc).
    unfold deliver_records.
    destruct (observer applied && _); cbn [fst].
    - unfold handleMutations, update.
      cbn [fst applyCalls timers with_timers]. rewrite Hac, Htc, Hnc, Hmc.
      split; [done|]. right. eexists. cbn.
      replace (t + 300 + 300) with (t + 600) by lia. done.
    - split; [done|]. by left. }
  destruct Hrun as [Hcalls' Htimers'].
  assert (Hstop : fire_due T T (Content.run_timer randomSuffix st1)
                  = Content.run_timer randomSuffix st1).
  { destruct Htimers' as [Hnone|[id' Hsome]].
    - by apply fire_due_none.
    - by apply (fire_due_not_due _ _ _ id' (t + 600)). }
  rewrite Hstop. cbn [applyCalls timers with_now]. done.
Qed.

(** X15.  A burst of batches of mutations, each arriving less than 300 ms
    after the one before, causes no re-apply while it lasts nor during the
    300 ms after its last batch, and one re-apply, with the tuple last
    applied, when those 300 ms have passed.  The writes of that re-apply to
    the observed child lists count as mutations: if there are any, the next
    timer is pending. *)
Lemma burst_reapplies_once_after_quiet st first later :
  observer st = true →
  timers st = [] →
  now st ≤ first →
  any_truthy (currentApplied st) = true →
  within_window first later →
  let burst := deliver_burst (first :: later) st in
  let quiet := last_time first later + 300 in
  (∀ T, T < quiet → applyCalls (advance T burst) = applyCalls st)
  ∧ (∀ T, quiet ≤ T → T < quiet + 300 →
       applyCalls (advance T burst) = applyCalls st ++ [currentApplied st]
       ∧ (timers (advance T burst) = []
          ∨ ∃ id, timers (advance T burst) = [(id, quiet + 300)])).
Proof.
  intros Hobs Htim Hnow Htruthy Hwin. cbn zeta.
  pose proof (deliver_first st first Hobs Htim Hnow) as Harm.
  pose proof (deliver_burst_armed st _ first later Harm Hwin) as Hburst.
  change (deliver_burst (first :: later) st)
    with (deliver_burst later (deliver_mutations first st)).
  split.
  - intros T HT. by apply (advance_armed_early st _ _ T Hburst).
  - intros T HT HT'.
    replace (last_time first later + 300 + 300)
      with (last_time first later + 600) by lia.
    apply (advance_armed_due st _ _ T Hburst); [done|lia|lia].
Qed.

End Debounce.

(** ** Decimal text of numbers *)

Section Decimal.
Import Popup Props.

Lemma nat_of_digit_char d :
  (d < 10)%N → nat_of_ascii (digit_char d) = 48 + N.to_nat d.
Proof.
  intros Hd. unfold digit_char. apply nat_ascii_embedding. lia.
Qed.

Lemma is_digit_digit_char d :
  (d < 10)%N → JsString.is_digit (digit_char d) = true.
Proof.
  intros Hd. unfold JsString.is_digit. rewrite nat_of_digit_char by done.
  apply andb_true_iff; split; apply Nat.leb_le; lia.
Qed.

Local Opaque digit_char JsString.is_digit.

Lemma all_digits_app s1 s2 :
  all_digits (s1 +:+ s2) = all_digits s1 && all_digits s2.
Proof.
  induction s1 as [|c s1 IH]; simpl; [done|]. by rewrite IH, andb_assoc.
Qed.

Lemma all_digits_nat_digits_fuel fuel n :
  all_digits (nat_digits_fuel fuel n) = true.
Proof.
  revert n. induction fuel as [|fuel IH]; intros n; simpl.
  - rewrite is_digit_digit_char; [done|]. apply N.mod_lt. lia.
  - destruct (n <? 10)%N eqn:Hn.
    + simpl. rewrite is_digit_digit_char; [done|]. by apply N.ltb_lt.
    + rewrite all_digits_app, IH. simpl.
      rewrite is_digit_digit_char; [done|]. apply N.mod_lt. lia.
Qed.

Lemma nat_digits_fuel_nonempty fuel n : nat_digits_fuel fuel n ≠ "".
Proof.
  destruct fuel as [|fuel]; simpl; [done|].
  destruct (n <? 10)%N; [done|].
  destruct (nat_digits_fuel fuel (n / 10)); done.
Qed.

Lemma span_digits_app s rest :
  all_digits s = true →
  match rest with
  | String c _ => JsString.is_digit c = false
  | EmptyString => True
  end →
  span_digits (s +:+ rest) = (s, rest).
Proof.
  intros Hs Hrest. induction s as [|c s IH]; simpl in *.
  - destruct rest as [|c r]; [done|]. simpl. by rewrite Hrest.
  - apply andb_true_iff in Hs as [Hc Hs]. by rewrite Hc, IH.
Qed.

Lemma digits_value_acc_app acc s1 s2 :
  digits_value_acc acc (s1 +:+ s2)
  = digits_value_acc (digits_value_acc acc s1) s2.
Proof. revert acc. induction s1 as [|c s1 IH]; intros acc; simpl; [done|]. apply IH. Qed.

Lemma digits_value_acc_digit acc d :
  (d < 10)%N →
  digits_value_acc acc (String (digit_char d) "") = (acc * 10 + d)%N.
Proof.
  intros Hd. cbn [digits_value_acc]. rewrite nat_of_digit_char by done.
  f_equal. lia.
Qed.

Lemma digits_value_nat_digits_fuel fuel n :
  (N.log2 n <= N.of_nat fuel)%N →
  digits_value_acc 0 (nat_digits_fuel fuel n) = n.
Proof.
  revert n. induction fuel as [|fuel IH]; intros n Hlog.
  - assert (Hn : (n < 2)%N).
    { destruct (N.lt_ge_cases n 2) as [|Hge]; [done|].
      apply N.log2_le_mono in Hge. rewrite N.log2_2 in Hge; lia. }
    cbn [nat_digits_fuel].
    rewrite digits_value_acc_digit by (apply N.mod_lt; lia).
    rewrite N.mod_small by lia. lia.
  - cbn [nat_digits_fuel]. destruct (n <? 10)%N eqn:Hn.
    + apply N.ltb_lt in Hn. rewrite digits_value_acc_digit by done. lia.
    + apply N.ltb_ge in Hn.
      rewrite digits_value_acc_app, IH.
      * rewrite digits_value_acc_digit by (apply N.mod_lt; lia).
        pose proof (N.div_mod n 10). lia.
      * assert (Hhalf : (n / 10 <= n / 2)%N).
        { apply N.div_le_compat_l. lia. }
        apply N.log2_le_mono in Hhalf.
        rewrite <- N.div2_div, N.div2_spec, N.log2_shiftr in Hhalf. lia.
Qed.

Lemma digits_value_nat_digits n : digits_value (nat_digits n) = n.
Proof.
  unfold digits_value, nat_digits. apply digits_value_nat_digits_fuel. lia.
Qed.

End Decimal.

Section ParseFixed.
Import Popup Props.

Lemma span_digits_all s : all_digits s = true → span_digits s = (s, "").
Proof.
  intros Hs. induction s as [|c s IH]; simpl in *; [done|].
  apply andb_true_iff in Hs as [Hc Hs]. by rewrite Hc, IH.
Qed.

Lemma prefix_cons_ne a s1 b s2 :
  a ≠ b → String.prefix (String a s1) (String b s2) = false.
Proof. intros Hne. simpl. by destruct (Ascii.ascii_dec a b). Qed.

Lemma parse_magnitude_fixed neg ip fp :
  all_digits ip = true → ip ≠ "" → all_digits fp = true →
  parse_magnitude neg (ip +:+ "." +:+ fp)
  = Fin (let magnitude :=
           (inject_Z (Z.of_N (digits_value (ip +:+ fp)))
            * Qpower 10 (0 - Z.of_nat (String.length fp)))%Q in
         if neg then (- magnitude)%Q else magnitude).
Proof.
  intros Hip Hne Hfp. unfold parse_magnitude.
  assert (Hinf : String.prefix "Infinity" (ip +:+ "." +:+ fp) = false).
  { destruct ip as [|c r]; [by destruct Hne|].
    cbn [all_digits] in Hip. apply andb_true_iff in Hip as [Hc _].
    change (String c r +:+ "." +:+ fp) with (String c (r +:+ "." +:+ fp)).
    apply prefix_cons_ne. intros <-. vm_compute in Hc. done. }
  rewrite Hinf.
  rewrite (span_digits_app ip ("." +:+ fp) Hip) by (by vm_compute).
  change ("." +:+ fp) with (String "." fp). cbn iota.
  rewrite Ascii.eqb_refl.
  rewrite (span_digits_all fp) by done.
  assert (Hip' : String.eqb ip "" = false) by (by apply String.eqb_neq).
  rewrite Hip'. cbn [andb]. reflexivity.
Qed.

Lemma hundredths_nonneg q : (0 <= hundredths q)%Z.
Proof.
  unfold hundredths.
  change 0%Z with (Qfloor 0). apply Qfloor_resp_le.
  pose proof (Qabs_nonneg q) as Habs.
  assert (0 <= Qabs q * 100)%Q by (apply Qmult_le_0_compat; done).
  assert (0 <= 1 # 2)%Q by done.
  pose proof (Qplus_le_compat _ _ _ _ H H0) as Hs.
  by rewrite Qplus_0_l in Hs.
Qed.

Lemma two_digits_all n : (0 <= n)%Z → all_digits (two_digits n) = true.
Proof.
  intros Hn. unfold two_digits. cbn [all_digits].
  rewrite !is_digit_digit_char; [done| |].
  - pose proof (Z.mod_pos_bound n 10). lia.
  - pose proof (Z.mod_pos_bound (n / 10) 10). lia.
Qed.

Lemma digits_value_fixed n :
  (0 <= n)%Z →
  Z.of_N (digits_value (nat_digits (Z.to_N (n / 100)) +:+ two_digits n)) = n.
Proof.
  intros Hn. unfold digits_value.
  rewrite digits_value_acc_app.
  fold (digits_value (nat_digits (Z.to_N (n / 100)))).
  rewrite digits_value_nat_digits.
  unfold two_digits.
  change (String ?a (String ?b "")) with (String a "" +:+ String b "").
  rewrite digits_value_acc_app.
  pose proof (Z.mod_pos_bound n 10 ltac:(lia)).
  pose proof (Z.mod_pos_bound (n / 10) 10 ltac:(lia)).
  rewrite !digits_value_acc_digit by lia.
  assert (Hdd : (n / 10 / 10 = n / 100)%Z)
    by (rewrite Z.div_div by lia; reflexivity).
  pose proof (Z.div_mod n 10 ltac:(lia)).
  pose proof (Z.div_mod (n / 10) 10 ltac:(lia)).
  assert (0 <= n / 100)%Z by (apply Z.div_pos; lia).
  rewrite !N2Z.inj_add, !N2Z.inj_mul, !Z2N.id by lia.
  rewrite Hdd in *.
  set (a := (n / 100)%Z) in *. set (b := ((n / 10) mod 10)%Z) in *.
  set (c := (n mod 10)%Z) in *. set (d := (n / 10)%Z) in *.
  change (Z.of_N 10) with 10%Z. lia.
Qed.

Lemma parseFloat_toFixed2 q : parseFloat (toFixed2 (Fin q)) = Fin (fixed2 q).
Proof.
  unfold toFixed2, fixed2.
  pose proof (hundredths_nonneg q) as Hn.
  set (n := hundredths q) in *.
  pose proof (all_digits_nat_digits_fuel
                (N.to_nat (N.log2 (Z.to_N (n / 100)))) (Z.to_N (n / 100))) as Hall.
  pose proof (nat_digits_fuel_nonempty
                (N.to_nat (N.log2 (Z.to_N (n / 100)))) (Z.to_N (n / 100))) as Hne.
  fold (nat_digits (Z.to_N (n / 100))) in Hall, Hne.
  pose proof (parse_magnitude_fixed true _ _ Hall Hne (two_digits_all n Hn)) as Hneg.
  pose proof (parse_magnitude_fixed false _ _ Hall Hne (two_digits_all n Hn)) as Hpos.
  rewrite digits_value_fixed in Hneg, Hpos by done.
  change (String.length (two_digits n)) with 2 in *.
  unfold parseFloat.
  destruct (Qlt_le_dec q 0).
  - change ("-" +:+ ?x) with (String "-"%char x).
    cbn [JsString.trimStart].
    change (JsString.is_space "-") with false. cbn iota.
    rewrite Ascii.eqb_refl. exact Hneg.
  - change ("" +:+ ?x) with x.
    destruct (nat_digits (Z.to_N (n / 100))) as [|c r] eqn:Hd; [done|].
    cbn [all_digits] in Hall. apply andb_true_iff in Hall as [Hc Hr].
    change (String c r +:+ ?x) with (String c (r +:+ x)) in *.
    cbn [JsString.trimStart].
    assert (Hsp : JsString.is_space c = false).
    { destruct (JsString.is_space c) eqn:E; [|done].
      revert Hc E. clear. unfold JsString.is_digit, JsString.is_space.
      intros Hc E. apply andb_true_iff in Hc as [H1 H2].
      apply Nat.leb_le in H1.
      apply orb_true_iff in E as [E|E].
      - apply andb_true_iff in E as [_ E]. apply Nat.leb_le in E. lia.
      - apply Nat.eqb_eq in E. lia. }
    rewrite Hsp.
    assert (Hm : Ascii.eqb c "-" = false).
    { apply Ascii.eqb_neq. intros ->. vm_compute in Hc. done. }
    assert (Hp : Ascii.eqb c "+" = false).
    { apply Ascii.eqb_neq. intros ->. vm_compute in Hc. done. }
    rewrite Hm, Hp. exact Hpos.
Qed.

End ParseFixed.

Section PrintParse.
Import Popup Props.

Lemma no_space_app s1 s2 : no_space (s1 +:+ s2) = no_space s1 && no_space s2.
Proof.
  induction s1 as [|c s1 IH]; simpl; [done|]. by rewrite IH, andb_assoc.
Qed.

Lemma is_digit_not_space c :
  JsString.is_digit c = true → JsString.is_space c = false.
Proof.
  unfold JsString.is_digit, JsString.is_space. intros Hc.
  apply andb_true_iff in Hc as [H1 H2]. apply Nat.leb_le in H1.
  apply orb_false_iff; split.
  - apply andb_false_iff. right. apply Nat.leb_gt. lia.
  - apply Nat.eqb_neq. lia.
Qed.

Lemma all_digits_no_space s : all_digits s = true → no_space s = true.
Proof.
  induction s as [|c s IH]; simpl; [done|]. intros Hs.
  apply andb_true_iff in Hs as [Hc Hs].
  by rewrite (is_digit_not_space c Hc), IH.
Qed.

Lemma trimEnd_no_space s : no_space s = true → JsString.trimEnd s = s.
Proof.
  induction s as [|c s IH]; simpl; [done|]. intros Hs.
  apply andb_true_iff in Hs as [Hc Hs]. rewrite IH by done.
  apply negb_true_iff in Hc. rewrite Hc. by destruct s.
Qed.

Lemma trim_no_space s : no_space s = true → JsString.trim s = s.
Proof.
  intros Hs. unfold JsString.trim.
  assert (Hst : JsString.trimStart s = s).
  { destruct s as [|c s]; [done|]. simpl in *.
    apply andb_true_iff in Hs as [Hc _]. apply negb_true_iff in Hc.
    by rewrite Hc. }
  rewrite Hst. by apply trimEnd_no_space.
Qed.

(** The fraction digits of a number of hundredths. *)
Lemma frac_digits_hundredths r :
  (0 <= r < 100)%Z →
  all_digits (frac_digits 20 r 100) = true
  ∧ (Z.of_N (digits_value (frac_digits 20 r 100))
     * 10 ^ (2 - Z.of_nat (String.length (frac_digits 20 r 100))) = r)%Z
  ∧ String.length (frac_digits 20 r 100) ≤ 2.
Proof.
  intros Hr. cbn [frac_digits].
  destruct (r =? 0)%Z eqn:H0.
  { apply Z.eqb_eq in H0. subst. cbn. split_and!; [done|done|lia]. }
  apply Z.eqb_neq in H0.
  assert (Hd1 : (0 <= r * 10 / 100 < 10)%Z).
  { split; [apply Z.div_pos; lia|]. apply Z.div_lt_upper_bound; lia. }
  pose proof (Z.div_mod (r * 10) 100 ltac:(lia)) as Hdm.
  pose proof (Z.mod_pos_bound (r * 10) 100 ltac:(lia)) as Hb.
  set (r2 := ((r * 10) mod 100)%Z) in *.
  set (d1 := (r * 10 / 100)%Z) in *.
  destruct (r2 =? 0)%Z eqn:H2.
  { apply Z.eqb_eq in H2.
    assert (Heq : ascii_of_nat (48 + Z.to_nat d1) = digit_char (Z.to_N d1)).
    { unfold digit_char. f_equal. lia. }
    rewrite Heq. cbn [all_digits String.length].
    rewrite is_digit_digit_char by lia.
    unfold digits_value. rewrite digits_value_acc_digit by lia.
    split; [done|]. split; [|lia].
    change (2 - Z.of_nat 1)%Z with 1%Z. lia. }
  apply Z.eqb_neq in H2.
  assert (Hd2 : (0 <= r2 * 10 / 100 < 10)%Z).
  { split; [apply Z.div_pos; lia|]. apply Z.div_lt_upper_bound; lia. }
  pose proof (Z.div_mod (r2 * 10) 100 ltac:(lia)) as Hdm2.
  pose proof (Z.mod_pos_bound (r2 * 10) 100 ltac:(lia)) as Hb2.
  assert (Hr3 : ((r2 * 10) mod 100 = 0)%Z).
  { assert (Hten : (r2 = 10 * (r mod 10))%Z).
    { unfold r2. replace (r * 10)%Z with (10 * r)%Z by lia.
      change 100%Z with (10 * 10)%Z.
      rewrite Z.mul_mod_distr_l by lia. done. }
    rewrite Hten. replace (10 * (r mod 10) * 10)%Z with ((r mod 10) * 100)%Z by lia.
    apply Z.mod_mul. lia. }
  rewrite Hr3. cbn [Z.eqb].
  set (d2 := (r2 * 10 / 100)%Z) in *.
  assert (Heq1 : ascii_of_nat (48 + Z.to_nat d1) = digit_char (Z.to_N d1)).
  { unfold digit_char. f_equal. lia. }
  assert (Heq2 : ascii_of_nat (48 + Z.to_nat d2) = digit_char (Z.to_N d2)).
  { unfold digit_char. f_equal. lia. }
  rewrite Heq1, Heq2. cbn [all_digits String.length].
  rewrite !is_digit_digit_char by lia.
  change (String ?a (String ?b "")) with (String a "" +:+ String b "").
  unfold digits_value. rewrite digits_value_acc_app.
  rewrite !digits_value_acc_digit by lia.
  split; [done|]. split; [|lia].
  change (2 - Z.of_nat 2)%Z with 0%Z. lia.
Qed.

Lemma parse_magnitude_decimal neg ip fp :
  all_digits ip = true → ip ≠ "" → all_digits fp = true →
  parse_magnitude neg (ip +:+ (if String.eqb fp "" then "" else "." +:+ fp))
  = Fin (let magnitude :=
           (inject_Z (Z.of_N (digits_value (ip +:+ fp)))
            * Qpower 10 (0 - Z.of_nat (String.length fp)))%Q in
         if neg then (- magnitude)%Q else magnitude).
Proof.
  intros Hip Hne Hfp. destruct (String.eqb fp "") eqn:Hfe.
  - apply String.eqb_eq in Hfe. subst fp. unfold parse_magnitude.
    assert (Hinf : String.prefix "Infinity" (ip +:+ "") = false).
    { destruct ip as [|c r]; [by destruct Hne|].
      cbn [all_digits] in Hip. apply andb_true_iff in Hip as [Hc _].
      change (String c r +:+ "") with (String c (r +:+ "")).
      apply prefix_cons_ne. intros <-. vm_compute in Hc. done. }
    rewrite Hinf. rewrite (span_digits_app ip "" Hip I).
    assert (Hip' : String.eqb ip "" = false) by (by apply String.eqb_neq).
    rewrite Hip'. reflexivity.
  - by apply parse_magnitude_fixed.
Qed.

Lemma parseFloat_signed (neg : bool) c r :
  JsString.is_digit c = true →
  parseFloat ((if neg then "-" else "") +:+ String c r)
  = parse_magnitude neg (String c r).
Proof.
  intros Hc. unfold parseFloat. destruct neg.
  - change ("-" +:+ ?x) with (String "-"%char x).
    cbn [JsString.trimStart].
    change (JsString.is_space "-") with false. cbn iota.
    by rewrite Ascii.eqb_refl.
  - change ("" +:+ ?x) with x. cbn [JsString.trimStart].
    rewrite (is_digit_not_space c Hc).
    assert (Hm : Ascii.eqb c "-" = false).
    { apply Ascii.eqb_neq. intros ->. vm_compute in Hc. done. }
    assert (Hp : Ascii.eqb c "+" = false).
    { apply Ascii.eqb_neq. intros ->. vm_compute in Hc. done. }
    by rewrite Hm, Hp.
Qed.

Lemma digits_value_acc_shift acc s :
  digits_value_acc acc s
  = (acc * 10 ^ N.of_nat (String.length s) + digits_value s)%N.
Proof.
  unfold digits_value. revert acc.
  induction s as [|c s IH]; intros acc.
  - cbn. lia.
  - cbn [digits_value_acc String.length].
    rewrite IH, (IH (0 * 10 + _)%N).
    rewrite Nat2N.inj_succ, N.pow_succ_r'. lia.
Qed.

(** Printing a number whose denominator is 100 and reading the text
    back gives the number again. *)
Lemma print_parse_hundredths n :
  ∃ q, parseFloat (JsString.trim (Number_toString (n # 100))) = Fin q
       ∧ (q == n # 100)%Q.
Proof.
  unfold Number_toString. cbn [Qnum Qden].
  set (a := Z.abs n).
  assert (Ha : (0 <= a)%Z) by (unfold a; lia).
  pose proof (Z.div_mod a 100 ltac:(lia)) as Hdm.
  pose proof (Z.mod_pos_bound a 100 ltac:(lia)) as Hb.
  destruct (frac_digits_hundredths (a mod 100) Hb) as (Hfd & Hfv & Hfl).
  set (fr := frac_digits 20 (a mod 100) 100) in *.
  set (ip := nat_digits (Z.to_N (a / 100))).
  assert (Hipd : all_digits ip = true) by apply all_digits_nat_digits_fuel.
  assert (Hipn : ip ≠ "") by apply nat_digits_fuel_nonempty.
  set (body := ip +:+ (if String.eqb fr "" then "" else "." +:+ fr)).
  assert (Hns : no_space ((if (n <? 0)%Z then "-" else "") +:+ body) = true).
  { rewrite no_space_app. unfold body. rewrite no_space_app.
    rewrite (all_digits_no_space ip Hipd).
    destruct (n <? 0)%Z; destruct (String.eqb fr ""); cbn [no_space andb];
      try done; change ("." +:+ fr) with (String "." fr);
      cbn [no_space]; by rewrite (all_digits_no_space fr Hfd). }
  rewrite trim_no_space by exact Hns.
  destruct ip as [|c r] eqn:Hip; [done|].
  assert (Hc : JsString.is_digit c = true).
  { cbn [all_digits] in Hipd. by apply andb_true_iff in Hipd as [? _]. }
  unfold body. change (String c r +:+ ?x) with (String c (r +:+ x)).
  rewrite (parseFloat_signed (n <? 0)%Z c _ Hc).
  change (String c (r +:+ ?x)) with (String c r +:+ x).
  rewrite parse_magnitude_decimal by done.
  eexists. split; [reflexivity|].
  assert (Hval : Z.of_N (digits_value (String c r +:+ fr))
                 = (a / 100 * 10 ^ Z.of_nat (String.length fr)
                    + Z.of_N (digits_value fr))%Z).
  { unfold digits_value at 1. rewrite digits_value_acc_app.
    fold (digits_value (String c r)). rewrite <- Hip.
    unfold ip. rewrite digits_value_nat_digits.
    rewrite digits_value_acc_shift.
    rewrite N2Z.inj_add, N2Z.inj_mul, N2Z.inj_pow, Z2N.id, nat_N_Z.
    - done.
    - apply Z.div_pos; lia. }
  rewrite Hval. clear Hval.
  set (fv := Z.of_N (digits_value fr)) in *.
  set (hi := (a / 100)%Z) in *. set (lo := (a mod 100)%Z) in *.
  assert (Hsign : (if (n <? 0)%Z then n = (- a)%Z else n = a)).
  { unfold a. destruct (n <? 0)%Z eqn:Hn;
      [apply Z.ltb_lt in Hn | apply Z.ltb_ge in Hn]; lia. }
  destruct (String.length fr) as [|[|[|len]]]; [| | |lia].
  - change (Qpower 10 (0 - Z.of_nat 0)) with 1%Q.
    change (10 ^ (2 - Z.of_nat 0))%Z with 100%Z in Hfv.
    change (10 ^ Z.of_nat 0)%Z with 1%Z.
    destruct (n <? 0)%Z; unfold Qeq; cbn [Qnum Qden Qopp Qmult inject_Z];
      lia.
  - change (Qpower 10 (0 - Z.of_nat 1)) with (1 # 10)%Q.
    change (10 ^ (2 - Z.of_nat 1))%Z with 10%Z in Hfv.
    change (10 ^ Z.of_nat 1)%Z with 10%Z.
    destruct (n <? 0)%Z; unfold Qeq; cbn [Qnum Qden Qopp Qmult inject_Z];
      lia.
  - change (Qpower 10 (0 - Z.of_nat 2)) with (1 # 100)%Q.
    change (10 ^ (2 - Z.of_nat 2))%Z with 1%Z in Hfv.
    change (10 ^ Z.of_nat 2)%Z with 100%Z.
    destruct (n <? 0)%Z; unfold Qeq; cbn [Qnum Qden Qopp Qmult inject_Z];
      lia.
Qed.

(** Printing an integer and reading the text back gives it again. *)
Lemma print_parse_integer n :
  ∃ q, parseFloat (JsString.trim (Number_toString (inject_Z n))) = Fin q
       ∧ (q == inject_Z n)%Q.
Proof.
  unfold Number_toString, inject_Z. cbn [Qnum Qden].
  set (a := Z.abs n).
  assert (Ha : (0 <= a)%Z) by (unfold a; lia).
  rewrite Z.mod_1_r, Z.div_1_r. cbn [frac_digits Z.eqb String.eqb].
  set (ip := nat_digits (Z.to_N a)).
  assert (Hipd : all_digits ip = true) by apply all_digits_nat_digits_fuel.
  assert (Hipn : ip ≠ "") by apply nat_digits_fuel_nonempty.
  assert (Hns : no_space ((if (n <? 0)%Z then "-" else "") +:+ ip +:+ "") = true).
  { rewrite !no_space_app, (all_digits_no_space ip Hipd).
    by destruct (n <? 0)%Z. }
  rewrite trim_no_space by exact Hns.
  destruct ip as [|c r] eqn:Hip; [done|].
  assert (Hc : JsString.is_digit c = true).
  { cbn [all_digits] in Hipd. by apply andb_true_iff in Hipd as [? _]. }
  change (String c r +:+ "") with (String c (r +:+ "")).
  rewrite (parseFloat_signed (n <? 0)%Z c _ Hc).
  change (String c (r +:+ "")) with
    (String c r +:+ (if String.eqb "" "" then "" else "." +:+ "")).
  rewrite parse_magnitude_decimal by done.
  eexists. split; [reflexivity|].
  assert (Hval : Z.of_N (digits_value (String c r +:+ "")) = a).
  { unfold digits_value. rewrite digits_value_acc_app.
    fold (digits_value (String c r)). rewrite <- Hip.
    unfold ip. rewrite digits_value_nat_digits. cbn. lia. }
  rewrite Hval.
  change (Qpower 10 (0 - Z.of_nat (String.length ""))) with 1%Q.
  destruct (n <? 0)%Z eqn:Hn;
    [apply Z.ltb_lt in Hn | apply Z.ltb_ge in Hn];
    unfold Qeq; cbn [Qnum Qden Qopp Qmult inject_Z]; unfold a; lia.
Qed.

End PrintParse.

(** ** Clamping on commit (C2) *)

Section Clamping.
Import Browser Popup Props.

Variable P : platform.

Lemma round_half_bounds (x : Q) (A B : Z) :
  (inject_Z A <= x)%Q → (x <= inject_Z B)%Q →
  (A <= Qfloor (x + (1 # 2)) <= B)%Z.
Proof.
  intros HA HB. split.
  - rewrite <- (Qfloor_Z A). apply Qfloor_resp_le. lra.
  - pose proof (Qfloor_le (x + (1 # 2))) as Hf.
    assert (Hlt : (inject_Z (Qfloor (x + (1 # 2))) < inject_Z (B + 1))%Q).
    { rewrite inject_Z_plus. change (inject_Z 1) with 1%Q. lra. }
    rewrite <- Zlt_Qlt in Hlt. lia.
Qed.

Lemma num_lt_Fin a b : num_lt (Fin a) (Fin b) = true ↔ (a < b)%Q.
Proof.
  unfold num_lt. rewrite Qlt_alt. destruct (a ?= b)%Q; split; done.
Qed.

Lemma min_le_max target :
  (cfg_min (numberInputConfig target) <= cfg_max (numberInputConfig target))%Q.
Proof. by destruct target. Qed.

(** The two comparisons of the listeners leave a finite number within
    the bounds. *)
Lemma clamp_within target x :
  isNaN x = false →
  let lo := cfg_min (numberInputConfig target) in
  let hi := cfg_max (numberInputConfig target) in
  let v1 := if num_lt x (Fin lo) then Fin lo else x in
  let v2 := if num_lt (Fin hi) v1 then Fin hi else v1 in
  ∃ q, v2 = Fin q ∧ (lo <= q)%Q ∧ (q <= hi)%Q
       ∧ (num_lt x (Fin lo) = true → v2 = Fin lo)
       ∧ (num_lt (Fin hi) x = true → v2 = Fin hi).
Proof.
  intros Hx. cbn zeta. pose proof (min_le_max target) as Hmm.
  set (lo := cfg_min _) in *. set (hi := cfg_max _) in *.
  destruct x as [|[]|a]; [done| | |].
  - change (num_lt (Infinity true) (Fin lo)) with true. cbn iota.
    change (num_lt (Fin hi) (Infinity true)) with false.
    destruct (num_lt (Fin hi) (Fin lo)) eqn:E.
    + apply num_lt_Fin in E. lra.
    + exists lo. split_and!; [done|lra|lra|done|done].
  - change (num_lt (Infinity false) (Fin lo)) with false. cbn iota.
    change (num_lt (Fin hi) (Infinity false)) with true. cbn iota.
    exists hi. split_and!; [done|lra|lra|done|done].
  - destruct (num_lt (Fin a) (Fin lo)) eqn:E1.
    + apply num_lt_Fin in E1.
      destruct (num_lt (Fin hi) (Fin lo)) eqn:E2.
      * apply num_lt_Fin in E2. lra.
      * exists lo. split_and!; [done|lra|lra|done|].
        intros E3. apply num_lt_Fin in E3. lra.
    + assert (Hge : (lo <= a)%Q).
      { destruct (Qlt_le_dec a lo) as [Hlt|]; [|done].
        apply num_lt_Fin in Hlt. congruence. }
      destruct (num_lt (Fin hi) (Fin a)) eqn:E2.
      * exists hi. split_and!; [done|lra|lra|done|done].
      * assert (Hle : (a <= hi)%Q).
        { destruct (Qlt_le_dec hi a) as [Hlt|]; [|done].
          apply num_lt_Fin in Hlt. congruence. }
        exists a. split_and!; [done|done|done|done|done].
Qed.

Lemma Number_toString_fixed2 q :
  Number_toString (fixed2 q)
  = Number_toString ((if Qlt_le_dec q 0 then - hundredths q else hundredths q)%Z # 100).
Proof.
  unfold fixed2, Number_toString.
  change (Qpower 10 (-2)) with (1 # 100)%Q.
  destruct (Qlt_le_dec q 0); cbn [Qnum Qden Qmult Qopp inject_Z];
    rewrite Z.mul_1_r; reflexivity.
Qed.

Lemma fixed2_value q :
  (fixed2 q == (if Qlt_le_dec q 0 then - hundredths q else hundredths q)%Z # 100)%Q.
Proof.
  unfold fixed2. change (Qpower 10 (-2)) with (1 # 100)%Q.
  destruct (Qlt_le_dec q 0); unfold Qeq;
    cbn [Qnum Qden Qmult Qopp inject_Z]; lia.
Qed.

(** Rounding to two decimals keeps a number between two bounds that
    are themselves multiples of a hundredth. *)
Lemma fixed2_bounds q (A B : Z) :
  (A # 100 <= q)%Q → (q <= B # 100)%Q →
  (A <= (if Qlt_le_dec q 0 then - hundredths q else hundredths q) <= B)%Z.
Proof.
  intros HA HB. unfold hundredths.
  assert (HA' : (inject_Z A <= q * 100)%Q).
  { unfold Qle in *. cbn [Qnum Qden Qmult inject_Z] in *. lia. }
  assert (HB' : (q * 100 <= inject_Z B)%Q).
  { unfold Qle in *. cbn [Qnum Qden Qmult inject_Z] in *. lia. }
  destruct (Qlt_le_dec q 0) as [Hneg|Hpos].
  - rewrite Qabs_neg by lra.
    destruct (round_half_bounds (- q * 100) (- B) (- A)) as [H1 H2].
    + rewrite inject_Z_opp. lra.
    + rewrite inject_Z_opp. lra.
    + lia.
  - rewrite Qabs_pos by done.
    by apply round_half_bounds.
Qed.

(** What [clamp_round] returns for a number that is not NaN. *)
Lemma clamp_round_number target x :
  isNaN x = false →
  ∃ q, parseFloat (JsString.trim (num_toString (clamp_round target x))) = Fin q
       ∧ within_bounds target q ∧ rounded target q.
Proof.
  intros Hx.
  destruct (clamp_within target x Hx) as (q & Hv & Hlo & Hhi & _).
  cbn zeta in Hv. unfold clamp_round. rewrite Hv.
  destruct target.
  - cbn [Math_round num_toString].
    destruct (print_parse_integer (Qfloor (q + (1 # 2)))) as (q' & Hp & Hq).
    exists q'. split; [done|].
    cbn [numberInputConfig cfg_min cfg_max] in Hlo, Hhi.
    destruct (round_half_bounds q 8 72) as [H1 H2]; [done..|].
    split; [|by eexists].
    unfold within_bounds. cbn [numberInputConfig cfg_min cfg_max].
    rewrite Hq. split; [change 8%Q with (inject_Z 8)|change 72%Q with (inject_Z 72)];
      by rewrite <- Zle_Qle.
  - rewrite parseFloat_toFixed2. cbn [num_toString].
    rewrite Number_toString_fixed2.
    set (n := (if Qlt_le_dec q 0 then - hundredths q else hundredths q)%Z).
    destruct (print_parse_hundredths n) as (q' & Hp & Hq).
    exists q'. split; [done|]. split; [|by eexists].
    cbn [numberInputConfig cfg_min cfg_max] in Hlo, Hhi.
    destruct (fixed2_bounds q 80 300) as [H1 H2]; [lra..|]. fold n in H1, H2.
    unfold within_bounds. cbn [numberInputConfig cfg_min cfg_max].
    rewrite Hq. unfold Qle. cbn [Qnum Qden]. lia.
  - rewrite parseFloat_toFixed2. cbn [num_toString].
    rewrite Number_toString_fixed2.
    set (n := (if Qlt_le_dec q 0 then - hundredths q else hundredths q)%Z).
    destruct (print_parse_hundredths n) as (q' & Hp & Hq).
    exists q'. split; [done|]. split; [|by eexists].
    cbn [numberInputConfig cfg_min cfg_max] in Hlo, Hhi.
    destruct (fixed2_bounds q (-500) 1000) as [H1 H2]; [lra..|]. fold n in H1, H2.
    unfold within_bounds. cbn [numberInputConfig cfg_min cfg_max].
    rewrite Hq. unfold Qle. cbn [Qnum Qden]. lia.
  - rewrite parseFloat_toFixed2. cbn [num_toString].
    rewrite Number_toString_fixed2.
    set (n := (if Qlt_le_dec q 0 then - hundredths q else hundredths q)%Z).
    destruct (print_parse_hundredths n) as (q' & Hp & Hq).
    exists q'. split; [done|]. split; [|by eexists].
    cbn [numberInputConfig cfg_min cfg_max] in Hlo, Hhi.
    destruct (fixed2_bounds q (-1000) 3000) as [H1 H2]; [lra..|]. fold n in H1, H2.
    unfold within_bounds. cbn [numberInputConfig cfg_min cfg_max].
    rewrite Hq. unfold Qle. cbn [Qnum Qden]. lia.
Qed.

Lemma clamp_round_acceptable target x :
  isNaN x = false →
  acceptable target (JsString.trim (num_toString (clamp_round target x))).
Proof. intros Hx. right. by apply clamp_round_number. Qed.

Lemma stored_field_after_save w hostname id u target :
  usable_tab P w hostname id →
  stored_field (save P (getCurrentUISettings u) w) hostname target
  = VStr (JsString.trim (input_value target u)).
Proof.
  intros Hus. rewrite (saveAndApplySettings_usable P w hostname id _ Hus).
  unfold stored_field. cbn [sync]. rewrite lookup_insert_eq.
  by destruct target.
Qed.

(** C2, as the code has it.  The value the popup stores for a number
    control when the control is committed (its [change] event) is empty
    or reads as a number within the bounds of the control, rounded to
    an integer for the font size and to two decimals otherwise; a text
    that is empty or not a number is stored as empty, a number below
    the minimum is stored as the minimum and a number above the maximum
    as the maximum. *)
Theorem C2_commit_stores_clamped target u w hostname id :
  usable_tab P w hostname id →
  let text := JsString.trim (input_value target u) in
  let config := numberInputConfig target in
  let w' := snd (handle P (ChangeEvent target) u w) in
  ∃ stored,
    stored_field w' hostname target = VStr stored
    ∧ acceptable target stored
    ∧ (isNaN (parseFloat text) = true ∨ text = "" → stored = "")
    ∧ (text ≠ "" → num_lt (parseFloat text) (Fin (cfg_min config)) = true →
       stored = Number_toString (cfg_min config))
    ∧ (text ≠ "" → num_lt (Fin (cfg_max config)) (parseFloat text) = true →
       stored = Number_toString (cfg_max config)).
Proof.
  intros Hus. cbn zeta. cbn [handle]. unfold number_change. cbn [snd].
  rewrite (stored_field_after_save w hostname id _ target Hus).
  set (text := JsString.trim (input_value target u)).
  destruct (isNaN (parseFloat text) || String.eqb text "") eqn:Hempty.
  - rewrite input_value_set.
    assert (Hd : cfg_default (numberInputConfig target) = "") by (by destruct target).
    rewrite Hd. exists "". split; [done|]. split; [by left|].
    split; [done|].
    apply orb_true_iff in Hempty as [Hn|He].
    + destruct (parseFloat text); try done.
    + apply String.eqb_eq in He. split; intros Hne; by destruct Hne.
  - apply orb_false_iff in Hempty as [Hn He]. apply String.eqb_neq in He.
    rewrite input_value_set.
    eexists. split; [reflexivity|].
    split; [by apply clamp_round_acceptable|].
    split; [intros [Hn'|He']; congruence|].
    destruct (clamp_within target (parseFloat text) Hn)
      as (q & Hv & Hlo & Hhi & Hbelow & Habove).
    cbn zeta in Hv, Hbelow, Habove.
    split; intros _ Hlt.
    + unfold clamp_round. rewrite (Hbelow Hlt).
      destruct target; vm_compute; reflexivity.
    + unfold clamp_round. rewrite (Habove Hlt).
      destruct target; vm_compute; reflexivity.
Qed.

End Clamping.

(** ** Trees of nodes *)

Section Trees.
Import Dom Props.

Lemma node_induction (P : node → Prop) :
  (∀ d, P (Text d)) →
  (∀ k t i a cs sh,
     Forall P cs → Forall P (default [] sh) → P (Elem k t i a cs sh)) →
  ∀ n, P n.
Proof.
  intros HT HE. fix IH 1. intros [d|k t i a cs sh]; [apply HT|].
  apply HE.
  - induction cs as [|c cs IHcs]; constructor; [apply IH | exact IHcs].
  - destruct sh as [ss|]; [|constructor].
    induction ss as [|c ss IHss]; constructor; [apply IH | exact IHss].
Qed.

Lemma elem_of_flat_map {A B} (f : A → list B) (l : list A) (x : B) :
  x ∈ flat_map f l ↔ ∃ y, y ∈ l ∧ x ∈ f y.
Proof.
  rewrite list_elem_of_In, in_flat_map. split.
  - intros (y & Hy & Hx). exists y. by rewrite !list_elem_of_In.
  - intros (y & Hy & Hx). exists y. by rewrite <- !list_elem_of_In.
Qed.

Lemma flat_map_ext_Forall {A B} (f g : A → list B) (l : list A) :
  Forall (λ x, f x = g x) l → flat_map f l = flat_map g l.
Proof. induction 1 as [|x l Hx _ IH]; [done|]. cbn. by rewrite Hx, IH. Qed.

Lemma shadow_flat_map {B} (f : node → list B) (sh : option (list node)) :
  match sh with Some ss => flat_map f ss | None => [] end
  = flat_map f (default [] sh).
Proof. by destruct sh. Qed.

Lemma all_elements_Elem e k t i a cs sh :
  e ∈ all_elements (Elem k t i a cs sh) ↔
  e = Elem k t i a cs sh
  ∨ (∃ c, c ∈ cs ∧ e ∈ all_elements c)
  ∨ (∃ c, c ∈ default [] sh ∧ e ∈ all_elements c).
Proof.
  cbn [all_elements]. rewrite shadow_flat_map, elem_of_cons, elem_of_app.
  by rewrite !elem_of_flat_map.
Qed.

Lemma subtree_elements_Elem e k t i a cs sh :
  e ∈ subtree_elements (Elem k t i a cs sh) ↔
  e = Elem k t i a cs sh ∨ (∃ c, c ∈ cs ∧ e ∈ subtree_elements c).
Proof. cbn [subtree_elements]. by rewrite elem_of_cons, elem_of_flat_map. Qed.

Lemma keys_Elem x k t i a cs sh :
  x ∈ keys (Elem k t i a cs sh) ↔
  x = k ∨ (∃ c, c ∈ cs ∧ x ∈ keys c) ∨ (∃ c, c ∈ default [] sh ∧ x ∈ keys c).
Proof.
  cbn [keys]. rewrite shadow_flat_map, elem_of_cons, elem_of_app.
  by rewrite !elem_of_flat_map.
Qed.

Lemma all_elements_is_element n e : e ∈ all_elements n → is_element e = true.
Proof.
  revert e. induction n as [d|k t i a cs sh IHc IHs] using node_induction;
    intros e He.
  - by apply elem_of_nil in He.
  - apply all_elements_Elem in He as [->|[(c & Hc & He)|(c & Hc & He)]].
    + done.
    + rewrite Forall_forall in IHc. eauto.
    + rewrite Forall_forall in IHs. eauto.
Qed.

Lemma all_elements_self n : is_element n = true → n ∈ all_elements n.
Proof. destruct n; [done|]. intros _. apply all_elements_Elem. by left. Qed.

Lemma all_elements_trans n e c :
  e ∈ all_elements n → c ∈ all_elements e → c ∈ all_elements n.
Proof.
  revert e c. induction n as [d|k t i a cs sh IHc IHs] using node_induction;
    intros e c He Hc.
  - by apply elem_of_nil in He.
  - rewrite Forall_forall in IHc, IHs.
    apply all_elements_Elem in He as [->|[(x & Hx & He)|(x & Hx & He)]].
    + done.
    + apply all_elements_Elem. right; left. eauto.
    + apply all_elements_Elem. right; right. eauto.
Qed.

Lemma subtree_elements_all n e : e ∈ subtree_elements n → e ∈ all_elements n.
Proof.
  revert e. induction n as [d|k t i a cs sh IHc _] using node_induction;
    intros e He.
  - by apply elem_of_nil in He.
  - rewrite Forall_forall in IHc.
    apply subtree_elements_Elem in He as [->|(x & Hx & He)].
    + by apply all_elements_self.
    + apply all_elements_Elem. right; left. eauto.
Qed.

Lemma child_all_elements e c :
  c ∈ childNodes_of e → is_element c = true → c ∈ all_elements e.
Proof.
  destruct e as [d|k t i a cs sh]; cbn; [by intros ?%elem_of_nil|].
  intros Hc Hel. apply all_elements_Elem. right; left.
  exists c. split; [done|]. by apply all_elements_self.
Qed.

Lemma shadow_all_elements e ss x :
  shadowRoot_of e = Some ss → x ∈ querySelectorAll_star ss →
  x ∈ all_elements e.
Proof.
  destruct e as [d|k t i a cs sh]; cbn; [done|]. intros ->.
  unfold querySelectorAll_star. rewrite elem_of_flat_map.
  intros (c & Hc & Hx). apply all_elements_Elem. right; right.
  exists c. split; [done|]. by apply subtree_elements_all.
Qed.

Lemma keys_all_elements n : keys n = omap key_of (all_elements n).
Proof.
  induction n as [d|k t i a cs sh IHc IHs] using node_induction; [done|].
  cbn [keys all_elements omap key_of list_omap]. f_equal.
  rewrite omap_app, !shadow_flat_map. f_equal.
  - clear IHs. induction IHc as [|c cs' Hc _ IH]; [done|].
    cbn. by rewrite omap_app, Hc, IH.
  - clear IHc. induction IHs as [|c cs' Hc _ IH]; [done|].
    cbn. by rewrite omap_app, Hc, IH.
Qed.

Lemma keys_spec n k :
  k ∈ keys n ↔ ∃ e, e ∈ all_elements n ∧ key_of e = Some k.
Proof. rewrite keys_all_elements, list_elem_of_omap. naive_solver. Qed.

Lemma NoDup_omap_inj {A B} (f : A → option B) (l : list A) x y b :
  NoDup (omap f l) → x ∈ l → y ∈ l → f x = Some b → f y = Some b → x = y.
Proof.
  induction l as [|z l IH]; [by intros _ ?%elem_of_nil|].
  cbn. intros Hnd Hx Hy Hfx Hfy.
  apply elem_of_cons in Hx as [->|Hx]; apply elem_of_cons in Hy as [->|Hy].
  - done.
  - rewrite Hfx in Hnd. apply NoDup_cons in Hnd as [Hnot _].
    destruct Hnot. apply list_elem_of_omap. eauto.
  - rewrite Hfy in Hnd. apply NoDup_cons in Hnd as [Hnot _].
    destruct Hnot. apply list_elem_of_omap. eauto.
  - apply IH; try done. destruct (f z); [by apply NoDup_cons in Hnd as [_ ?]|done].
Qed.

Lemma key_unique n e1 e2 k :
  NoDup (keys n) → e1 ∈ all_elements n → e2 ∈ all_elements n →
  key_of e1 = Some k → key_of e2 = Some k → e1 = e2.
Proof. rewrite keys_all_elements. apply NoDup_omap_inj. Qed.

Lemma key_of_element e : is_element e = true → ∃ k, key_of e = Some k.
Proof. destruct e; [done|]. eauto. Qed.

Lemma leaf_elements e :
  is_element e = true → leaf e = true → all_elements e = [e].
Proof.
  destruct e as [d|k t i a cs sh]; [done|]. intros _.
  unfold leaf. cbn. rewrite andb_true_iff. intros [Hcs Hsh].
  destruct sh; [done|]. f_equal. rewrite app_nil_r.
  induction cs as [|c cs IH]; [done|]. cbn in Hcs.
  apply andb_true_iff in Hcs as [Hc Hcs]. cbn. rewrite (IH Hcs).
  destruct c; [done|discriminate].
Qed.

Lemma leaf_subtree e :
  is_element e = true → leaf e = true → subtree_elements e = [e].
Proof.
  destruct e as [d|k t i a cs sh]; [done|]. intros _.
  unfold leaf. cbn. rewrite andb_true_iff. intros [Hcs _]. f_equal.
  induction cs as [|c cs IH]; [done|]. cbn in Hcs.
  apply andb_true_iff in Hcs as [Hc Hcs]. cbn. rewrite (IH Hcs).
  destruct c; [done|discriminate].
Qed.

Lemma leaf_keys e k : key_of e = Some k → leaf e = true → keys e = [k].
Proof.
  intros Hk Hl. rewrite keys_all_elements, leaf_elements; [|by destruct e|done].
  cbn. by rewrite Hk.
Qed.

Lemma leaf_not_host e : leaf e = true → is_host e = false.
Proof.
  unfold leaf, is_host. rewrite andb_true_iff. intros [_ H].
  by destruct (shadowRoot_of e).
Qed.

Lemma leaf_children_text cs :
  forallb (λ c, negb (is_element c)) cs = true →
  Forall (λ c, is_element c = false) cs.
Proof.
  induction cs as [|c cs IH]; cbn; [done|].
  rewrite andb_true_iff, negb_true_iff. intros [? ?]. constructor; auto.
Qed.

Lemma Forall2_elem_of_l {A B} (R : A → B → Prop) l l' x :
  Forall2 R l l' → x ∈ l → ∃ y, y ∈ l' ∧ R x y.
Proof.
  induction 1 as [|a b l l' Hab _ IH]; [by intros ?%elem_of_nil|].
  intros [->|Hx]%elem_of_cons.
  - exists b. split; [left|done].
  - destruct (IH Hx) as (y & Hy & HR). exists y. split; [by right|done].
Qed.

Lemma Forall2_same_text {R : node → node → Prop} (cs cs' : list node) :
  (∀ c c', R c c' → is_element c = false → c' = c) →
  Forall2 R cs cs' → Forall (λ c, is_element c = false) cs → cs' = cs.
Proof.
  intros HR. induction 1 as [|c c' cs cs' Hc _ IH]; [done|].
  intros [Hel Hcs]%Forall_cons. f_equal; auto.
Qed.

End Trees.

(** ** Edits that keep the shadow hosts of a page *)

Section Evolution.
Import Dom Props.

Variable G : node → Prop.
Variable dir : string.
Hypothesis G_leaf : ∀ s, G s → leaf s = true.
Hypothesis G_attrs :
  ∀ k t i a a' cs sh, G (Elem k t i a cs sh) → G (Elem k t i a' cs sh).

Local Abbreviation evolves := (evolves G dir).
Local Abbreviation host_kept := (host_kept G dir).

Lemma host_kept_refl e : is_host e = true → host_kept e e.
Proof. by repeat split. Qed.

Lemma host_kept_trans e1 e2 e3 :
  host_kept e1 e2 → host_kept e2 e3 → host_kept e1 e3.
Proof.
  intros (Hk & _ & Hs & Hd) (Hk' & Hh' & Hs' & Hd').
  repeat split; [congruence|done|auto|auto].
Qed.

Lemma evolves_refl n : evolves n n.
Proof.
  split; [done|eauto|]. intros e He Hh. exists e. split; [done|].
  by apply host_kept_refl.
Qed.

Lemma evolves_trans n1 n2 n3 : evolves n1 n2 → evolves n2 n3 → evolves n1 n3.
Proof.
  intros [Ht Hl Hh] [Ht' Hl' Hh']. split.
  - intros Hel. specialize (Ht Hel). subst n2. auto.
  - intros s Hs HG. destruct (Hl s Hs HG) as (s' & Hs' & HG'). eauto.
  - intros e He Hhost. destruct (Hh e He Hhost) as (e' & He' & Hk).
    destruct (Hh' e' He') as (e'' & He'' & Hk'); [apply Hk|].
    exists e''. split; [done|]. by eapply host_kept_trans.
Qed.

Lemma evolves_Elem k t i a a' cs cs' sh sh' :
  Forall2 evolves cs cs' →
  option_Forall2 (Forall2 evolves) sh sh' →
  (attr_get "dir" a = Some dir → attr_get "dir" a' = Some dir) →
  evolves (Elem k t i a cs sh) (Elem k t i a' cs' sh').
Proof using G_leaf G_attrs.
  intros Hcs Hsh Ha. split.
  - done.
  - intros s [->|(c & Hc & Hs)]%subtree_elements_Elem HG.
    + pose proof (G_leaf _ HG) as Hleaf. unfold leaf in Hleaf. cbn in Hleaf.
      apply andb_true_iff in Hleaf as [Htext Hnone].
      destruct sh; [done|]. inversion Hsh; subst.
      assert (cs' = cs) as ->.
      { eapply Forall2_same_text; [|exact Hcs|by apply leaf_children_text].
        intros c c' [Hc _ _] Hel. auto. }
      eexists. split; [apply subtree_elements_Elem; by left|]. eauto.
    + destruct (Forall2_elem_of_l _ _ _ _ Hcs Hc) as (c' & Hc' & Hev).
      destruct (ev_light _ _ _ _ Hev s Hs HG) as (s' & Hs' & HG').
      exists s'. split; [|done]. apply subtree_elements_Elem. eauto.
  - intros e [->|[(c & Hc & He)|(c & Hc & He)]]%all_elements_Elem Hhost.
    + eexists. split; [apply all_elements_Elem; by left|].
      unfold is_host in Hhost. cbn in Hhost. destruct sh as [ss|]; [|done].
      inversion Hsh as [? ss' Hss|]; subst.
      repeat split; [|done].
      intros (ss0 & s & [= <-] & Hs & HG). unfold querySelectorAll_star in Hs.
      apply elem_of_flat_map in Hs as (c & Hc & Hs).
      destruct (Forall2_elem_of_l _ _ _ _ Hss Hc) as (c' & Hc' & Hev).
      destruct (ev_light _ _ _ _ Hev s Hs HG) as (s' & Hs' & HG').
      exists ss', s'. repeat split; [|done].
      apply elem_of_flat_map. eauto.
    + destruct (Forall2_elem_of_l _ _ _ _ Hcs Hc) as (c' & Hc' & Hev).
      destruct (ev_hosts _ _ _ _ Hev e He Hhost) as (e' & He' & Hk).
      exists e'. split; [|done]. apply all_elements_Elem. eauto.
    + destruct sh as [ss|]; [|by apply elem_of_nil in Hc].
      inversion Hsh as [? ss' Hss|]; subst. cbn in Hc.
      destruct (Forall2_elem_of_l _ _ _ _ Hss Hc) as (c' & Hc' & Hev).
      destruct (ev_hosts _ _ _ _ Hev e He Hhost) as (e' & He' & Hk).
      exists e'. split; [|done]. apply all_elements_Elem. right; right. eauto.
Qed.

Lemma evolves_map (f : node → node) (l : list node) :
  Forall (λ c, evolves c (f c)) l → Forall2 evolves l (map f l).
Proof. induction 1; constructor; auto. Qed.

Lemma evolves_modify k F n :
  (∀ c, c ∈ all_elements n → key_of c = Some k → evolves c (F c)) →
  evolves n (modify k F n).
Proof using G_leaf G_attrs.
  induction n as [d|k' t i a cs sh IHc IHs] using node_induction; intros HF.
  - apply evolves_refl.
  - cbn [modify]. destruct (k' =? k) eqn:Hk.
    + apply Nat.eqb_eq in Hk as ->. apply HF; [|done].
      apply all_elements_Elem. by left.
    + apply evolves_Elem; [| |done].
      * apply evolves_map. rewrite Forall_forall in IHc |- *.
        intros c Hc. apply IHc; [done|]. intros x Hx. apply HF.
        apply all_elements_Elem. right; left. eauto.
      * destruct sh as [ss|]; constructor.
        apply evolves_map. cbn in IHs. rewrite Forall_forall in IHs |- *.
        intros c Hc. apply IHs; [done|]. intros x Hx. apply HF.
        apply all_elements_Elem. right; right. eauto.
Qed.

(** Edits of one element *)

Lemma evolves_leaf c c' :
  is_element c = true → leaf c = true → is_element c' = true →
  (G c → G c') → evolves c c'.
Proof.
  intros Hel Hleaf Hel' HG. split.
  - by rewrite Hel.
  - rewrite (leaf_subtree _ Hel Hleaf). intros s ->%list_elem_of_singleton Hs.
    exists c'. split; [|auto]. destruct c'; [done|].
    apply subtree_elements_Elem. by left.
  - rewrite (leaf_elements _ Hel Hleaf). intros s ->%list_elem_of_singleton Hs.
    by rewrite (leaf_not_host _ Hleaf) in Hs.
Qed.

Lemma evolves_setAttribute c : evolves c (setAttribute "dir" dir c).
Proof using G_leaf G_attrs.
  destruct c as [d|k t i a cs sh]; [apply evolves_refl|]. cbn.
  apply evolves_Elem.
  - apply Forall_Forall2_diag, Forall_forall. intros; apply evolves_refl.
  - destruct sh; constructor.
    apply Forall_Forall2_diag, Forall_forall. intros; apply evolves_refl.
  - intros _. clear. induction a as [|[n v] a IH]; cbn.
    + done.
    + destruct (String.eqb n "dir") eqn:Hn; cbn; rewrite Hn; [done|apply IH].
Qed.

Lemma evolves_children c cs' :
  ¬ G c → (∀ y, y ∈ childNodes_of c → y ∈ cs') →
  evolves c (set_childNodes cs' c).
Proof.
  destruct c as [d|k t i a cs sh]; [intros; apply evolves_refl|].
  cbn. intros HnG Hsub. split.
  - done.
  - intros s [->|(c & Hc & Hs)]%subtree_elements_Elem HG; [done|].
    exists s. split; [|done]. apply subtree_elements_Elem. eauto.
  - intros e [->|[(c & Hc & He)|(c & Hc & He)]]%all_elements_Elem Hhost.
    + eexists. split; [apply all_elements_Elem; by left|].
      by repeat split.
    + exists e. split; [|by apply host_kept_refl].
      apply all_elements_Elem. right; left. eauto.
    + exists e. split; [|by apply host_kept_refl].
      apply all_elements_Elem. right; right. eauto.
Qed.

Lemma evolves_insertBefore shadow x c :
  (shadow = false → ¬ G c) →
  evolves c (Content.insertBefore_firstChild shadow x c).
Proof using G_leaf.
  unfold Content.insertBefore_firstChild. destruct shadow.
  - intros _. destruct c as [d|k t i a cs [ss|]]; cbn; try apply evolves_refl.
    split.
    + done.
    + intros s [->|(c & Hc & Hs)]%subtree_elements_Elem HG.
      * apply G_leaf in HG. unfold leaf in HG. cbn in HG.
        by rewrite andb_false_r in HG.
      * exists s. split; [|done]. apply subtree_elements_Elem. eauto.
    + intros e [->|[(c & Hc & He)|(c & Hc & He)]]%all_elements_Elem Hhost.
      * eexists. split; [apply all_elements_Elem; by left|].
        repeat split; [|done].
        intros (ss0 & s & [= <-] & Hs & HG). exists (x :: ss), s.
        repeat split; [|done]. unfold querySelectorAll_star in *. cbn.
        apply elem_of_app. by right.
      * exists e. split; [|by apply host_kept_refl].
        apply all_elements_Elem. right; left. eauto.
      * exists e. split; [|by apply host_kept_refl].
        apply all_elements_Elem. right; right. exists c.
        split; [by right|done].
  - intros HnG. apply evolves_children; [auto|]. intros y Hy. by right.
Qed.

Lemma remove_text k (cs : list node) :
  Forall (λ c, is_element c = false) cs →
  filter (λ c, has_key k c = false) (map (remove k) cs) = cs.
Proof.
  induction 1 as [|c cs Hc _ IH]; [done|].
  destruct c; [|done]. cbn [map remove].
  rewrite filter_cons_True by done. by rewrite IH.
Qed.

Lemma has_key_remove k c : has_key k (remove k c) = has_key k c.
Proof. by destruct c. Qed.

Lemma has_key_true k c : has_key k c = true ↔ key_of c = Some k.
Proof.
  destruct c; cbn; [done|]. rewrite Nat.eqb_eq. split; [by intros ->|by intros [= ->]].
Qed.

Lemma has_key_element k c : has_key k c = true → is_element c = true.
Proof. by destruct c. Qed.

Lemma remove_kept k (l : list node) c :
  c ∈ l → has_key k c = false →
  remove k c ∈ filter (λ c, has_key k c = false) (map (remove k) l).
Proof.
  intros Hc Hk. apply list_elem_of_filter. split; [by rewrite has_key_remove|].
  apply list_elem_of_fmap. eauto.
Qed.

Lemma evolves_remove k n :
  (∀ c, c ∈ all_elements n → key_of c = Some k → leaf c = true ∧ ¬ G c) →
  evolves n (remove k n).
Proof using G_leaf.
  induction n as [d|k' t i a cs sh IHc IHs] using node_induction; intros HF.
  - apply evolves_refl.
  - cbn [remove].
    assert (Hlight : ∀ (l : list node) c s,
      Forall (λ n, (∀ c, c ∈ all_elements n → key_of c = Some k →
                         leaf c = true ∧ ¬ G c) → evolves n (remove k n)) l →
      (∀ c x, c ∈ l → x ∈ all_elements c → key_of x = Some k →
              leaf x = true ∧ ¬ G x) →
      c ∈ l → s ∈ subtree_elements c → G s →
      ∃ s', s' ∈ flat_map subtree_elements
                   (filter (λ c, has_key k c = false) (map (remove k) l))
            ∧ G s').
    { intros l c s IH Hrem Hc Hs HG. rewrite Forall_forall in IH.
      destruct (has_key k c) eqn:Hk.
      - pose proof (has_key_element _ _ Hk) as Hel.
        apply has_key_true in Hk.
        destruct (Hrem c c Hc (all_elements_self _ Hel) Hk) as [Hleaf HnG].
        rewrite (leaf_subtree _ Hel Hleaf) in Hs.
        apply list_elem_of_singleton in Hs as ->. done.
      - destruct (ev_light _ _ _ _ (IH c Hc (λ x, Hrem c x Hc)) s Hs HG)
          as (s' & Hs' & HG').
        exists s'. split; [|done]. apply elem_of_flat_map.
        exists (remove k c). split; [by apply remove_kept|done]. }
    assert (Hall : ∀ (l : list node) c e,
      Forall (λ n, (∀ c, c ∈ all_elements n → key_of c = Some k →
                         leaf c = true ∧ ¬ G c) → evolves n (remove k n)) l →
      (∀ c x, c ∈ l → x ∈ all_elements c → key_of x = Some k →
              leaf x = true ∧ ¬ G x) →
      c ∈ l → e ∈ all_elements c → is_host e = true →
      ∃ c' e', c' ∈ filter (λ c, has_key k c = false) (map (remove k) l)
               ∧ e' ∈ all_elements c' ∧ host_kept e e').
    { intros l c e IH Hrem Hc He Hhost. rewrite Forall_forall in IH.
      destruct (has_key k c) eqn:Hk.
      - pose proof (has_key_element _ _ Hk) as Hel.
        apply has_key_true in Hk.
        destruct (Hrem c c Hc (all_elements_self _ Hel) Hk) as [Hleaf HnG].
        rewrite (leaf_elements _ Hel Hleaf) in He.
        apply list_elem_of_singleton in He as ->.
        by rewrite (leaf_not_host _ Hleaf) in Hhost.
      - destruct (ev_hosts _ _ _ _ (IH c Hc (λ x, Hrem c x Hc)) e He Hhost)
          as (e' & He' & Hkept).
        exists (remove k c), e'. split; [by apply remove_kept|done]. }
    assert (Hremc : ∀ c x, c ∈ cs → x ∈ all_elements c → key_of x = Some k →
                           leaf x = true ∧ ¬ G x).
    { intros c x Hc Hx. apply HF. apply all_elements_Elem. right; left. eauto. }
    assert (Hrems : ∀ c x, c ∈ default [] sh → x ∈ all_elements c →
                           key_of x = Some k → leaf x = true ∧ ¬ G x).
    { intros c x Hc Hx. apply HF. apply all_elements_Elem. right; right. eauto. }
    split.
    + done.
    + intros s [->|(c & Hc & Hs)]%subtree_elements_Elem HG.
      * pose proof (G_leaf _ HG) as Hleaf. unfold leaf in Hleaf. cbn in Hleaf.
        apply andb_true_iff in Hleaf as [Htext Hnone].
        destruct sh; [done|]. cbn.
        rewrite remove_text by by apply leaf_children_text.
        eexists. split; [apply subtree_elements_Elem; by left|done].
      * destruct (Hlight cs c s IHc Hremc Hc Hs HG) as (s' & Hs' & HG').
        exists s'. split; [|done]. apply subtree_elements_Elem. right.
        by apply elem_of_flat_map.
    + intros e [->|[(c & Hc & He)|(c & Hc & He)]]%all_elements_Elem Hhost.
      * eexists. split; [apply all_elements_Elem; by left|].
        unfold is_host in Hhost. cbn in Hhost. destruct sh as [ss|]; [|done].
        repeat split; [|done].
        intros (ss0 & s & [= <-] & Hs & HG). unfold querySelectorAll_star in Hs.
        apply elem_of_flat_map in Hs as (c & Hc & Hs).
        destruct (Hlight ss c s IHs Hrems Hc Hs HG) as (s' & Hs' & HG').
        eexists _, s'. cbn. repeat split; done.
      * destruct (Hall cs c e IHc Hremc Hc He Hhost) as (c' & e' & Hc' & He' & Hk).
        exists e'. split; [|done]. apply all_elements_Elem. right; left. eauto.
      * destruct sh as [ss|]; [|by apply elem_of_nil in Hc].
        destruct (Hall ss c e IHs Hrems Hc He Hhost) as (c' & e' & Hc' & He' & Hk).
        exists e'. split; [|done]. apply all_elements_Elem. right; right. eauto.
Qed.

Lemma at_key_host_evolves k n n' :
  evolves n n' → at_key (λ e, is_host e = true) k n →
  at_key (λ e, is_host e = true) k n'.
Proof.
  intros Hev (e & He & Hk & Hh).
  destruct (ev_hosts _ _ _ _ Hev e He Hh) as (e' & He' & Hk' & Hh' & _).
  exists e'. repeat split; [done|congruence|done].
Qed.

Lemma at_key_holds_evolves k n n' :
  evolves n n' → at_key (shadow_holds G) k n → at_key (shadow_holds G) k n'.
Proof.
  intros Hev (e & He & Hk & Hh).
  assert (is_host e = true) as Hhost.
  { destruct Hh as (ss & s & Hss & _). unfold is_host. by rewrite Hss. }
  destruct (ev_hosts _ _ _ _ Hev e He Hhost) as (e' & He' & Hk' & _ & Hs & _).
  exists e'. repeat split; [done|congruence|auto].
Qed.

Lemma at_key_dir_evolves k n n' :
  evolves n n' →
  at_key (λ e, is_host e = true ∧ getAttribute "dir" e = Some dir) k n →
  at_key (λ e, is_host e = true ∧ getAttribute "dir" e = Some dir) k n'.
Proof.
  intros Hev (e & He & Hk & Hh & Hd).
  destruct (ev_hosts _ _ _ _ Hev e He Hh) as (e' & He' & Hk' & Hh' & _ & Hd').
  exists e'. repeat split; [done|congruence|done|auto].
Qed.

End Evolution.

(** ** Keys and owned elements under the edits of content.js *)

Section Keys.
Import Dom Props.

Lemma NoDup_flat_map_elem {A B} (f : A → list B) (l : list A) x :
  NoDup (flat_map f l) → x ∈ l → NoDup (f x).
Proof.
  induction l as [|y l IH]; [by intros _ ?%elem_of_nil|].
  cbn. intros (Hy & _ & Hl)%NoDup_app [->|Hx]%elem_of_cons; auto.
Qed.

Lemma NoDup_keys_child k t i a cs sh c :
  NoDup (keys (Elem k t i a cs sh)) → c ∈ cs ∨ c ∈ default [] sh →
  NoDup (keys c).
Proof.
  cbn [keys]. rewrite shadow_flat_map.
  intros (_ & (Hcs & _ & Hsh)%NoDup_app)%NoDup_cons [Hc|Hc].
  - exact (NoDup_flat_map_elem keys cs c Hcs Hc).
  - exact (NoDup_flat_map_elem keys _ c Hsh Hc).
Qed.

Lemma modify_notin k F n : k ∉ keys n → modify k F n = n.
Proof.
  induction n as [d|k' t i a cs sh IHc IHs] using node_induction; [done|].
  intros Hk. cbn [modify].
  destruct (k' =? k) eqn:Hkk.
  { apply Nat.eqb_eq in Hkk as ->. destruct Hk. apply keys_Elem. by left. }
  f_equal.
  - rewrite Forall_forall in IHc.
    rewrite <- (map_id cs) at 2. apply map_ext_in. intros c Hc.
    apply list_elem_of_In in Hc. apply IHc; [done|]. intros Hin. apply Hk.
    apply keys_Elem. right; left. eauto.
  - destruct sh as [ss|]; [|done]. cbn [option_map default from_option id] in *. f_equal.
    rewrite Forall_forall in IHs.
    rewrite <- (map_id ss) at 2. apply map_ext_in. intros c Hc.
    apply list_elem_of_In in Hc. apply IHs; [done|]. intros Hin. apply Hk.
    apply keys_Elem. right; right. eauto.
Qed.

Lemma map_modify_notin k F (l : list node) :
  k ∉ flat_map keys l → map (modify k F) l = l.
Proof.
  intros Hk. rewrite <- (map_id l) at 2. apply map_ext_in. intros c Hc.
  apply list_elem_of_In in Hc. apply modify_notin. intros Hin. apply Hk.
  apply elem_of_flat_map. eauto.
Qed.

Lemma keys_modify_same k F n :
  (∀ c, c ∈ all_elements n → key_of c = Some k → keys (F c) = keys c) →
  keys (modify k F n) = keys n.
Proof.
  induction n as [d|k' t i a cs sh IHc IHs] using node_induction; [done|].
  intros HF. cbn [modify].
  destruct (k' =? k) eqn:Hkk.
  { apply Nat.eqb_eq in Hkk as ->. apply HF; [|done].
    apply all_elements_Elem. by left. }
  cbn [keys]. rewrite !shadow_flat_map. f_equal. f_equal.
  - rewrite flat_map_concat_map, map_map, <- flat_map_concat_map.
    apply flat_map_ext_Forall. rewrite Forall_forall in IHc |- *.
    intros c Hc. apply IHc; [done|]. intros x Hx. apply HF.
    apply all_elements_Elem. right; left. eauto.
  - destruct sh as [ss|]; [|done]. cbn [option_map default from_option id] in *.
    rewrite flat_map_concat_map, map_map, <- flat_map_concat_map.
    apply flat_map_ext_Forall. rewrite Forall_forall in IHs |- *.
    intros c Hc. apply IHs; [done|]. intros x Hx. apply HF.
    apply all_elements_Elem. right; right. eauto.
Qed.

Lemma keys_modify_insert_list k kx F (l : list node) :
  Forall (λ n, NoDup (keys n) → k ∈ keys n →
               (∀ c, c ∈ all_elements n → key_of c = Some k →
                     keys (F c) ≡ₚ kx :: keys c) →
               keys (modify k F n) ≡ₚ kx :: keys n) l →
  NoDup (flat_map keys l) → k ∈ flat_map keys l →
  (∀ c x, c ∈ l → x ∈ all_elements c → key_of x = Some k →
          keys (F x) ≡ₚ kx :: keys x) →
  flat_map keys (map (modify k F) l) ≡ₚ kx :: flat_map keys l.
Proof.
  induction 1 as [|c l Hc _ IH]; [by intros _ ?%elem_of_nil|].
  cbn [flat_map map]. intros (Hndc & Hdisj & Hndl)%NoDup_app Hk HF.
  destruct (decide (k ∈ keys c)) as [Hkc|Hkc].
  - rewrite (map_modify_notin k F l) by auto.
    rewrite Hc; [done..|]. intros x Hx. apply (HF c x); [by left|done].
  - apply elem_of_app in Hk as [Hk|Hk]; [done|].
    rewrite (modify_notin k F c Hkc), IH; [|done..|].
    + symmetry. apply Permutation_middle.
    + intros c' x Hc'. apply HF. by right.
Qed.

Lemma keys_modify_insert k kx F n :
  NoDup (keys n) → k ∈ keys n →
  (∀ c, c ∈ all_elements n → key_of c = Some k → keys (F c) ≡ₚ kx :: keys c) →
  keys (modify k F n) ≡ₚ kx :: keys n.
Proof.
  induction n as [d|k' t i a cs sh IHc IHs] using node_induction;
    [by intros _ ?%elem_of_nil|].
  intros Hnd Hk HF. cbn [modify].
  destruct (k' =? k) eqn:Hkk.
  { apply Nat.eqb_eq in Hkk as ->. apply HF; [|done].
    apply all_elements_Elem. by left. }
  apply Nat.eqb_neq in Hkk.
  cbn [keys] in *. rewrite !shadow_flat_map in *.
  apply NoDup_cons in Hnd as (_ & (Hndc & Hdisj & Hnds)%NoDup_app).
  apply elem_of_cons in Hk as [->|Hk]; [done|].
  assert (default [] (option_map (map (modify k F)) sh)
          = map (modify k F) (default [] sh)) as -> by by destruct sh.
  destruct (decide (k ∈ flat_map keys cs)) as [Hkc|Hkc].
  - rewrite (map_modify_notin k F (default [] sh)) by auto.
    rewrite (keys_modify_insert_list k kx F cs); [| done..|].
    + apply perm_swap.
    + intros c x Hc Hx. apply HF. apply all_elements_Elem. right; left. eauto.
  - apply elem_of_app in Hk as [Hk|Hk]; [done|].
    rewrite (map_modify_notin k F cs) by done.
    rewrite (keys_modify_insert_list k kx F (default [] sh)); [| done..|].
    + rewrite <- Permutation_middle. apply perm_swap.
    + intros c x Hc Hx. apply HF. apply all_elements_Elem. right; right. eauto.
Qed.

Lemma keys_remove_list k (l : list node) :
  Forall (λ n, keys (remove k n) `sublist_of` keys n) l →
  flat_map keys (filter (λ c, has_key k c = false) (map (remove k) l))
    `sublist_of` flat_map keys l.
Proof.
  induction 1 as [|c l Hc _ IH]; [done|]. cbn [map flat_map].
  destruct (decide (has_key k (remove k c) = false)) as [Hk|Hk].
  - rewrite filter_cons_True by done. cbn. by apply sublist_app.
  - rewrite filter_cons_False by done. by apply sublist_inserts_l.
Qed.

Lemma keys_remove k n : keys (remove k n) `sublist_of` keys n.
Proof.
  induction n as [d|k' t i a cs sh IHc IHs] using node_induction; [done|].
  cbn [remove keys]. apply sublist_skip. apply sublist_app.
  - by apply keys_remove_list.
  - destruct sh as [ss|]; [|done]. cbn [option_map default from_option id] in *. by apply keys_remove_list.
Qed.

(** Owned elements *)

Lemma owned_shape e e' :
  id_of e' = id_of e → tagName_of e' = tagName_of e →
  (leaf e = true → leaf e' = true) → owned e = true → owned e' = true.
Proof.
  unfold owned. intros -> -> Hleaf.
  rewrite !andb_true_iff. intros [H1 H2]. split.
  - destruct (JsString.startsWith _ _); [|done].
    apply andb_true_iff in H1 as [? ?]. apply andb_true_iff. auto.
  - destruct (String.eqb (id_of e) _); [|done].
    apply andb_true_iff in H2 as [? ?]. apply andb_true_iff. auto.
Qed.

Lemma owned_free e e' :
  id_of e' = id_of e → tagName_of e' = tagName_of e →
  leaf e = false ∨ tagName_of e = "HEAD" → owned e = true → owned e' = true.
Proof.
  unfold owned. intros -> -> Hfree.
  rewrite !andb_true_iff. intros [H1 H2]. split.
  - destruct (JsString.startsWith _ _); [|done].
    apply andb_true_iff in H1 as [Hl Ht]. apply String.eqb_eq in Ht.
    destruct Hfree as [Hf|Hf]; congruence.
  - destruct (String.eqb (id_of e) _); [|done].
    apply andb_true_iff in H2 as [Hl Ht]. apply String.eqb_eq in Ht.
    destruct Hfree as [Hf|Hf]; congruence.
Qed.

Lemma map_text (f : node → node) (cs : list node) :
  (∀ d, f (Text d) = Text d) →
  Forall (λ c, is_element c = false) cs → map f cs = cs.
Proof.
  intros Hf. induction 1 as [|c cs Hc _ IH]; [done|].
  cbn. rewrite IH. by destruct c; [rewrite Hf|].
Qed.

Lemma owned_modify k F n :
  Forall (λ e, owned e = true) (all_elements n) →
  (∀ c, c ∈ all_elements n → key_of c = Some k →
        Forall (λ e, owned e = true) (all_elements (F c))) →
  Forall (λ e, owned e = true) (all_elements (modify k F n)).
Proof.
  induction n as [d|k' t i a cs sh IHc IHs] using node_induction; [done|].
  intros Hown HF. cbn [modify].
  destruct (k' =? k) eqn:Hkk.
  { apply Nat.eqb_eq in Hkk as ->. apply HF; [|done].
    apply all_elements_Elem. by left. }
  rewrite Forall_forall in Hown, IHc, IHs. apply Forall_forall.
  intros e [->|[(c' & Hc' & He)|(c' & Hc' & He)]]%all_elements_Elem.
  - eapply owned_shape; [..|apply Hown, all_elements_Elem; by left]; [done..|].
    unfold leaf. cbn. rewrite !andb_true_iff. intros [Htext Hnone].
    destruct sh; [done|]. split; [|done].
    by rewrite map_text by (done || by apply leaf_children_text).
  - apply list_elem_of_fmap in Hc' as (c & -> & Hc).
    assert (Hsub : ∀ x, x ∈ all_elements c → x ∈ all_elements (Elem k' t i a cs sh)).
    { intros x Hx. apply all_elements_Elem. right; left. eauto. }
    specialize (IHc c Hc). rewrite !Forall_forall in IHc. apply IHc; auto.
  - destruct sh as [ss|]; [|by apply elem_of_nil in Hc']. cbn in Hc', IHs.
    apply list_elem_of_fmap in Hc' as (c & -> & Hc).
    assert (Hsub : ∀ x, x ∈ all_elements c →
                        x ∈ all_elements (Elem k' t i a cs (Some ss))).
    { intros x Hx. apply all_elements_Elem. right; right. eauto. }
    specialize (IHs c Hc). rewrite !Forall_forall in IHs. apply IHs; auto.
Qed.

Lemma owned_remove k n :
  Forall (λ e, owned e = true) (all_elements n) →
  Forall (λ e, owned e = true) (all_elements (remove k n)).
Proof.
  induction n as [d|k' t i a cs sh IHc IHs] using node_induction; [done|].
  intros Hown. cbn [remove].
  rewrite Forall_forall in Hown, IHc, IHs. apply Forall_forall.
  intros e [->|[(c' & Hc' & He)|(c' & Hc' & He)]]%all_elements_Elem.
  - eapply owned_shape; [..|apply Hown, all_elements_Elem; by left]; [done..|].
    unfold leaf. cbn. rewrite !andb_true_iff. intros [Htext Hnone].
    destruct sh; [done|]. split; [|done].
    by rewrite remove_text by by apply leaf_children_text.
  - apply list_elem_of_filter in Hc' as [_ Hc'].
    apply list_elem_of_fmap in Hc' as (c & -> & Hc).
    specialize (IHc c Hc). rewrite !Forall_forall in IHc. apply IHc; [|done].
    intros x Hx. apply Hown. apply all_elements_Elem. right; left. eauto.
  - destruct sh as [ss|]; [|by apply elem_of_nil in Hc']. cbn in Hc', IHs.
    apply list_elem_of_filter in Hc' as [_ Hc'].
    apply list_elem_of_fmap in Hc' as (c & -> & Hc).
    specialize (IHs c Hc). rewrite !Forall_forall in IHs. apply IHs; [|done].
    intros x Hx. apply Hown. apply all_elements_Elem. right; right. eauto.
Qed.

(** The element with a given key *)

Lemma lookup_key_Elem k k' t i a cs sh :
  lookup_key k (Elem k' t i a cs sh) =
  if k' =? k then Some (Elem k' t i a cs sh)
  else match first_found k cs with
       | Some r => Some r
       | None => match sh with Some ss => first_found k ss | None => None end
       end.
Proof. reflexivity. Qed.

Lemma first_found_Some k l r :
  first_found k l = Some r → ∃ c, c ∈ l ∧ lookup_key k c = Some r.
Proof.
  induction l as [|c l IH]; [done|].
  change (first_found k (c :: l))
    with (match lookup_key k c with Some r => Some r | None => first_found k l end).
  destruct (lookup_key k c) as [r'|] eqn:Hc.
  - intros [= ->]. exists c. split; [left|done].
  - intros (c' & Hc' & Hr)%IH. exists c'. split; [by right|done].
Qed.

Lemma first_found_is_Some k l c :
  c ∈ l → is_Some (lookup_key k c) → is_Some (first_found k l).
Proof.
  induction l as [|c' l IH]; [by intros ?%elem_of_nil|].
  change (first_found k (c' :: l))
    with (match lookup_key k c' with Some r => Some r | None => first_found k l end).
  intros [->|Hc]%elem_of_cons Hsome.
  - by destruct Hsome as [r ->].
  - destruct (lookup_key k c'); [done|auto].
Qed.

Lemma lookup_key_sound k n r :
  lookup_key k n = Some r → r ∈ all_elements n ∧ key_of r = Some k.
Proof.
  revert r. induction n as [d|k' t i a cs sh IHc IHs] using node_induction;
    [done|].
  intros r. rewrite lookup_key_Elem. rewrite Forall_forall in IHc, IHs.
  destruct (k' =? k) eqn:Hkk.
  { apply Nat.eqb_eq in Hkk as ->. intros [= <-].
    split; [apply all_elements_Elem; by left|done]. }
  destruct (first_found k cs) as [r'|] eqn:Hcs.
  - intros [= ->]. apply first_found_Some in Hcs as (c & Hc & Hr).
    destruct (IHc c Hc r Hr). split; [|done].
    apply all_elements_Elem. right; left. eauto.
  - destruct sh as [ss|]; [|done].
    intros (c & Hc & Hr)%first_found_Some. destruct (IHs c Hc r Hr).
    split; [|done]. apply all_elements_Elem. right; right. eauto.
Qed.

Lemma lookup_key_complete k n e :
  e ∈ all_elements n → key_of e = Some k → is_Some (lookup_key k n).
Proof.
  induction n as [d|k' t i a cs sh IHc IHs] using node_induction;
    [by intros ?%elem_of_nil|].
  rewrite lookup_key_Elem. rewrite Forall_forall in IHc, IHs.
  destruct (k' =? k) eqn:Hkk; [done|].
  intros [->|[(c & Hc & He)|(c & Hc & He)]]%all_elements_Elem Hk.
  - injection Hk as ->. by rewrite Nat.eqb_refl in Hkk.
  - destruct (first_found_is_Some k cs c Hc) as [r ->]; [by apply IHc|done].
  - destruct (first_found k cs); [done|].
    destruct sh as [ss|]; [|by apply elem_of_nil in Hc].
    apply (first_found_is_Some k ss c Hc). by apply IHs.
Qed.

Lemma lookup_key_unique k n e :
  NoDup (keys n) → e ∈ all_elements n → key_of e = Some k →
  lookup_key k n = Some e.
Proof.
  intros Hnd He Hk. destruct (lookup_key_complete k n e He Hk) as [r Hr].
  rewrite Hr. f_equal. destruct (lookup_key_sound _ _ _ Hr).
  by eapply key_unique.
Qed.

Lemma modify_hit k F n e :
  (∀ c, is_element (F c) = is_element c) →
  NoDup (keys n) → e ∈ all_elements n → key_of e = Some k →
  F e ∈ all_elements (modify k F n).
Proof.
  intros HF. induction n as [d|k' t i a cs sh IHc IHs] using node_induction;
    [by intros _ ?%elem_of_nil|].
  intros Hnd He Hk. cbn [modify]. rewrite Forall_forall in IHc, IHs.
  destruct (k' =? k) eqn:Hkk.
  { apply Nat.eqb_eq in Hkk as ->.
    assert (e = Elem k t i a cs sh) as ->.
    { eapply key_unique; [exact Hnd|done|apply all_elements_Elem; by left|done..]. }
    apply all_elements_self. by rewrite HF. }
  apply all_elements_Elem in He as [->|[(c & Hc & He)|(c & Hc & He)]].
  - injection Hk as ->. by rewrite Nat.eqb_refl in Hkk.
  - apply all_elements_Elem. right; left. exists (modify k F c).
    split; [by apply list_elem_of_fmap_2|].
    apply IHc; [done| |done..]. eapply NoDup_keys_child; eauto.
  - apply all_elements_Elem. right; right. exists (modify k F c).
    destruct sh as [ss|]; [|by apply elem_of_nil in Hc]. cbn in Hc |- *.
    split; [by apply list_elem_of_fmap_2|].
    apply IHs; [done| |done..]. eapply NoDup_keys_child; eauto.
Qed.

End Keys.

(** ** The traversal of [getAllShadowRoots] *)

Section Traversal.
Import Dom Props Content.

Local Abbreviation weight q :=
  (sum_list (map (λ e, fst (traversal_weight e)) q)).

Lemma weight_app (q1 q2 : list node) : weight (q1 ++ q2) = weight q1 + weight q2.
Proof. by rewrite map_app, sum_list_with_app. Qed.

Lemma traversal_weight_pos n : 1 ≤ fst (traversal_weight n).
Proof. destruct n; cbn; lia. Qed.

Lemma traversal_weight_Elem k t i a cs sh :
  traversal_weight (Elem k t i a cs sh) =
  (S (sum_list (map fst (map traversal_weight cs))
      + sum_list (map snd (map traversal_weight (default [] sh)))),
   S (sum_list (map fst (map traversal_weight cs))
      + sum_list (map snd (map traversal_weight (default [] sh))))
   + sum_list (map snd (map traversal_weight cs))).
Proof. by destruct sh. Qed.

Lemma weight_subtree_list (l : list node) :
  Forall (λ n, weight (subtree_elements n) ≤ snd (traversal_weight n)) l →
  weight (flat_map subtree_elements l)
  ≤ sum_list (map snd (map traversal_weight l)).
Proof.
  induction 1 as [|c l Hc _ IH]; [done|].
  cbn [flat_map]. rewrite weight_app. cbn. lia.
Qed.

Lemma weight_subtree n :
  weight (subtree_elements n) ≤ snd (traversal_weight n).
Proof.
  induction n as [d|k t i a cs sh IHc _] using node_induction; [cbn; lia|].
  cbn [subtree_elements]. rewrite traversal_weight_Elem.
  pose proof (weight_subtree_list cs IHc) as Hcs.
  change (weight (?x :: ?l)) with (fst (traversal_weight x) + weight l).
  rewrite traversal_weight_Elem. cbn [fst snd]. lia.
Qed.

Lemma weight_children e :
  weight (children e)
  ≤ sum_list (map fst (map traversal_weight (childNodes_of e))).
Proof.
  unfold children. induction (childNodes_of e) as [|c cs IH]; [done|].
  destruct (decide (is_element c = true)).
  - rewrite filter_cons_True by done. cbn. lia.
  - rewrite filter_cons_False by done. cbn. lia.
Qed.

Lemma weight_step k t i a cs ss :
  S (weight (querySelectorAll_star ss)
     + weight (children (Elem k t i a cs (Some ss))))
  ≤ fst (traversal_weight (Elem k t i a cs (Some ss))).
Proof.
  rewrite traversal_weight_Elem. cbn [fst default from_option id].
  pose proof (weight_children (Elem k t i a cs (Some ss))) as Hc.
  cbn [childNodes_of] in Hc.
  pose proof (weight_subtree_list ss) as Hs.
  unfold querySelectorAll_star.
  assert (weight (flat_map subtree_elements ss)
          ≤ sum_list (map snd (map traversal_weight ss))).
  { apply Hs, Forall_forall. intros; apply weight_subtree. }
  lia.
Qed.

Lemma weight_step_light e :
  S (weight (children e)) ≤ fst (traversal_weight e).
Proof.
  destruct e as [d|k t i a cs sh]; [cbn; lia|].
  rewrite traversal_weight_Elem. cbn [fst].
  pose proof (weight_children (Elem k t i a cs sh)) as Hc.
  cbn [childNodes_of] in Hc. lia.
Qed.

(** The fuel suffices. *)
Lemma getAllShadowRoots_loop_returns fuel queue roots :
  weight queue ≤ fuel → is_Some (getAllShadowRoots_loop fuel queue roots).
Proof.
  revert queue roots. induction fuel as [|fuel IH]; intros queue roots Hw.
  - destruct queue as [|e rest]; [by eexists|].
    pose proof (traversal_weight_pos e). cbn in Hw. lia.
  - destruct queue as [|e rest]; [by eexists|].
    cbn [getAllShadowRoots_loop].
    change (weight (e :: rest)) with (fst (traversal_weight e) + weight rest) in Hw.
    destruct e as [d|k t i a cs [ss|]].
    + apply IH. rewrite weight_app. cbn in *. lia.
    + destruct (bool_decide (k ∈ roots)).
      * apply IH. rewrite weight_app.
        pose proof (weight_step_light (Elem k t i a cs (Some ss))). lia.
      * apply IH. rewrite !weight_app.
        pose proof (weight_step k t i a cs ss). lia.
    + apply IH. rewrite weight_app.
      pose proof (weight_step_light (Elem k t i a cs None)). lia.
Qed.

(** What the loop has taken from its queue covers what it leads to. *)
Lemma traversed_step T e rest done roots :
  NoDup (keys T) → traversed T done (e :: rest) roots →
  let '(queue, roots') :=
    match e with
    | Elem k _ _ _ _ (Some ss) =>
        if bool_decide (k ∈ roots) then (rest, roots)
        else (rest ++ querySelectorAll_star ss, roots ++ [k])
    | _ => (rest, roots)
    end in
  traversed T (e :: done) (queue ++ children e) roots'.
Proof.
  intros Hnd [Hin Hch Hsh Hro].
  assert (HeT : e ∈ all_elements T).
  { apply Hin. apply elem_of_app. right. by left. }
  assert (HchT : ∀ c, c ∈ children e → c ∈ all_elements T).
  { intros c [Hel Hc]%list_elem_of_filter.
    eapply all_elements_trans; [exact HeT|]. by apply child_all_elements. }
  assert (Hold : ∀ q x, x ∈ done ++ e :: rest →
                        x ∈ (e :: done) ++ (rest ++ q) ++ children e).
  { intros q x. rewrite !elem_of_app, !elem_of_cons. tauto. }
  assert (Hold0 : ∀ x, x ∈ done ++ e :: rest →
                       x ∈ (e :: done) ++ rest ++ children e).
  { intros x. rewrite !elem_of_app, !elem_of_cons. tauto. }
  assert (Hplain : shadowRoot_of e = None ∨
    (∃ k ss, key_of e = Some k ∧ shadowRoot_of e = Some ss ∧ k ∈ roots) →
    traversed T (e :: done) (rest ++ children e) roots).
  { intros Hcase. split.
    - intros x [->|[Hx|[Hx|Hx]%elem_of_app]%elem_of_app]%elem_of_cons; auto.
      + apply Hin, elem_of_app. by left.
      + apply Hin, elem_of_app. right. by right.
    - intros e0 c [->|He0]%elem_of_cons Hc.
      + rewrite !elem_of_app. right. by right.
      + apply Hold0. by eapply Hch.
    - intros e0 k ss [->|He0]%elem_of_cons Hk Hss.
      + destruct Hcase as [Hnone|(k' & ss' & Hk' & Hss' & Hroot)]; [congruence|].
        assert (k' = k) as -> by congruence. split; [done|].
        destruct (Hro k Hroot) as (e1 & He1 & Hk1 & _).
        assert (e1 = e) as ->.
        { eapply key_unique; [exact Hnd| |exact HeT|done..].
          apply Hin, elem_of_app. by left. }
        intros x Hx. apply Hold0. by eapply Hsh.
      + destruct (Hsh e0 k ss He0 Hk Hss) as [? Hq]. split; [done|].
        intros x Hx. apply Hold0. auto.
    - intros k Hk. destruct (Hro k Hk) as (e1 & He1 & ?).
      exists e1. split; [by right|done]. }
  destruct e as [d|k t i a cs [ss|]]; [by apply Hplain; left| |by apply Hplain; left].
  destruct (bool_decide (k ∈ roots)) eqn:Hroot.
  { apply bool_decide_eq_true in Hroot. apply Hplain. right. by exists k, ss. }
  apply bool_decide_eq_false in Hroot. split.
  - intros x [->|[Hx|[[Hx|Hx]%elem_of_app|Hx]%elem_of_app]%elem_of_app]%elem_of_cons;
      auto.
    + apply Hin, elem_of_app. by left.
    + apply Hin, elem_of_app. right. by right.
    + eapply all_elements_trans; [exact HeT|]. by eapply shadow_all_elements.
  - intros e0 c [->|He0]%elem_of_cons Hc.
    + rewrite !elem_of_app. right. by right.
    + apply Hold. by eapply Hch.
  - intros e0 k0 ss0 [->|He0]%elem_of_cons Hk Hss.
    + injection Hk as <-. injection Hss as <-. split.
      * apply elem_of_app. right. by left.
      * intros x Hx. rewrite !elem_of_app. right. left. by right.
    + destruct (Hsh e0 k0 ss0 He0 Hk Hss) as [? Hq]. split.
      * apply elem_of_app. by left.
      * intros x Hx. apply Hold. auto.
  - intros k0 [Hk0| ->%list_elem_of_singleton]%elem_of_app.
    + destruct (Hro k0 Hk0) as (e1 & He1 & ?). exists e1. split; [by right|done].
    + eexists. split; [by left|done].
Qed.

Lemma getAllShadowRoots_loop_traversed T fuel :
  NoDup (keys T) →
  ∀ queue roots done res,
    traversed T done queue roots →
    getAllShadowRoots_loop fuel queue roots = Some res →
    ∃ done', traversed T done' [] res ∧ ∀ e, e ∈ done ++ queue → e ∈ done'.
Proof.
  intros Hnd. induction fuel as [|fuel IH]; intros queue roots done res Htr.
  - destruct queue as [|e rest]; [|done]. intros [= <-].
    exists done. split; [done|]. intros e. by rewrite app_nil_r.
  - destruct queue as [|e rest].
    { intros [= <-]. exists done. split; [done|]. intros e. by rewrite app_nil_r. }
    cbn [getAllShadowRoots_loop].
    pose proof (traversed_step T e rest done roots Hnd Htr) as Hstep.
    destruct (match e with
              | Elem k _ _ _ _ (Some ss) =>
                  if bool_decide (k ∈ roots) then (rest, roots)
                  else (rest ++ querySelectorAll_star ss, roots ++ [k])
              | _ => (rest, roots)
              end) as [queue' roots'] eqn:Hq.
    intros Hloop.
    assert (Hsub : ∀ x, x ∈ rest → x ∈ queue').
    { intros x Hx. destruct e as [d|k t i a cs [ss|]]; try by injection Hq as <- <-.
      destruct (bool_decide (k ∈ roots)); injection Hq as <- <-; [done|].
      apply elem_of_app. by left. }
    destruct (IH _ _ _ _ Hstep Hloop) as (done' & Htr' & Hin).
    exists done'. split; [done|].
    intros x [Hx|[->|Hx]%elem_of_cons]%elem_of_app; apply Hin.
    + apply elem_of_app. left. by right.
    + apply elem_of_app. left. by left.
    + rewrite !elem_of_app. right. left. auto.
Qed.

Lemma traversed_closed T done res e :
  traversed T done [] res → e ∈ done →
  ∀ x, x ∈ all_elements e → x ∈ done.
Proof.
  intros [_ Hch Hsh _].
  induction e as [d|k t i a cs sh IHc IHs] using node_induction;
    [by intros _ x ?%elem_of_nil|].
  rewrite Forall_forall in IHc, IHs.
  intros He x [->|[(c & Hc & Hx)|(c & Hc & Hx)]]%all_elements_Elem; [done|..].
  - apply (IHc c Hc); [|done].
    pose proof (Hch _ c He) as Hin. rewrite app_nil_r in Hin. apply Hin.
    apply list_elem_of_filter. split; [|done].
    destruct c; [by apply elem_of_nil in Hx|done].
  - destruct sh as [ss|]; [|by apply elem_of_nil in Hc].
    apply (IHs c Hc); [|done].
    destruct (Hsh _ k ss He eq_refl eq_refl) as [_ Hin].
    specialize (Hin c). rewrite app_nil_r in Hin. apply Hin.
    apply elem_of_flat_map. exists c. split; [done|].
    destruct c; [by apply elem_of_nil in Hx|]. apply subtree_elements_Elem. by left.
Qed.

Lemma getAllShadowRoots_returns T :
  ∃ res, getAllShadowRoots_loop (S (fst (traversal_weight T))) [T] [] = Some res
         ∧ getAllShadowRoots T = res.
Proof.
  destruct (getAllShadowRoots_loop_returns (S (fst (traversal_weight T))) [T] [])
    as [res Hres].
  { cbn. lia. }
  exists res. split; [done|]. unfold getAllShadowRoots. by rewrite Hres.
Qed.

(** Every shadow host of the page is found. *)
Lemma getAllShadowRoots_complete T h k :
  NoDup (keys T) → h ∈ all_elements T → key_of h = Some k →
  is_host h = true → k ∈ getAllShadowRoots T.
Proof.
  intros Hnd Hh Hk Hhost.
  destruct (getAllShadowRoots_returns T) as (res & Hloop & ->).
  assert (HT : T ∈ all_elements T).
  { apply all_elements_self. destruct T; [by apply elem_of_nil in Hh|done]. }
  destruct (getAllShadowRoots_loop_traversed T (S (fst (traversal_weight T)))
              Hnd [T] [] [] res) as (D & Htr & Hin); [|exact Hloop|].
  { split.
    - by intros e ->%list_elem_of_singleton.
    - by intros e c ?%elem_of_nil.
    - by intros e k0 ss ?%elem_of_nil.
    - by intros k0 ?%elem_of_nil. }
  assert (h ∈ D) as Hdone.
  { eapply traversed_closed; [exact Htr| |exact Hh]. apply Hin. by left. }
  unfold is_host in Hhost. destruct (shadowRoot_of h) as [ss|] eqn:Hss; [|done].
  by destruct (tr_shadow _ _ _ _ Htr h k ss Hdone Hk Hss).
Qed.

End Traversal.

(** ** The edits of content.js on a well-formed page *)

Section Edits.
Import Dom Props Content.

Lemma is_element_set_textContent css e :
  is_element (set_textContent css e) = is_element e.
Proof. by destruct e. Qed.

Lemma is_element_insertBefore b x e :
  is_element (insertBefore_firstChild b x e) = is_element e.
Proof. by destruct b, e as [|? ? ? ? ? [|]]. Qed.

Lemma is_element_setAttribute a v e :
  is_element (setAttribute a v e) = is_element e.
Proof. by destruct e. Qed.

Lemma append_empty_r s : s +:+ "" = s.
Proof.
  induction s as [|c s IH]; [done|].
  change (String c s +:+ "") with (String c (s +:+ "")). by rewrite IH.
Qed.

Lemma textContent_set css e :
  is_element e = true → textContent (set_textContent css e) = css.
Proof.
  destruct e as [|k t i a cs sh]; [done|]. intros _.
  unfold set_textContent. cbn.
  destruct (String.eqb css "") eqn:Hcss.
  - apply String.eqb_eq in Hcss. by subst.
  - cbn. apply append_empty_r.
Qed.

Lemma leaf_set_textContent css e :
  leaf e = true → leaf (set_textContent css e) = true.
Proof.
  destruct e as [|k t i a cs sh]; [done|].
  unfold leaf, set_textContent. cbn. rewrite !andb_true_iff. intros [_ Hsh].
  split; [|done]. by destruct (String.eqb css "").
Qed.

Lemma style_with_set css e :
  is_element e = true → leaf e = true → tagName_of e = "STYLE" →
  style_with css (set_textContent css e) = true.
Proof.
  intros Hel Hleaf Htag. unfold style_with.
  rewrite textContent_set, leaf_set_textContent, String.eqb_refl by done.
  destruct e; [done|]. cbn in *. by rewrite Htag.
Qed.

Lemma style_with_leaf css s : style_with css s = true → leaf s = true.
Proof. unfold style_with. rewrite !andb_true_iff. tauto. Qed.

Lemma style_with_attrs css k t i a a' cs sh :
  style_with css (Elem k t i a cs sh) = true →
  style_with css (Elem k t i a' cs sh) = true.
Proof. done. Qed.

Lemma styleElementId_prefix sfx :
  JsString.startsWith (styleElementId sfx) STYLE_OVERRIDE_TAG_ID = true.
Proof. reflexivity. Qed.

Lemma styleElementId_not_link sfx :
  String.eqb (styleElementId sfx) FONT_LINK_TAG_ID = false.
Proof. reflexivity. Qed.

Lemma owned_style e sfx :
  owned e = true → id_of e = styleElementId sfx →
  leaf e = true ∧ tagName_of e = "STYLE".
Proof.
  unfold owned. intros Hown Hid. rewrite Hid, styleElementId_prefix in Hown.
  apply andb_true_iff in Hown as [[? ?%String.eqb_eq]%andb_true_iff _]. done.
Qed.

Lemma owned_link e :
  owned e = true → id_of e = FONT_LINK_TAG_ID →
  leaf e = true ∧ tagName_of e = "LINK".
Proof.
  unfold owned. intros Hown Hid. rewrite Hid, String.eqb_refl in Hown.
  apply andb_true_iff in Hown as [_ [? ?%String.eqb_eq]%andb_true_iff]. done.
Qed.

Lemma owned_created_style k sfx css :
  owned (set_textContent css
           (Elem k "STYLE" (styleElementId sfx) [("type", "text/css")] [] None))
  = true.
Proof.
  unfold owned, set_textContent. cbn [id_of set_childNodes tagName_of].
  rewrite styleElementId_prefix, styleElementId_not_link.
  by destruct (String.eqb css "").
Qed.

Lemma owned_created_link k attrs :
  owned (Elem k "LINK" FONT_LINK_TAG_ID attrs [] None) = true.
Proof. reflexivity. Qed.

Lemma attr_get_set a n v : attr_get n (attr_set n v a) = Some v.
Proof.
  induction a as [|[n' v'] a IH]; cbn.
  - by rewrite String.eqb_refl.
  - destruct (String.eqb n' n) eqn:Hn; cbn; rewrite Hn; [done|apply IH].
Qed.

Lemma key_target n tgt k c :
  NoDup (keys n) → tgt ∈ all_elements n → key_of tgt = Some k →
  c ∈ all_elements n → key_of c = Some k → c = tgt.
Proof. intros. by eapply key_unique. Qed.

Lemma owned_inside n e :
  Forall (λ e, owned e = true) (all_elements n) → e ∈ all_elements n →
  Forall (λ e, owned e = true) (all_elements e).
Proof.
  rewrite !Forall_forall. intros Hown He x Hx. apply Hown.
  by eapply all_elements_trans.
Qed.

(** Replacing the text of an owned element *)

Lemma retext_well_formed css ek e html :
  NoDup (keys html) → Forall (λ e, owned e = true) (all_elements html) →
  e ∈ all_elements html → key_of e = Some ek → leaf e = true →
  keys (modify ek (set_textContent css) html) = keys html
  ∧ Forall (λ e, owned e = true)
           (all_elements (modify ek (set_textContent css) html)).
Proof.
  intros Hnd Hown He Hk Hleaf.
  assert (Hel : is_element e = true) by by destruct e.
  split.
  - apply keys_modify_same. intros c Hc Hkc.
    rewrite (key_target html e ek c) by done.
    rewrite (leaf_keys e ek), (leaf_keys _ ek); try done.
    + by destruct e.
    + by apply leaf_set_textContent.
  - apply owned_modify; [done|]. intros c Hc Hkc.
    rewrite (key_target html e ek c) by done.
    rewrite leaf_elements;
      [|by rewrite is_element_set_textContent|by apply leaf_set_textContent].
    constructor; [|done].
    eapply owned_shape; [| |by intros; apply leaf_set_textContent|].
    + by destruct e.
    + by destruct e.
    + rewrite Forall_forall in Hown. auto.
Qed.

Lemma retext_evolves G dir css ek e html :
  (∀ s, G s → leaf s = true) →
  (∀ k t i a a' cs sh, G (Elem k t i a cs sh) → G (Elem k t i a' cs sh)) →
  NoDup (keys html) → e ∈ all_elements html → key_of e = Some ek →
  leaf e = true → (G e → G (set_textContent css e)) →
  evolves G dir html (modify ek (set_textContent css) html).
Proof.
  intros HG1 HG2 Hnd He Hk Hleaf HG.
  apply evolves_modify; [done..|]. intros c Hc Hkc.
  rewrite (key_target html e ek c) by done.
  apply evolves_leaf; [by destruct e|done| |done].
  rewrite is_element_set_textContent. by destruct e.
Qed.

Lemma retext_styled css ek e html host hk kids :
  NoDup (keys html) → Forall (λ e, owned e = true) (all_elements html) →
  host ∈ all_elements html → key_of host = Some hk →
  shadowRoot_of host = Some kids → e ∈ querySelectorAll_star kids →
  key_of e = Some ek → leaf e = true → tagName_of e = "STYLE" →
  at_key (styled css) hk (modify ek (set_textContent css) html).
Proof.
  intros Hnd Hown Hhost Hhk Hkids He Hk Hleaf Htag.
  assert (HeT : e ∈ all_elements html).
  { eapply all_elements_trans; [exact Hhost|]. by eapply shadow_all_elements. }
  assert (Hel : is_element e = true) by by destruct e.
  set (G := λ s, style_with css s = true ∨ (key_of s = Some ek ∧ leaf s = true)).
  assert (HG1 : ∀ s, G s → leaf s = true).
  { intros s [?%style_with_leaf|[_ ?]]; done. }
  assert (HG2 : ∀ k t i a a' cs sh,
             G (Elem k t i a cs sh) → G (Elem k t i a' cs sh)).
  { intros k t i a a' cs sh [?|?]; [by left|by right]. }
  assert (Hev : evolves G "" html (modify ek (set_textContent css) html)).
  { apply (retext_evolves G "" css ek e); try done.
    intros _. left. by apply style_with_set. }
  destruct (retext_well_formed css ek e html) as [Hkeys _]; try done.
  destruct (ev_hosts _ _ _ _ Hev host Hhost) as (host' & Hhost' & Hk' & _ & Hs & _).
  { unfold is_host. by rewrite Hkids. }
  destruct Hs as (ss' & s' & Hss' & Hs' & HGs').
  { exists kids, e. repeat split; [done..|]. right. done. }
  exists host'. repeat split; [done|congruence|].
  exists ss', s'. repeat split; [done..|].
  destruct HGs' as [?|[Hks' _]]; [done|].
  assert (s' = set_textContent css e) as ->; [|by apply style_with_set].
  eapply (key_unique (modify ek (set_textContent css) html)).
  - by rewrite Hkeys.
  - eapply all_elements_trans; [exact Hhost'|]. by eapply shadow_all_elements.
  - apply modify_hit; try done. apply is_element_set_textContent.
  - done.
  - by destruct e.
Qed.

(** Inserting a created element *)

Lemma insert_well_formed r F nk html tgt :
  NoDup (keys html) → Forall (λ e, owned e = true) (all_elements html) →
  tgt ∈ all_elements html → key_of tgt = Some r →
  keys (F tgt) ≡ₚ nk :: keys tgt →
  Forall (λ e, owned e = true) (all_elements (F tgt)) →
  keys (modify r F html) ≡ₚ nk :: keys html
  ∧ Forall (λ e, owned e = true) (all_elements (modify r F html)).
Proof.
  intros Hnd Hown Htgt Hk Hkeys HownF. split.
  - apply keys_modify_insert; [done| |].
    + apply keys_spec. eauto.
    + intros c Hc Hkc. by rewrite (key_target html tgt r c).
  - apply owned_modify; [done|]. intros c Hc Hkc.
    by rewrite (key_target html tgt r c).
Qed.

Lemma insertBefore_keys shadow x nk tgt :
  keys x = [nk] → (shadow = true → is_host tgt = true) →
  is_element tgt = true →
  keys (insertBefore_firstChild shadow x tgt) ≡ₚ nk :: keys tgt.
Proof.
  intros Hx Hhost Hel. destruct tgt as [|k t i a cs sh]; [done|].
  destruct shadow.
  - specialize (Hhost eq_refl). destruct sh as [ss|]; [|done].
    cbn. rewrite Hx. cbn. rewrite <- Permutation_middle. apply perm_swap.
  - cbn. rewrite Hx. cbn. apply perm_swap.
Qed.

Lemma insertBefore_owned shadow x tgt :
  Forall (λ e, owned e = true) (all_elements tgt) →
  Forall (λ e, owned e = true) (all_elements x) →
  (shadow = true → is_host tgt = true) →
  (shadow = false → tagName_of tgt = "HEAD") →
  Forall (λ e, owned e = true)
         (all_elements (insertBefore_firstChild shadow x tgt)).
Proof.
  intros Hown Hx Hhost Hhead. destruct tgt as [|k t i a cs sh]; [by destruct shadow|].
  rewrite Forall_forall in Hown, Hx. apply Forall_forall.
  destruct shadow.
  - specialize (Hhost eq_refl). destruct sh as [ss|]; [|done].
    intros e [->|[(c & Hc & He)|(c & Hc & He)]]%all_elements_Elem.
    + apply (owned_free (Elem k t i a cs (Some ss))); [done|done| |].
      { left. unfold leaf. cbn. apply andb_false_r. }
      apply Hown, all_elements_Elem. by left.
    + apply Hown, all_elements_Elem. right; left. eauto.
    + cbn in Hc. apply elem_of_cons in Hc as [->|Hc]; [auto|].
      apply Hown, all_elements_Elem. right; right. eauto.
  - specialize (Hhead eq_refl). cbn in Hhead.
    intros e [->|[(c & Hc & He)|(c & Hc & He)]]%all_elements_Elem.
    + apply (owned_free (Elem k t i a cs sh)); [done|done|by right|].
      apply Hown, all_elements_Elem. by left.
    + apply elem_of_cons in Hc as [->|Hc]; [auto|].
      apply Hown, all_elements_Elem. right; left. eauto.
    + apply Hown, all_elements_Elem. right; right. eauto.
Qed.

Lemma appendChild_keys x nk tgt :
  keys x = [nk] → is_element tgt = true →
  keys (set_childNodes (childNodes_of tgt ++ [x]) tgt) ≡ₚ nk :: keys tgt.
Proof.
  intros Hx Hel. destruct tgt as [|k t i a cs sh]; [done|].
  cbn. rewrite flat_map_app. cbn. rewrite Hx. cbn.
  rewrite <- app_assoc. cbn. rewrite <- Permutation_middle. apply perm_swap.
Qed.

Lemma appendChild_owned x tgt :
  Forall (λ e, owned e = true) (all_elements tgt) →
  Forall (λ e, owned e = true) (all_elements x) →
  tagName_of tgt = "HEAD" →
  Forall (λ e, owned e = true)
         (all_elements (set_childNodes (childNodes_of tgt ++ [x]) tgt)).
Proof.
  intros Hown Hx Hhead. destruct tgt as [|k t i a cs sh]; [done|].
  rewrite Forall_forall in Hown, Hx. apply Forall_forall. cbn in Hhead.
  intros e [->|[(c & Hc & He)|(c & Hc & He)]]%all_elements_Elem.
  - apply (owned_free (Elem k t i a cs sh)); [done|done|by right|].
    apply Hown, all_elements_Elem. by left.
  - apply elem_of_app in Hc as [Hc| ->%list_elem_of_singleton]; [|auto].
    apply Hown, all_elements_Elem. right; left. eauto.
  - apply Hown, all_elements_Elem. right; right. eauto.
Qed.

Lemma insert_styled css r x html tgt :
  NoDup (keys html) → tgt ∈ all_elements html → key_of tgt = Some r →
  is_host tgt = true → is_element x = true → style_with css x = true →
  at_key (styled css) r (modify r (insertBefore_firstChild true x) html).
Proof.
  intros Hnd Htgt Hk Hhost Hel Hx.
  exists (insertBefore_firstChild true x tgt). split.
  { apply modify_hit; try done. intros c. apply is_element_insertBefore. }
  destruct tgt as [|k t i a cs [ss|]]; try done. split; [done|].
  exists (x :: ss), x. repeat split; [|done].
  unfold querySelectorAll_star. cbn. apply elem_of_app. left.
  destruct x; [done|]. apply subtree_elements_Elem. by left.
Qed.

(** Setting the [dir] attribute *)

Lemma setAttribute_well_formed k name value html :
  Forall (λ e, owned e = true) (all_elements html) →
  keys (modify k (setAttribute name value) html) = keys html
  ∧ Forall (λ e, owned e = true)
           (all_elements (modify k (setAttribute name value) html)).
Proof.
  intros Hown. split.
  - apply keys_modify_same. intros c _ _. by destruct c.
  - apply owned_modify; [done|]. intros c Hc _.
    pose proof (owned_inside html c Hown Hc) as Hc'.
    destruct c as [|k' t i a cs sh]; [done|].
    rewrite Forall_forall in Hc'. apply Forall_forall.
    intros e [->|He]%all_elements_Elem.
    + apply (owned_shape (Elem k' t i a cs sh)); [done|done|done|].
      apply Hc', all_elements_Elem. by left.
    + apply Hc', all_elements_Elem. by right.
Qed.

Lemma setAttribute_dir k dir html :
  NoDup (keys html) → at_key (λ e, is_host e = true) k html →
  at_key (λ e, is_host e = true ∧ getAttribute "dir" e = Some dir) k
         (modify k (setAttribute "dir" dir) html).
Proof.
  intros Hnd (e & He & Hk & Hhost).
  exists (setAttribute "dir" dir e). split.
  { apply modify_hit; try done. intros c. apply is_element_setAttribute. }
  destruct e as [|k' t i a cs sh]; [done|]. repeat split; [done..|].
  unfold getAttribute. cbn. apply attr_get_set.
Qed.

Lemma setAttribute_root a v n :
  ∃ k, setAttribute a v n = modify k (setAttribute a v) n.
Proof.
  destruct n as [d|k t i a' cs sh]; [by exists 0|].
  exists k. cbn. by rewrite Nat.eqb_refl.
Qed.

(** The head of the document *)

Lemma document_head_Some n h :
  document_head n = Some h →
  h ∈ childNodes_of n ∧ is_element h = true ∧ tagName_of h = "HEAD".
Proof.
  unfold document_head, children. intros Hf.
  apply find_some in Hf as [Hin Htag].
  apply list_elem_of_In, list_elem_of_filter in Hin as [Hel Hin].
  by apply String.eqb_eq in Htag.
Qed.

Lemma document_head_found n h :
  h ∈ childNodes_of n → is_element h = true → tagName_of h = "HEAD" →
  is_Some (document_head n).
Proof.
  intros Hin Hel Htag. unfold document_head.
  destruct (find _ _) eqn:Hf; [done|].
  eapply find_none in Hf.
  - erewrite Htag in Hf. done.
  - apply list_elem_of_In, list_elem_of_filter. done.
Qed.

End Edits.

(** ** The steps of [applyPageStyles] *)

Section Steps.
Import Dom Props Content.

Lemma html_of_with_randomCalls n st :
  html_of (with_randomCalls n st) = html_of st.
Proof. reflexivity. Qed.

Lemma html_of_with_html n st : html_of (with_html n st) = n.
Proof. reflexivity. Qed.

Lemma well_formed_html st :
  well_formed (doc st) →
  NoDup (keys (html_of st))
  ∧ Forall (λ k, k < nextKey (doc st)) (keys (html_of st))
  ∧ Forall (λ e, owned e = true) (all_elements (html_of st)).
Proof. by intros [? ? ?]. Qed.

Lemma well_formed_same st st' :
  well_formed (doc st) → nextKey (doc st') = nextKey (doc st) →
  keys (html_of st') = keys (html_of st) →
  Forall (λ e, owned e = true) (all_elements (html_of st')) →
  well_formed (doc st').
Proof.
  intros [Hnd Hfresh _] Hnext Hkeys Hown. unfold html_of in *.
  split; [by rewrite Hkeys|by rewrite Hkeys, Hnext|done].
Qed.

Lemma well_formed_insert st st' :
  well_formed (doc st) → nextKey (doc st') = S (nextKey (doc st)) →
  keys (html_of st') ≡ₚ nextKey (doc st) :: keys (html_of st) →
  Forall (λ e, owned e = true) (all_elements (html_of st')) →
  well_formed (doc st').
Proof.
  intros [Hnd Hfresh _] Hnext Hkeys Hown. unfold html_of in *.
  split; [| |done].
  - rewrite Hkeys. apply NoDup_cons. split; [|done].
    intros Hin. rewrite Forall_forall in Hfresh. specialize (Hfresh _ Hin). lia.
  - rewrite Hkeys, Hnext. constructor; [lia|].
    eapply Forall_impl; [exact Hfresh|]. cbn. lia.
Qed.

Lemma applyStylesToRoot_shadow_step randomSuffix dir hk t st :
  String.eqb (cssRules false t) "" = false →
  well_formed (doc st) →
  ∃ st', applyStylesToRoot randomSuffix (ShadowRoot hk) t st = (st', Normal tt)
    ∧ well_formed (doc st')
    ∧ evolves (λ s, style_with (cssRules false t) s = true) dir
              (html_of st) (html_of st')
    ∧ (at_key (λ e, is_host e = true) hk (html_of st) →
       at_key (styled (cssRules false t)) hk (html_of st')).
Proof.
  intros Hcss Hwf. destruct (well_formed_html st Hwf) as (Hnd & Hfresh & Hown).
  unfold applyStylesToRoot, bind, read, update, ret, throw.
  change (negb true) with false.
  set (css := cssRules false t) in *.
  set (st1 := with_randomCalls (S (randomCalls st)) st).
  change (html_of st1) with (html_of st).
  set (html := html_of st) in *.
  assert (Hev1 : ∀ n, evolves (λ s, style_with css s = true) dir n n).
  { intros n. apply evolves_refl. }
  destruct (lookup_key hk html) as [host|] eqn:Hlk.
  2: { exists st1. split; [done|]. split; [exact Hwf|]. split; [apply Hev1|].
       intros (e & He & Hk & _).
       destruct (lookup_key_complete hk html e He Hk) as [? ?]. congruence. }
  destruct (lookup_key_sound _ _ _ Hlk) as [Hhost Hhk].
  unfold root_childNodes. rewrite Hlk.
  change (negb true) with false. fold css.
  set (id := styleElementId _).
  destruct (shadowRoot_of host) as [kids|] eqn:Hkids.
  2: { exists st1. split; [done|]. split; [exact Hwf|]. split; [apply Hev1|].
       intros (e & He & Hk & Hh).
       rewrite (key_target html host hk e) in Hh by done.
       unfold is_host in Hh. by rewrite Hkids in Hh. }
  rewrite Hcss. cbn [negb].
  destruct (querySelector_id id kids) as [e|] eqn:Hq.
  - apply find_some in Hq as [He Hid].
    apply list_elem_of_In in He. apply String.eqb_eq in Hid.
    assert (HeT : e ∈ all_elements html).
    { eapply all_elements_trans; [exact Hhost|]. by eapply shadow_all_elements. }
    destruct (owned_style e _ (proj1 (Forall_forall _ _) Hown e HeT) Hid)
      as [Hleaf Htag].
    destruct (key_of_element e (all_elements_is_element _ _ HeT)) as [ek Hek].
    rewrite Hek.
    destruct (String.eqb (textContent e) css) eqn:Htc; cbn [negb].
    + exists st1. split; [done|]. split; [exact Hwf|]. split; [apply Hev1|].
      intros _. exists host. repeat split; [done..|].
      exists kids, e. repeat split; [done..|].
      unfold style_with. rewrite Htag, Htc, Hleaf. done.
    + eexists. split; [done|]. rewrite html_of_with_html.
      change (html_of st1) with html.
      destruct (retext_well_formed css ek e html) as [Hkeys Hown']; try done.
      split; [|split].
      * by apply (well_formed_same st).
      * apply (retext_evolves _ dir css ek e); try done.
        -- apply style_with_leaf.
        -- intros _. by apply style_with_set; [destruct e|..].
      * intros _. by apply (retext_styled css ek e html host hk kids).
  - cbn [createElement]. eexists. split; [done|]. rewrite html_of_with_html.
    change (html_of (with_doc _ st1)) with html.
    change (nextKey (doc st1)) with (nextKey (doc st)).
    set (x := set_textContent css (Elem (nextKey (doc st)) "STYLE" id _ [] None)).
    assert (Hhosting : is_host host = true).
    { unfold is_host. by rewrite Hkids. }
    assert (Hx : all_elements x = [x]).
    { apply leaf_elements; [done|]. by apply leaf_set_textContent. }
    destruct (insert_well_formed hk (insertBefore_firstChild true x)
                (nextKey (doc st)) html host) as [Hkeys Hown']; try done.
    { apply insertBefore_keys; [|done|by destruct host].
      apply leaf_keys; [done|]. by apply leaf_set_textContent. }
    { apply insertBefore_owned; [by eapply owned_inside| |done|done].
      rewrite Hx. constructor; [|done]. apply owned_created_style. }
    split; [|split].
    + by apply (well_formed_insert st).
    + apply evolves_modify; [apply style_with_leaf|done|].
      intros c _ _. apply evolves_insertBefore; [apply style_with_leaf|done].
    + intros _. eapply insert_styled; try done.
      by apply style_with_set.
Qed.

Lemma light_all_elements e x :
  x ∈ querySelectorAll_star (childNodes_of e) → x ∈ all_elements e.
Proof.
  destruct e as [d|k t i a cs sh]; [by intros ?%elem_of_nil|].
  unfold querySelectorAll_star. cbn. rewrite elem_of_flat_map.
  intros (c & Hc & Hx). apply all_elements_Elem. right; left.
  exists c. split; [done|]. by apply subtree_elements_all.
Qed.

Lemma applyStylesToRoot_head_step randomSuffix dir t st :
  String.eqb (cssRules true t) "" = false →
  well_formed (doc st) → is_Some (document_head (html_of st)) →
  ∃ st', applyStylesToRoot randomSuffix
           (DocumentHead (match document_head (html_of st) with
                          | Some h => key_of h
                          | None => None
                          end)) t st = (st', Normal tt)
    ∧ well_formed (doc st')
    ∧ evolves (λ _, False) dir (html_of st) (html_of st').
Proof.
  intros Hcss Hwf [h Hhead].
  destruct (well_formed_html st Hwf) as (Hnd & Hfresh & Hown).
  rewrite Hhead. destruct (document_head_Some _ _ Hhead) as (Hch & Hel & Htag).
  destruct (key_of_element h Hel) as [hk Hhk]. rewrite Hhk.
  pose proof (child_all_elements _ _ Hch Hel) as HhT.
  unfold applyStylesToRoot, bind, read, update, ret, throw.
  change (negb false) with true.
  set (css := cssRules true t) in *.
  set (st1 := with_randomCalls (S (randomCalls st)) st).
  change (html_of st1) with (html_of st).
  set (html := html_of st) in *.
  assert (HG1 : ∀ s : node, False → leaf s = true) by done.
  assert (HG2 : ∀ (k : key) (t i : string) (a a' : list (string * string))
                  (cs : list node) (sh : option (list node)), False → False)
    by done.
  unfold root_childNodes. rewrite (lookup_key_unique hk html h) by done.
  change (negb false) with true. fold css.
  rewrite Hcss. cbn [negb].
  set (id := styleElementId _).
  destruct (querySelector_id id (childNodes_of h)) as [e|] eqn:Hq.
  - apply find_some in Hq as [He Hid].
    apply list_elem_of_In in He. apply String.eqb_eq in Hid.
    assert (HeT : e ∈ all_elements html).
    { eapply all_elements_trans; [exact HhT|]. by apply light_all_elements. }
    destruct (owned_style e "document" (proj1 (Forall_forall _ _) Hown e HeT) Hid)
      as [Hleaf Htage].
    destruct (key_of_element e (all_elements_is_element _ _ HeT)) as [ek Hek].
    rewrite Hek.
    destruct (String.eqb (textContent e) css) eqn:Htc; cbn [negb].
    + exists st1. split; [done|]. split; [exact Hwf|]. apply evolves_refl.
    + eexists. split; [done|]. rewrite html_of_with_html.
      change (html_of st1) with html.
      destruct (retext_well_formed css ek e html) as [Hkeys Hown']; try done.
      split.
      * by apply (well_formed_same st).
      * by apply (retext_evolves _ dir css ek e).
  - cbn [createElement]. eexists. split; [done|]. rewrite html_of_with_html.
    change (html_of (with_doc _ st1)) with html.
    change (nextKey (doc st1)) with (nextKey (doc st)).
    set (x := set_textContent css (Elem (nextKey (doc st)) "STYLE" id _ [] None)).
    assert (Hx : all_elements x = [x]).
    { apply leaf_elements; [done|]. by apply leaf_set_textContent. }
    destruct (insert_well_formed hk (insertBefore_firstChild false x)
                (nextKey (doc st)) html h) as [Hkeys Hown']; try done.
    { apply insertBefore_keys; [|done|done].
      apply leaf_keys; [done|]. by apply leaf_set_textContent. }
    { apply insertBefore_owned; [by eapply owned_inside| |done|done].
      rewrite Hx. constructor; [|done]. apply owned_created_style. }
    split.
    + by apply (well_formed_insert st).
    + apply evolves_modify; [done..|].
      intros c _ _. apply evolves_insertBefore; [done|]. by intros _ [].
Qed.

Lemma well_formed_sublist st st' :
  well_formed (doc st) → nextKey (doc st') = nextKey (doc st) →
  keys (html_of st') `sublist_of` keys (html_of st) →
  Forall (λ e, owned e = true) (all_elements (html_of st')) →
  well_formed (doc st').
Proof.
  intros [Hnd Hfresh _] Hnext Hkeys Hown. unfold html_of in *.
  split; [by eapply sublist_NoDup| |done].
  rewrite Hnext. rewrite Forall_forall in Hfresh |- *.
  intros k Hk. apply Hfresh. by eapply elem_of_sublist.
Qed.

Lemma loadGoogleFont_step dir fontName fontWeight st :
  string_or_falsy fontName → string_or_falsy fontWeight →
  well_formed (doc st) → is_Some (document_head (html_of st)) →
  ∃ st', loadGoogleFont fontName fontWeight st = (st', Normal tt)
    ∧ well_formed (doc st')
    ∧ is_Some (document_head (html_of st'))
    ∧ evolves (λ _, False) dir (html_of st) (html_of st').
Proof.
  intros Hfont Hweight Hwf [h Hhead].
  destruct (well_formed_html st Hwf) as (Hnd & Hfresh & Hown).
  destruct (document_head_Some _ _ Hhead) as (Hch & Hel & Htag).
  destruct (key_of_element h Hel) as [hk Hhk].
  pose proof (child_all_elements _ _ Hch Hel) as HhT.
  assert (HG1 : ∀ s : node, False → leaf s = true) by done.
  assert (HG2 : ∀ (k : key) (t i : string) (a a' : list (string * string))
                  (cs : list node) (sh : option (list node)), False → False)
    by done.
  unfold loadGoogleFont, bind, read, update, ret, throw.
  rewrite Hhead, Hhk.
  (* 1. the existing link is removed *)
  match goal with
  | |- ∃ st', (let (_, _) := ?m in _) = _ ∧ _ =>
      assert (∃ st_a, m = (st_a, Normal tt) ∧ well_formed (doc st_a)
                ∧ evolves (λ _, False) dir (html_of st) (html_of st_a)
                ∧ ∃ h', h' ∈ childNodes_of (html_of st_a)
                        ∧ key_of h' = Some hk ∧ tagName_of h' = "HEAD")
        as (st_a & -> & Hwf_a & Hev_a & h' & Hch' & Hhk' & Htag')
  end.
  { destruct (getElementById FONT_LINK_TAG_ID (html_of st)) as [e|] eqn:Hget.
    2: { exists st. split; [done|]. split; [done|]. split; [apply evolves_refl|].
         by exists h. }
    apply find_some in Hget as [He Hid].
    apply list_elem_of_In, subtree_elements_all in He.
    apply String.eqb_eq in Hid.
    destruct (owned_link e (proj1 (Forall_forall _ _) Hown e He) Hid)
      as [Hleaf Htage].
    destruct (key_of_element e (all_elements_is_element _ _ He)) as [ek Hek].
    rewrite Hek. eexists. split; [done|]. rewrite html_of_with_html.
    split; [|split].
    - apply (well_formed_sublist st); [done|done| |].
      + rewrite html_of_with_html. apply keys_remove.
      + rewrite html_of_with_html. by apply owned_remove.
    - apply evolves_remove; [done|]. intros c Hc Hkc.
      rewrite (key_target (html_of st) e ek c) by done. split; [done|tauto].
    - exists (remove ek h). split; [|by destruct h].
      destruct (html_of st) as [|k0 t0 i0 a0 cs sh]; [by apply elem_of_nil in Hch|].
      cbn in Hch |- *. apply remove_kept; [done|].
      destruct (has_key ek h) eqn:Hhas; [|done].
      apply has_key_true in Hhas.
      rewrite (key_target _ e ek h) in Htag by done. congruence. }
  destruct (well_formed_html st_a Hwf_a) as (Hnd_a & Hfresh_a & Hown_a).
  assert (Hhead_a : is_Some (document_head (html_of st_a))).
  { apply (document_head_found _ h'); [done| |done]. by destruct h'. }
  assert (Hkeep : ∀ s, ∃ st', sessionStore_remove s st_a = (st', Normal tt)
            ∧ well_formed (doc st')
            ∧ is_Some (document_head (html_of st'))
            ∧ evolves (λ _, False) dir (html_of st) (html_of st')).
  { intros s. eexists. split; [done|]. done. }
  (* 2. no font, or a system font *)
  destruct (truthy fontName) eqn:Htruthy; cbn [negb]; [|apply Hkeep].
  destruct (array_includes systemFonts fontName); [apply Hkeep|].
  destruct (Hfont Htruthy) as [name ->].
  (* 3. the weight parameter *)
  match goal with
  | |- ∃ st', (let (_, _) := ?m in _) = _ ∧ _ =>
      assert (∃ weightParam, m = (st_a, Normal weightParam)) as [weightParam ->]
  end.
  { destruct (truthy fontWeight) eqn:Hw; [|by eexists].
    destruct (Hweight Hw) as [w ->].
    destruct (negb _); [|by eexists].
    destruct (table_get name variableFontsFullRange); [by eexists|].
    destruct (table_get name specificWeightsFonts); [by eexists|].
    destruct (negb _); by eexists. }
  (* 4. the link is appended to the head *)
  cbn [createElement]. eexists. split; [done|]. rewrite html_of_with_html.
  change (html_of (with_doc _ st_a)) with (html_of st_a).
  set (link := Elem (nextKey (doc st_a)) "LINK" FONT_LINK_TAG_ID _ [] None).
  set (appendChild := λ n, set_childNodes (childNodes_of n ++ [link]) n).
  assert (Hel' : is_element h' = true) by by destruct h'.
  pose proof (child_all_elements _ _ Hch' Hel') as HhT'.
  destruct (insert_well_formed hk appendChild (nextKey (doc st_a))
              (html_of st_a) h') as [Hkeys Hown']; try done.
  { by apply appendChild_keys. }
  { apply appendChild_owned; [by eapply owned_inside| |done].
    constructor; [|done]. apply owned_created_link. }
  split; [|split].
  - by apply (well_formed_insert st_a).
  - destruct (html_of st_a) as [|k0 t0 i0 a0 cs sh];
      [by apply elem_of_nil in Hch'|].
    cbn [modify]. destruct (k0 =? hk).
    + apply (document_head_found _ h'); [|done..].
      cbn. apply elem_of_app. by left.
    + apply (document_head_found _ (appendChild h')).
      * cbn. apply list_elem_of_fmap. exists h'. split; [|done].
        destruct h' as [|k1 t1 i1 a1 cs1 sh1]; [done|].
        injection Hhk' as ->. cbn. by rewrite Nat.eqb_refl.
      * by destruct h'.
      * by destruct h'.
  - eapply evolves_trans; [exact Hev_a|].
    apply evolves_modify; [done..|]. intros c _ _.
    apply evolves_children; [tauto|]. intros y Hy. apply elem_of_app. by left.
Qed.

Lemma set_dir_on_step css dir k st :
  well_formed (doc st) →
  ∃ st', set_dir_on k dir st = (st', Normal tt)
    ∧ well_formed (doc st')
    ∧ evolves (λ s, style_with css s = true) dir (html_of st) (html_of st')
    ∧ (at_key (λ e, is_host e = true) k (html_of st) →
       at_key (λ e, is_host e = true ∧ getAttribute "dir" e = Some dir) k
              (html_of st')).
Proof.
  intros Hwf. destruct (well_formed_html st Hwf) as (Hnd & Hfresh & Hown).
  eexists. split; [done|]. rewrite html_of_with_html.
  destruct (setAttribute_well_formed k "dir" dir (html_of st) Hown)
    as [Hkeys Hown'].
  split; [|split].
  - by apply (well_formed_same st).
  - apply evolves_modify; [apply style_with_leaf|done|].
    intros c _ _. apply evolves_setAttribute; [apply style_with_leaf|done].
  - by apply setAttribute_dir.
Qed.

Lemma forEach_steps G dir (f : key → M unit) (E : key → node → Prop) :
  (∀ k st, well_formed (doc st) →
     ∃ st', f k st = (st', Normal tt) ∧ well_formed (doc st')
       ∧ evolves G dir (html_of st) (html_of st')
       ∧ (at_key (λ e, is_host e = true) k (html_of st) → E k (html_of st'))) →
  (∀ k n n', evolves G dir n n' → E k n → E k n') →
  ∀ l st, well_formed (doc st) →
    ∃ st', forEach l f st = (st', Normal tt) ∧ well_formed (doc st')
      ∧ evolves G dir (html_of st) (html_of st')
      ∧ ∀ k, k ∈ l → at_key (λ e, is_host e = true) k (html_of st) →
             E k (html_of st').
Proof.
  intros Hstep Hmono. induction l as [|x l IH]; intros st Hwf.
  - exists st. split; [done|]. split; [done|]. split; [apply evolves_refl|].
    by intros k ?%elem_of_nil.
  - destruct (Hstep x st Hwf) as (st1 & H1 & Hwf1 & Hev1 & HE1).
    destruct (IH st1 Hwf1) as (st' & H' & Hwf' & Hev' & HE').
    exists st'. cbn [forEach]. unfold bind. rewrite H1.
    split; [done|]. split; [done|]. split; [by eapply evolves_trans|].
    intros k [->|Hk]%elem_of_cons Hhost.
    + eapply Hmono; [exact Hev'|]. auto.
    + apply HE'; [done|]. by eapply at_key_host_evolves.
Qed.

Lemma includes_app_r x y sub :
  JsString.includes y sub = true → JsString.includes (x +:+ y) sub = true.
Proof.
  intros Hy. induction x as [|c x IH]; [done|].
  change (String c x +:+ y) with (String c (x +:+ y)).
  cbn [JsString.includes]. rewrite IH. apply orb_true_r.
Qed.

Lemma cssRules_direction b t :
  direction t = VStr "rtl" →
  JsString.includes (cssRules b t) "direction: rtl !important;" = true.
Proof.
  intros Hdir. unfold cssRules. cbv zeta. rewrite Hdir.
  apply includes_app_r, includes_app_r. reflexivity.
Qed.

Lemma cssRules_nonempty b t :
  direction t = VStr "rtl" → String.eqb (cssRules b t) "" = false.
Proof.
  intros Hdir. pose proof (cssRules_direction b t Hdir) as Hinc.
  destruct (cssRules b t); [discriminate|done].
Qed.

End Steps.

(** ** Shadow DOM coverage (C3) *)

Section ShadowCoverage.
Import Dom Props Content.

Variable randomSuffix : nat → string.

(** C3.  On a well-formed page with a head, applying a tuple whose
    direction is ["rtl"] (font and font weight being strings or empty)
    returns normally; the traversal of [getAllShadowRoots] finds every
    shadow host of the page, those inside other shadow trees included;
    afterwards every such host carries [dir="rtl"] and its shadow tree
    holds a [style] element whose text is the rule set of the tuple, which
    contains the declaration [direction: rtl !important;]. *)
Theorem C3_every_shadow_root_styled_and_rtl t st :
  well_formed (doc st) → is_Some (document_head (html_of st)) →
  direction t = VStr "rtl" →
  string_or_falsy (font t) → string_or_falsy (fontWeight t) →
  ∃ st', applyPageStyles randomSuffix t st = (st', Normal tt)
    ∧ JsString.includes (cssRules false t) "direction: rtl !important;" = true
    ∧ ∀ h k, h ∈ all_elements (html_of st) → key_of h = Some k →
             is_host h = true →
        k ∈ getAllShadowRoots (html_of st)
        ∧ ∃ h', h' ∈ all_elements (html_of st') ∧ key_of h' = Some k
                ∧ getAttribute "dir" h' = Some "rtl"
                ∧ styled (cssRules false t) h'.
Proof.
  intros Hwf Hhead Hdir Hfont Hweight.
  set (css := cssRules false t).
  set (G := λ s, style_with css s = true).
  set (st0 := with_applyCalls (applyCalls st ++ [t]) (with_currentApplied t st)).
  destruct (loadGoogleFont_step "rtl" (font t) (fontWeight t) st0)
    as (st1 & H1 & Hwf1 & Hhead1 & Hev1); try done.
  destruct (applyStylesToRoot_head_step randomSuffix "rtl" t st1)
    as (st2 & H2 & Hwf2 & Hev2); try done.
  { by apply cssRules_nonempty. }
  destruct (forEach_steps G "rtl"
              (λ shadowRoot, applyStylesToRoot randomSuffix (ShadowRoot shadowRoot) t)
              (at_key (styled css))
              (λ k s, applyStylesToRoot_shadow_step randomSuffix "rtl" k t s
                        (cssRules_nonempty false t Hdir))
              (λ k n n', at_key_holds_evolves G "rtl" k n n')
              (getAllShadowRoots (html_of st2)) st2 Hwf2)
    as (st3 & H3 & Hwf3 & Hev3 & Hstyled3).
  destruct (setAttribute_root "dir" "rtl" (html_of st3)) as [k0 Hroot].
  destruct (set_dir_on_step css "rtl" k0 st3 Hwf3)
    as (st4 & H4 & Hwf4 & Hev4 & _).
  assert (∃ st5,
    match document_body (html_of st4) with
    | Some b => match key_of b with
                | Some bk => set_dir_on bk "rtl"
                | None => ret tt
                end
    | None => ret tt
    end st4 = (st5, Normal tt)
    ∧ well_formed (doc st5) ∧ evolves G "rtl" (html_of st4) (html_of st5))
    as (st5 & H5 & Hwf5 & Hev5).
  { destruct (document_body (html_of st4)) as [b|].
    2: { exists st4. split; [done|]. split; [done|]. apply evolves_refl. }
    destruct (key_of b) as [bk|].
    2: { exists st4. split; [done|]. split; [done|]. apply evolves_refl. }
    destruct (set_dir_on_step css "rtl" bk st4 Hwf4) as (st5 & ? & ? & ? & _).
    by exists st5. }
  destruct (forEach_steps G "rtl" (λ root, set_dir_on root "rtl")
              (at_key (λ e, is_host e = true ∧ getAttribute "dir" e = Some "rtl"))
              (λ k s, set_dir_on_step css "rtl" k s)
              (λ k n n', at_key_dir_evolves G "rtl" k n n')
              (getAllShadowRoots (html_of st5)) st5 Hwf5)
    as (st6 & H6 & Hwf6 & Hev6 & Hdir6).
  exists st6. split; [|split].
  - unfold applyPageStyles, bind, read, update. cbv beta iota. fold st0.
    rewrite H1. cbv beta iota. rewrite H2. cbv beta iota. rewrite H3.
    cbv beta iota. rewrite Hdir.
    change (truthy (VStr "rtl")) with true. change (ToString (VStr "rtl")) with "rtl".
    cbv beta iota. rewrite Hroot.
    unfold set_dir_on, update in H4. injection H4 as H4. rewrite H4.
    rewrite H5. exact H6.
  - by apply cssRules_direction.
  - intros h k Hh Hk Hhost.
    destruct (well_formed_html st Hwf) as (Hnd & _ & _).
    split; [by eapply getAllShadowRoots_complete|].
    assert (Hk0 : at_key (λ e, is_host e = true) k (html_of st0)).
    { by exists h. }
    assert (Hk2 : at_key (λ e, is_host e = true) k (html_of st2)).
    { eapply at_key_host_evolves; [exact Hev2|].
      eapply at_key_host_evolves; [exact Hev1|done]. }
    assert (Hin2 : k ∈ getAllShadowRoots (html_of st2)).
    { destruct Hk2 as (e & ? & ? & ?).
      destruct (well_formed_html st2 Hwf2) as (? & _ & _).
      by eapply getAllShadowRoots_complete. }
    assert (Hk5 : at_key (λ e, is_host e = true) k (html_of st5)).
    { eapply at_key_host_evolves; [exact Hev5|].
      eapply at_key_host_evolves; [exact Hev4|].
      eapply at_key_host_evolves; [exact Hev3|done]. }
    assert (Hin5 : k ∈ getAllShadowRoots (html_of st5)).
    { destruct Hk5 as (e & ? & ? & ?).
      destruct (well_formed_html st5 Hwf5) as (? & _ & _).
      by eapply getAllShadowRoots_complete. }
    assert (Hs6 : at_key (styled css) k (html_of st6)).
    { eapply at_key_holds_evolves; [exact Hev6|].
      eapply at_key_holds_evolves; [exact Hev5|].
      eapply at_key_holds_evolves; [exact Hev4|]. auto. }
    destruct Hs6 as (h1 & Hh1 & Hk1 & Hstyled).
    destruct (Hdir6 k Hin5 Hk5) as (h2 & Hh2 & Hk2' & _ & Hattr).
    destruct (well_formed_html st6 Hwf6) as (Hnd6 & _ & _).
    assert (h2 = h1) as -> by by eapply key_unique.
    by exists h1.
Qed.

End ShadowCoverage.

(** ** The Style Injector: start, reset and the clock *)

Section ContentMore.
Import Dom Content Props.

Variable randomSuffix : nat → string.

Local Abbreviation fire_due := (Content.fire_due randomSuffix).
Local Abbreviation advance := (Content.advance randomSuffix).
Local Abbreviation deliver_burst := (Content.deliver_burst randomSuffix).

Lemma resetPageStyles_control st :
  let st' := fst (resetPageStyles randomSuffix st) in
  currentApplied st' = null_tuple
  ∧ applyCalls st' = applyCalls st
  ∧ timers st' = timers st
  ∧ mutationDebounceTimeout st' = mutationDebounceTimeout st
  ∧ observer st' = observer st.
Proof.
  cbn zeta. unfold resetPageStyles.
  set (rest := bind (loadGoogleFont _ _) _).
  assert (Hrest : keeps_control rest).
  { unfold rest.
    pose proof keeps_loadGoogleFont. pose proof keeps_applyStylesToRoot.
    pose proof keeps_remove_dir_on.
    repeat first
      [ done | apply keeps_ret | apply keeps_read
      | apply keeps_forEach; intros ?
      | apply keeps_bind; [|intros ?]
      | apply keeps_update; intros ?; apply keeps_with_html
      | match goal with
        | |- keeps_control (match ?x with _ => _ end) => destruct x
        | |- keeps_control (if ?b then _ else _) => destruct b
        | |- keeps_control (let _ := _ in _) => cbn zeta
        end ]. }
  unfold bind at 1. unfold update at 1.
  destruct (Hrest (with_currentApplied null_tuple st)) as [].
  cbn in *. repeat split; congruence.
Qed.

(** X1.  [loadAndApplyInitialStyles] never throws and always leaves the
    observer connected, whatever the store answers and whatever happens
    while the record is applied. *)
Theorem loadAndApplyInitialStyles_connects_observer stored st :
  snd (loadAndApplyInitialStyles randomSuffix stored st) = Normal tt
  ∧ observer (fst (loadAndApplyInitialStyles randomSuffix stored st)) = true.
Proof. unfold loadAndApplyInitialStyles, startObservingDOM, update. done. Qed.

(** X2.  When the store cannot be read at the start, nothing is applied:
    the page is left as it is, the failure is reported on the console
    and the observer is connected. *)
Theorem loadAndApplyInitialStyles_read_failure error st :
  let st' := fst (loadAndApplyInitialStyles randomSuffix (Throw error) st) in
  doc st' = doc st
  ∧ applyCalls st' = applyCalls st
  ∧ currentApplied st' = currentApplied st
  ∧ console st'
    = console st
      ++ [ConsoleError ("[FontChanger] Error loading initial styles: " +:+ error)]
  ∧ observer st' = true.
Proof. done. Qed.

(** X3.  After [resetPageStyles] no override is current, so nothing is
    re-applied any more: whatever batches of mutations arrive and however
    long one waits, [applyPageStyles] is not called again. *)
Theorem reset_stops_reapplying st times T :
  let st' := fst (resetPageStyles randomSuffix st) in
  currentApplied st' = null_tuple
  ∧ applyCalls (advance T (deliver_burst times st')) = applyCalls st.
Proof.
  cbn zeta.
  destruct (resetPageStyles_control st) as (Hcur & Hcalls & _).
  split; [done|].
  assert (Hidle : any_truthy (currentApplied (fst (resetPageStyles randomSuffix st)))
                  = false) by by rewrite Hcur.
  destruct (deliver_burst_idle randomSuffix times _ Hidle) as (_ & _ & Hc1 & Hcur1 & _).
  assert (Hidle1 : any_truthy
            (currentApplied (deliver_burst times (fst (resetPageStyles randomSuffix st))))
            = false) by by rewrite Hcur1.
  destruct (advance_idle randomSuffix T _ Hidle1) as (_ & _ & Hc2 & _).
  congruence.
Qed.

(** X4.  A request whose action is neither [applyStyles] nor
    [resetStyles] is left to other listeners: nothing is answered, the
    listener returns [false] and the page and the state of the script
    are untouched. *)
Theorem onMessage_ignores_other_actions request st :
  strict_eq_str (get request "action") "applyStyles" = false →
  strict_eq_str (get request "action") "resetStyles" = false →
  onMessage randomSuffix request st = (st, Normal (None, false)).
Proof. intros H1 H2. unfold onMessage. by rewrite H1, H2. Qed.





End ContentMore.

(** ** Export and import: the other outcomes *)

Section ExportImportMore.
Import Browser Settings Props.

Variable P : platform.

(** X6.  An export of a store that holds no site record and no global
    key downloads nothing: the world is left as it is and the status
    line shows the text of [exportNoSettingsMessage]. *)
Theorem export_without_settings_downloads_nothing pg w shown :
  sync_get_error P = None →
  (∀ key, backed_up key → sync w !! key = None) →
  importStatusMessageElement pg = Some shown →
  snd (handleExportSettings P pg w) = w
  ∧ importStatusMessageElement (fst (handleExportSettings P pg w))
    = Some (getLocalizedText pg "exportNoSettingsMessage" "exportNoSettingsMessage",
            "status-message visible ").
Proof.
  intros Hget Hnone Hel. unfold handleExportSettings. rewrite Hget.
  assert (Hempty : exportData (sync w) = []).
  { destruct (exportData (sync w)) as [|[k v] l] eqn:Heq; [done|].
    assert (Hin : (k, v) ∈ exportData (sync w)) by (rewrite Heq; left).
    apply exportData_elem in Hin as [Hk Hv].
    apply exported_key_backed_up in Hk. rewrite (Hnone k Hk) in Hv. done. }
  rewrite Hempty. cbn [length Nat.eqb fst snd]. split; [done|].
  unfold displayStatusMessage. by rewrite Hel.
Qed.

(** X7.  An export that cannot read the store downloads nothing: the
    world is left as it is and the status line shows the text of
    [exportErrorMessage] as an error. *)
Theorem export_read_failure_downloads_nothing pg w shown error :
  sync_get_error P = Some error →
  importStatusMessageElement pg = Some shown →
  snd (handleExportSettings P pg w) = w
  ∧ importStatusMessageElement (fst (handleExportSettings P pg w))
    = Some (getLocalizedText pg "exportErrorMessage" "exportErrorMessage",
            "status-message visible error").
Proof.
  intros Hget Hel. unfold handleExportSettings. rewrite Hget.
  cbn [fst snd]. split; [done|].
  unfold displayStatusMessage. by rewrite Hel.
Qed.

(** X8.  An import of a document that parses to an object, into a
    store that accepts the write, makes one [set] call with the entries
    of the document and then reloads the page.  The import merges: an
    entry of the document is in the store afterwards (the last one, if
    a key came twice, which no parsed object has), and the keys the
    document does not name keep the values they had.  The file input is
    cleared and the status line is not touched. *)
Theorem import_merges_and_reloads text items pg w :
  JSON_parse P text = Normal (VObj items) →
  sync_set_error P (sync w) items = None →
  NoDup items.*1 →
  let pg' := fst (handleImportSettings P (Some text) pg w) in
  let w' := snd (handleImportSettings P (Some text) pg w) in
  trace w' = trace w ++ [StorageSyncSet items; LocationReload]
  ∧ (∀ key value, (key, value) ∈ items → sync w' !! key = Some value)
  ∧ (∀ key, key ∉ items.*1 → sync w' !! key = sync w !! key)
  ∧ importFile_value pg' = None
  ∧ importStatusMessageElement pg' = importStatusMessageElement pg.
Proof.
  intros Hparse Hset Hnd. cbn zeta.
  unfold handleImportSettings. rewrite Hparse.
  unfold storageArea_set, storage_sync_set. rewrite Hset.
  cbn [fst snd emit trace sync importFile_value importStatusMessageElement].
  split; [by rewrite <- app_assoc|].
  split; [|split; [|done]].
  - intros key value Hin. by apply store_merge_lookup_item.
  - intros key Hkey. by apply store_merge_lookup_other.
Qed.

(** X9.  An import whose [set] call the store rejects changes nothing
    in the store and does not reload the page: the call is the only
    thing the trace gains, the status line shows the import error with
    the message of the rejection (a message without dollar is shown as
    it is) and the file input is cleared. *)
Theorem import_rejected_write_keeps_store
    text items error pg w shown before after :
  JSON_parse P text = Normal (VObj items) →
  sync_set_error P (sync w) items = Some error →
  JsString.includes error "$" = false →
  importStatusMessageElement pg = Some shown →
  JsString.split_at_first "$ERROR$"
    (getLocalizedText pg "importErrorMessage" "importErrorMessage")
  = Some (before, after) →
  let pg' := fst (handleImportSettings P (Some text) pg w) in
  let w' := snd (handleImportSettings P (Some text) pg w) in
  sync w' = sync w
  ∧ trace w' = trace w ++ [StorageSyncSet items]
  ∧ importStatusMessageElement pg'
    = Some (before +:+ error +:+ after, "status-message visible error")
  ∧ importFile_value pg' = None.
Proof.
  intros Hparse Hset Hplain Hel Hsplit. cbn zeta.
  unfold handleImportSettings. rewrite Hparse.
  unfold storageArea_set, storage_sync_set. rewrite Hset.
  cbn [fst snd emit trace sync importFile_value importStatusMessageElement].
  split; [done|]. split; [done|]. split; [|done].
  unfold displayStatusMessage. rewrite Hel.
  cbn [importStatusMessageElement foldl fst snd].
  change ("$" +:+ JsString.toUpperCase "ERROR" +:+ "$") with "$ERROR$".
  unfold JsString.replace. rewrite Hsplit.
  by rewrite getSubstitution_plain.
Qed.

End ExportImportMore.

(** ** The Dispatcher: the events it does not serve *)

Section DispatcherMore.
Import Browser Background Props.

Variable P : platform.

(** X11.  The Dispatcher does nothing for an update that is not a
    completed load, for a tab without URL and for a URL that starts
    with neither [http] nor [file]: the store is not read, nothing is
    sent and nothing is logged. *)
Theorem onUpdated_ignores_other_updates tabId status t w :
  status ≠ Some "complete"
  ∨ tab_url t = None
  ∨ (∃ url, tab_url t = Some url
            ∧ JsString.startsWith url "http" = false
            ∧ JsString.startsWith url "file" = false) →
  onUpdated P tabId status t w = w.
Proof.
  unfold onUpdated. intros [Hs|[Hu|(url & Hu & Hh & Hf)]].
  - destruct (tab_url t); [|done]. by rewrite bool_decide_eq_false_2.
  - by rewrite Hu.
  - rewrite Hu, Hh, Hf. by rewrite andb_false_r.
Qed.


End DispatcherMore.

(** ** The steppers of the popup *)

Section Steppers.
Import Browser Popup Props.

Variable P : platform.

(** X13.  A click on a stepper of an enabled number control, the button
    carrying no step of its own, stores for that control a number within
    the bounds of the control, rounded as the control requires: stepping
    past a bound stops at the bound, and stepping from an empty or
    unreadable text starts from the base value of the control. *)
Theorem stepper_stores_within_bounds target up u w hostname id :
  usable_tab P w hostname id →
  disabled u = false →
  let w' := snd (handle P (StepperClick target up None) u w) in
  ∃ stored q,
    stored_field w' hostname target = VStr stored
    ∧ parseFloat stored = Fin q
    ∧ within_bounds target q ∧ rounded target q.
Proof.
  intros Hus Hdis. cbn zeta. cbn [handle]. unfold stepper_click.
  rewrite Hdis. cbn [snd].
  rewrite (stored_field_after_save P w hostname id _ target Hus).
  rewrite input_value_set.
  match goal with
  | |- context [clamp_round target ?x] =>
      assert (Hx : isNaN x = false); [|set (value := x) in *]
  end.
  { cbn [num_truthy].
    destruct (isNaN (parseFloat (JsString.trim (input_value target u)))
              || String.eqb (JsString.trim (input_value target u)) "") eqn:He.
    - by destruct target, up.
    - apply orb_false_iff in He as [He _].
      destruct (parseFloat (JsString.trim (input_value target u))) as [|[]|q];
        [done|by destruct up..]. }
  destruct (clamp_round_number target value Hx) as (q & Hp & Hb & Hr).
  eauto 6.
Qed.

End Steppers.
(** ** The popup: a rejected write, a tab without id *)

Section PopupSaveMore.
Import Browser Popup Props.

Variable P : platform.

(** X17.  When the store rejects the write of [saveAndApplySettings],
    nothing is sent to the tab: the store is left as it was, and the
    trace gains the rejected [set] call and the error on the console. *)
Theorem save_rejected_write_sends_nothing
    t rest url hostname error f d fs lh fw ls ws w :
  tabs_query P = Normal (t :: rest) →
  tab_url t = Some url →
  String.eqb url "" = false →
  JsString.startsWith url "chrome://" = false →
  JsString.startsWith url "about:" = false →
  JsString.startsWith url "edge://" = false →
  URL_hostname P url = Some hostname →
  (∀ items, sync_set_error P (sync w) items = Some error) →
  let w' := saveAndApplySettings P f d fs lh fw ls ws w in
  sync w' = sync w
  ∧ trace w' =
      trace w ++ [StorageSyncSet
                    [(hostname, VObj (settings_fields f d fs lh fw ls ws hostname))];
                  ConsoleError ("Error saving settings: " +:+ error)].
Proof.
  intros Hq Hurl Hne Hc Ha He Hhost Hset. cbn zeta.
  unfold saveAndApplySettings, getCurrentTab.
  rewrite Hq. cbn [head]. rewrite Hurl, Hne, Hc, Ha, He. cbn [orb].
  rewrite Hhost. unfold storage_sync_set. rewrite Hset.
  cbn [emit sync trace]. split; [done|]. by rewrite <- app_assoc.
Qed.

(** X18.  When the active tab has no id (or the id 0), the record is
    written to the store and nothing is sent. *)
Theorem save_without_tab_id_only_writes
    t rest url hostname f d fs lh fw ls ws w :
  tabs_query P = Normal (t :: rest) →
  tab_url t = Some url →
  tab_id t = None ∨ tab_id t = Some 0 →
  String.eqb url "" = false →
  JsString.startsWith url "chrome://" = false →
  JsString.startsWith url "about:" = false →
  JsString.startsWith url "edge://" = false →
  URL_hostname P url = Some hostname →
  (∀ items, sync_set_error P (sync w) items = None) →
  let w' := saveAndApplySettings P f d fs lh fw ls ws w in
  let record := VObj (settings_fields f d fs lh fw ls ws hostname) in
  sync w' = <[hostname := record]> (sync w)
  ∧ trace w' = trace w ++ [StorageSyncSet [(hostname, record)]].
Proof.
  intros Hq Hurl Hid Hne Hc Ha He Hhost Hset. cbn zeta.
  unfold saveAndApplySettings, getCurrentTab.
  rewrite Hq. cbn [head]. rewrite Hurl, Hne, Hc, Ha, He. cbn [orb].
  rewrite Hhost. unfold storage_sync_set. rewrite Hset.
  by destruct Hid as [-> | ->].
Qed.

End PopupSaveMore.

(** ** The traversal finds the shadow hosts, each once *)

Section TraversalMore.
Import Dom Content Props.

Lemma getAllShadowRoots_loop_NoDup fuel :
  ∀ queue roots res,
    NoDup roots → getAllShadowRoots_loop fuel queue roots = Some res → NoDup res.
Proof.
  induction fuel as [|fuel IH]; intros queue roots res Hnd.
  - destruct queue; [by intros [= <-]|done].
  - destruct queue as [|e rest]; [by intros [= <-]|].
    cbn [getAllShadowRoots_loop].
    destruct e as [d|k t i a cs [ss|]]; try by apply IH.
    destruct (bool_decide (k ∈ roots)) eqn:Hk; [by apply IH|].
    apply IH. apply NoDup_app. split; [done|]. split; [|apply NoDup_singleton].
    intros x Hx ->%list_elem_of_singleton.
    by apply bool_decide_eq_false in Hk.
Qed.

(** X14.  On a page whose elements are distinct objects,
    [getAllShadowRoots] returns the shadow roots of the page and nothing
    else, each of them once: a key is in the result exactly when it is
    the key of a shadow host of the page, in the light tree or inside
    any shadow tree. *)
Theorem getAllShadowRoots_exactly_the_hosts T :
  NoDup (keys T) → is_element T = true →
  NoDup (getAllShadowRoots T)
  ∧ ∀ k, k ∈ getAllShadowRoots T ↔ host_key T k.
Proof.
  intros Hnd HT.
  destruct (getAllShadowRoots_returns T) as (res & Hloop & Hres).
  split.
  { rewrite Hres.
    eapply getAllShadowRoots_loop_NoDup; [apply NoDup_nil_2|exact Hloop]. }
  intros k. split.
  - rewrite Hres. intros Hk.
    destruct (getAllShadowRoots_loop_traversed T (S (fst (traversal_weight T)))
                Hnd [T] [] [] res) as (D & Htr & Hin); [|exact Hloop|].
    { split.
      - intros e ->%list_elem_of_singleton. by apply all_elements_self.
      - by intros e c ?%elem_of_nil.
      - by intros e k0 ss ?%elem_of_nil.
      - by intros k0 ?%elem_of_nil. }
    destruct (tr_roots _ _ _ _ Htr k Hk) as (e & He & Hkey & Hhost).
    exists e. split; [|done].
    apply (tr_inside _ _ _ _ Htr). rewrite app_nil_r. exact He.
  - intros (h & Hh & Hkey & Hhost).
    by apply (getAllShadowRoots_complete T h k).
Qed.

End TraversalMore.

(** ** The theorems at concrete inputs *)

Section Examples.
Import Browser Props Sample.

Lemma sample_usable_tab w :
  usable_tab (browser (Some page_url) None) w "example.com" 7.
Proof.
  split.
  - exists (Tab (Some 7) (Some page_url)), [], page_url.
    repeat split; reflexivity.
  - discriminate.
  - reflexivity.
Defined.

Lemma C4_witness :
  let P := browser (Some page_url) None in
  let e := Popup.InputEvent Popup.fontSizeInput " 18 " in
  let u := Popup.set_fontSelect "Vazirmatn" fresh_ui in
  let record :=
    VObj [("font", VStr "Vazirmatn"); ("direction", VStr "");
          ("fontSize", VStr "18"); ("lineHeight", VStr "");
          ("fontWeight", VStr ""); ("letterSpacing", VStr "");
          ("wordSpacing", VStr ""); ("host", VStr "example.com")] in
  edited e u (fst (Popup.handle P e u empty_world))
  ∧ sync (snd (Popup.handle P e u empty_world))
    = <["example.com" := record]> (sync empty_world)
  ∧ ∃ command,
      trace (snd (Popup.handle P e u empty_world))
      = trace empty_world
        ++ [StorageSyncSet [("example.com", record)]; TabsSendMessage 7 command]
        ++ delivery_log P 7 command.
Proof.
  pose proof (C4_edit_writes_and_pushes_full_tuple
                (browser (Some page_url) None)
                (Popup.InputEvent Popup.fontSizeInput " 18 ")
                (Popup.set_fontSelect "Vazirmatn" fresh_ui) empty_world
                "example.com" 7 (sample_usable_tab empty_world) eq_refl eq_refl)
    as (Hedit & Hsync & Htrace).
  split; [exact Hedit|]. split; [exact Hsync|].
  eexists. exact Htrace.
Defined.

Lemma C10_witness :
  let P := browser (Some "chrome://extensions") None in
  refused_tab P (snd (Popup.getCurrentTab P empty_world))
  ∧ (sync (Popup.saveAndApplySettings P "Vazirmatn" "rtl" "18" "" "" "" "" empty_world)
     = sync empty_world
     ∧ ∃ log,
         trace (Popup.saveAndApplySettings P "Vazirmatn" "rtl" "18" "" "" "" "" empty_world)
         = trace empty_world ++ log
         ∧ ∀ e, e ∈ log → is_console e = true).
Proof.
  assert (H : refused_tab (browser (Some "chrome://extensions") None)
                (snd (Popup.getCurrentTab (browser (Some "chrome://extensions") None)
                        empty_world))).
  { apply (refused_internal _ _ "chrome://extensions"); [reflexivity|].
    left. reflexivity. }
  exact (conj H (C10_refused_tab_changes_nothing
                   (browser (Some "chrome://extensions") None)
                   empty_world "Vazirmatn" "rtl" "18" "" "" "" "" H)).
Defined.

Lemma C5_witness :
  let P := browser (Some page_url) (Some "Could not establish connection. Receiving end does not exist.") in
  let t := Tab (Some 7) (Some page_url) in
  let w := World small_store [] in
  let w' := Background.onUpdated P 7 (Some "complete") t w in
  let command :=
    dispatched_command
      (VObj (Popup.settings_fields "Vazirmatn" "rtl" "18" "" "" "" "" "example.com")) in
  sync w' = sync w
  ∧ (∃ log, trace w' = trace w ++ [TabsSendMessage 7 command] ++ log
            ∧ (∀ e, e ∈ log → ∃ text, e = ConsoleWarn text)
            ∧ (sendMessage_error P 7 command = None → log = [])
            ∧ (∀ error, sendMessage_error P 7 command = Some error →
                        no_receiver error → log = [])).
Proof.
  refine (C5_navigation_complete_pushes_record
            (browser (Some page_url)
               (Some "Could not establish connection. Receiving end does not exist."))
            7 (Tab (Some 7) (Some page_url)) page_url "example.com"
            (Popup.settings_fields "Vazirmatn" "rtl" "18" "" "" "" "" "example.com")
            (World small_store []) eq_refl _ eq_refl eq_refl _).
  - right. left. reflexivity.
  - vm_compute. reflexivity.
Defined.

Lemma small_store_entries items :
  entries_of small_store items →
  items = [] ∨ items = [("example.com", vazir_record)]
  ∨ items = [("theme", VStr "dark")]
  ∨ items = [("example.com", vazir_record); ("theme", VStr "dark")]
  ∨ items = [("theme", VStr "dark"); ("example.com", vazir_record)].
Proof.
  intros [Hnd Hent].
  assert (Hel : ∀ x, x ∈ items →
            x = ("example.com", vazir_record) ∨ x = ("theme", VStr "dark")).
  { intros [k v] Hx. apply Hent in Hx. unfold small_store in Hx.
    apply lookup_insert_Some in Hx as [[<- <-]|[_ Hx]]; [by left|].
    apply lookup_insert_Some in Hx as [[<- <-]|[_ Hx]]; [by right|].
    by rewrite lookup_empty in Hx. }
  destruct items as [|x [|y [|z rest]]].
  - by left.
  - destruct (Hel x) as [-> | ->]; [by left|auto..].
  - destruct (Hel x) as [-> | ->]; [by left| |];
      (destruct (Hel y) as [-> | ->]; [by right; left|..]); auto 6;
      exfalso; apply NoDup_cons in Hnd as [Hx _]; apply Hx; by left.
  - exfalso.
    destruct (Hel x) as [-> | ->]; [by left| |];
      (destruct (Hel y) as [-> | ->]; [by right; left|..]);
      (destruct (Hel z) as [-> | ->]; [by right; right; left|..]);
      apply NoDup_cons in Hnd as [H1 Hnd]; apply NoDup_cons in Hnd as [H2 _];
      first [by apply H1; left | by apply H1; right; left | by apply H2; left].
Qed.

Lemma C6_witness :
  let P := browser (Some page_url) None in
  let w := World small_store [] in
  ∃ document,
    Settings.last_download
      (trace (snd (Settings.handleExportSettings P settings_page w))) = Some document
    ∧ let imported :=
        snd (Settings.handleImportSettings P (Some document) settings_page empty_world) in
      sync imported !! "example.com" = Some vazir_record
      ∧ sync imported !! "theme" = Some (VStr "dark")
      ∧ sync imported !! "notes" = None.
Proof.
  assert (Hsome : ∃ key, backed_up key ∧ is_Some (small_store !! key)).
  { exists "theme". split; [right; right; left; reflexivity|].
    exists (VStr "dark"). vm_compute. reflexivity. }
  assert (Hcodec : codec_reads_back (browser (Some page_url) None) small_store).
  { intros items Hitems.
    destruct (small_store_entries items Hitems) as [->|[->|[->|[->| ->]]]];
      vm_compute; reflexivity. }
  destruct (C6_export_import_round_trip (browser (Some page_url) None)
              settings_page (World small_store []) settings_page empty_world
              eq_refl Hsome Hcodec (λ _, eq_refl))
    as (document & Hd & _ & Hsite & Hglobal & Hother & _).
  exists document. split; [exact Hd|]. split; [|split].
  - refine (Hsite "example" "com" vazir_record _). vm_compute. reflexivity.
  - refine (Hglobal "theme" (VStr "dark") _ _); [by right; left|].
    vm_compute. reflexivity.
  - refine (Hother "notes" _). right. vm_compute. reflexivity.
Defined.

Lemma C7_witness :
  let P := browser (Some page_url) None in
  let w := World small_store [] in
  JSON_parse P "{$&}" = Throw "Unexpected token in JSON: $&}"
  ∧ snd (Settings.handleImportSettings P (Some "{$&}") settings_page w) = w
  ∧ Settings.importStatusMessageElement
      (fst (Settings.handleImportSettings P (Some "{$&}") settings_page w))
    = Some ("Import failed: Unexpected token in JSON: $ERROR$}",
            "status-message visible error").
Proof.
  split; [reflexivity|].
  exact (C7_dollar_pattern_in_message_is_expanded
           (browser (Some page_url) None) "{$&}"
           "Unexpected token in JSON: " "}" settings_page
           (World small_store []) ("", "status-message") "Import failed: " ""
           eq_refl eq_refl eq_refl eq_refl eq_refl).
Defined.

Lemma C9_witness :
  let st := started nested_page 6 in
  let stored : gmap string jsval := {["example.com" := empty_record]} in
  let loaded :=
    fst (Content.loadAndApplyInitialStyles suffixes (Normal stored) st) in
  loaded = fst (Content.loadAndApplyInitialStyles suffixes (Normal ∅) st)
  ∧ Content.doc loaded = Content.doc st
  ∧ Content.applyCalls loaded = Content.applyCalls st
  ∧ Content.currentApplied loaded = Content.null_tuple
  ∧ ∀ times T,
      let later := Content.advance suffixes T
                     (Content.deliver_burst suffixes times loaded) in
      Content.applyCalls later = Content.applyCalls st
      ∧ Content.doc later = Content.doc st.
Proof.
  refine (C9_empty_record_is_no_record suffixes (started nested_page 6)
            {["example.com" := empty_record]} ∅ empty_record _ eq_refl _).
  - vm_compute. reflexivity.
  - vm_compute. reflexivity.
Defined.

Lemma C3_witness :
  ∃ st', Content.applyPageStyles suffixes vazir_tuple (started nested_page 6)
         = (st', Normal tt)
    ∧ JsString.includes (Content.cssRules false vazir_tuple)
                        "direction: rtl !important;" = true
    ∧ ∀ h k, h ∈ Dom.all_elements nested_page → Dom.key_of h = Some k →
             is_host h = true →
        k ∈ Content.getAllShadowRoots nested_page
        ∧ ∃ h', h' ∈ Dom.all_elements (Content.html_of st')
                ∧ Dom.key_of h' = Some k
                ∧ Dom.getAttribute "dir" h' = Some "rtl"
                ∧ styled (Content.cssRules false vazir_tuple) h'.
Proof.
  apply (C3_every_shadow_root_styled_and_rtl suffixes vazir_tuple
           (started nested_page 6)).
  - split.
    + refine (bool_decide_unpack _ _). vm_compute. exact I.
    + refine (bool_decide_unpack _ _). vm_compute. exact I.
    + refine (bool_decide_unpack _ _). vm_compute. exact I.
  - vm_compute. eauto.
  - reflexivity.
  - intros _. by eexists.
  - intros _. by eexists.
Defined.

Lemma C2_witness :
  let P := browser (Some page_url) None in
  let u := Popup.set_input_value Popup.lineHeightInput " 7.456 " fresh_ui in
  let w' := snd (Popup.handle P (Popup.ChangeEvent Popup.lineHeightInput) u empty_world) in
  stored_field w' "example.com" Popup.lineHeightInput = VStr "3"
  ∧ acceptable Popup.lineHeightInput "3".
Proof.
  destruct (C2_commit_stores_clamped (browser (Some page_url) None)
              Popup.lineHeightInput
              (Popup.set_input_value Popup.lineHeightInput " 7.456 " fresh_ui)
              empty_world "example.com" 7 (sample_usable_tab empty_world))
    as (stored & Hs & Hacc & _ & _ & Habove).
  assert (Hst : stored = "3").
  { apply Habove; [discriminate|vm_compute; reflexivity]. }
  subst stored. exact (conj Hs Hacc).
Defined.

(** The [input] listener stores what the user typed as it is: 999 for
    a font size whose bounds are 8 and 72. *)
Lemma C2_input_event_stores_out_of_range :
  let P := browser (Some page_url) None in
  let w' := snd (Popup.handle P (Popup.InputEvent Popup.fontSizeInput "999")
                   fresh_ui empty_world) in
  stored_field w' "example.com" Popup.fontSizeInput = VStr "999"
  ∧ ¬ acceptable Popup.fontSizeInput "999".
Proof.
  split; [vm_compute; reflexivity|].
  intros [H|(q & Hp & [_ Hhi] & _)]; [discriminate|].
  vm_compute in Hp. injection Hp as <-.
  vm_compute in Hhi. by apply Hhi.
Qed.

(** C1, at a page with shadow roots.  Applying the same tuple a second
    time leaves one style element and one font link in the head, as
    after the first time, but adds a second style element to every
    shadow root: the id under which [applyStylesToRoot] looks for the
    style element of a shadow root ends in a fresh random suffix, so
    the element injected before is not found again. *)
Theorem C1_second_apply_duplicates_shadow_styles :
  length (injected "STYLE" None applied_once) = 1
  ∧ length (injected "LINK" None applied_once) = 1
  ∧ length (injected "STYLE" None applied_twice) = 1
  ∧ length (injected "LINK" None applied_twice) = 1
  ∧ length (injected "STYLE" (Some 3) applied_once) = 1
  ∧ length (injected "STYLE" (Some 3) applied_twice) = 2
  ∧ length (injected "STYLE" (Some 4) applied_once) = 1
  ∧ length (injected "STYLE" (Some 4) applied_twice) = 2
  ∧ map Dom.id_of (injected "STYLE" (Some 3) applied_twice)
    = ["font-direction-changer-style-override-widget-d1f3g5h";
       "font-direction-changer-style-override-widget-p0q8w1z"].
Proof. vm_compute. repeat split. Qed.


Lemma onMessage_ignores_other_actions_witness :
  Content.onMessage suffixes (VObj [("action", VStr "ping")]) (started nested_page 6)
  = (started nested_page 6, Normal (None, false)).
Proof.
  exact (onMessage_ignores_other_actions suffixes
           (VObj [("action", VStr "ping")]) (started nested_page 6)
           eq_refl eq_refl).
Defined.


Lemma export_without_settings_downloads_nothing_witness :
  let P := browser (Some page_url) None in
  snd (Settings.handleExportSettings P settings_page empty_world) = empty_world
  ∧ Settings.importStatusMessageElement
      (fst (Settings.handleExportSettings P settings_page empty_world))
    = Some ("exportNoSettingsMessage", "status-message visible ").
Proof.
  refine (export_without_settings_downloads_nothing (browser (Some page_url) None)
            settings_page empty_world ("", "status-message") eq_refl _ eq_refl).
  intros key _. apply lookup_empty.
Defined.

Lemma export_read_failure_downloads_nothing_witness :
  let P := Platform hostname_of (Normal []) (Some "storage unavailable")
             (λ _ _, None) (λ _ _, None) json_stringify json_parse in
  let w := World small_store [] in
  snd (Settings.handleExportSettings P settings_page w) = w
  ∧ Settings.importStatusMessageElement
      (fst (Settings.handleExportSettings P settings_page w))
    = Some ("exportErrorMessage", "status-message visible error").
Proof.
  exact (export_read_failure_downloads_nothing
           (Platform hostname_of (Normal []) (Some "storage unavailable")
              (λ _ _, None) (λ _ _, None) json_stringify json_parse)
           settings_page (World small_store []) ("", "status-message")
           "storage unavailable" eq_refl eq_refl).
Defined.

(** A backup with one global key. *)
Lemma import_merges_and_reloads_witness :
  let P := browser (Some page_url) None in
  let text := "{" +:+ JsString.dq +:+ "theme" +:+ JsString.dq +:+ ":"
              +:+ JsString.dq +:+ "light" +:+ JsString.dq +:+ "}" in
  let w := World small_store [] in
  let w' := snd (Settings.handleImportSettings P (Some text) settings_page w) in
  trace w' = [StorageSyncSet [("theme", VStr "light")]; LocationReload]
  ∧ sync w' !! "theme" = Some (VStr "light")
  ∧ sync w' !! "example.com" = Some vazir_record.
Proof.
  pose proof (import_merges_and_reloads (browser (Some page_url) None)
                ("{" +:+ JsString.dq +:+ "theme" +:+ JsString.dq +:+ ":"
                 +:+ JsString.dq +:+ "light" +:+ JsString.dq +:+ "}")
                [("theme", VStr "light")] settings_page (World small_store [])
                eq_refl eq_refl (NoDup_singleton "theme"))
    as (Htrace & Hitems & Hother & _).
  split; [exact Htrace|]. split.
  - apply Hitems. left.
  - rewrite Hother; [vm_compute; reflexivity|].
    intros [= ]%list_elem_of_singleton.
Defined.

Lemma import_rejected_write_keeps_store_witness :
  let P := Platform hostname_of (Normal []) None
             (λ _ _, Some "QUOTA_BYTES quota exceeded") (λ _ _, None)
             json_stringify json_parse in
  let text := "{" +:+ JsString.dq +:+ "theme" +:+ JsString.dq +:+ ":"
              +:+ JsString.dq +:+ "light" +:+ JsString.dq +:+ "}" in
  let w := World small_store [] in
  let pg' := fst (Settings.handleImportSettings P (Some text) settings_page w) in
  let w' := snd (Settings.handleImportSettings P (Some text) settings_page w) in
  sync w' = sync w
  ∧ trace w' = [StorageSyncSet [("theme", VStr "light")]]
  ∧ Settings.importStatusMessageElement pg'
    = Some ("Import failed: QUOTA_BYTES quota exceeded",
            "status-message visible error")
  ∧ Settings.importFile_value pg' = None.
Proof.
  exact (import_rejected_write_keeps_store
           (Platform hostname_of (Normal []) None
              (λ _ _, Some "QUOTA_BYTES quota exceeded") (λ _ _, None)
              json_stringify json_parse)
           ("{" +:+ JsString.dq +:+ "theme" +:+ JsString.dq +:+ ":"
            +:+ JsString.dq +:+ "light" +:+ JsString.dq +:+ "}")
           [("theme", VStr "light")] "QUOTA_BYTES quota exceeded"
           settings_page (World small_store []) ("", "status-message")
           "Import failed: " "" eq_refl eq_refl eq_refl eq_refl eq_refl).
Defined.

Lemma onUpdated_ignores_other_updates_witness :
  Background.onUpdated (browser (Some page_url) None) 7 (Some "loading")
    (Tab (Some 7) (Some page_url)) (World small_store [])
  = World small_store [].
Proof.
  refine (onUpdated_ignores_other_updates (browser (Some page_url) None) 7
            (Some "loading") (Tab (Some 7) (Some page_url))
            (World small_store []) _).
  left. discriminate.
Defined.


Lemma stepper_stores_within_bounds_witness :
  let P := browser (Some page_url) None in
  let u := Popup.set_input_value Popup.fontSizeInput "72" fresh_ui in
  let w' := snd (Popup.handle P (Popup.StepperClick Popup.fontSizeInput true None)
                   u empty_world) in
  ∃ stored q,
    stored_field w' "example.com" Popup.fontSizeInput = VStr stored
    ∧ Popup.parseFloat stored = Popup.Fin q
    ∧ within_bounds Popup.fontSizeInput q ∧ rounded Popup.fontSizeInput q.
Proof.
  exact (stepper_stores_within_bounds (browser (Some page_url) None)
           Popup.fontSizeInput true
           (Popup.set_input_value Popup.fontSizeInput "72" fresh_ui)
           empty_world "example.com" 7 (sample_usable_tab empty_world) eq_refl).
Defined.

Lemma getAllShadowRoots_exactly_the_hosts_witness :
  NoDup (Content.getAllShadowRoots nested_page)
  ∧ ∀ k, k ∈ Content.getAllShadowRoots nested_page ↔ host_key nested_page k.
Proof.
  refine (getAllShadowRoots_exactly_the_hosts nested_page _ eq_refl).
  refine (bool_decide_unpack _ _). vm_compute. exact I.
Defined.

Lemma burst_reapplies_once_after_quiet_witness :
  let burst := Content.deliver_burst suffixes [1000; 1100; 1250] styled_state in
  (∀ T, T < 1550 →
     Content.applyCalls (Content.advance suffixes T burst)
     = Content.applyCalls styled_state)
  ∧ (∀ T, 1550 ≤ T → T < 1850 →
       Content.applyCalls (Content.advance suffixes T burst)
       = Content.applyCalls styled_state ++ [Content.currentApplied styled_state]
       ∧ (Content.timers (Content.advance suffixes T burst) = []
          ∨ ∃ id, Content.timers (Content.advance suffixes T burst) = [(id, 1850)])).
Proof.
  refine (burst_reapplies_once_after_quiet suffixes styled_state 1000 [1100; 1250]
            eq_refl eq_refl _ eq_refl _).
  - vm_compute. lia.
  - cbn. lia.
Defined.

Lemma import_parse_error_keeps_store_witness :
  let P := browser (Some page_url) None in
  let w := World small_store [] in
  snd (Settings.handleImportSettings P (Some "{oops") settings_page w) = w
  ∧ Settings.importStatusMessageElement
      (fst (Settings.handleImportSettings P (Some "{oops") settings_page w))
    = Some ("Import failed: Unexpected token in JSON: oops",
            "status-message visible error").
Proof.
  pose proof (import_parse_error_keeps_store (browser (Some page_url) None)
                "{oops" "Unexpected token in JSON: oops" settings_page
                (World small_store []) eq_refl) as (Hw & Hshown).
  split; [exact Hw|].
  exact (Hshown ("", "status-message") "Import failed: " ""
           eq_refl eq_refl eq_refl).
Defined.

Lemma save_rejected_write_sends_nothing_witness :
  let P := Platform hostname_of (Normal [Tab (Some 7) (Some page_url)]) None
             (λ _ _, Some "QUOTA_BYTES quota exceeded") (λ _ _, None)
             json_stringify json_parse in
  let w' := Popup.saveAndApplySettings P "Vazirmatn" "rtl" "18" "" "" "" ""
              empty_world in
  sync w' = sync empty_world
  ∧ trace w' = [StorageSyncSet [("example.com", vazir_record)];
                ConsoleError "Error saving settings: QUOTA_BYTES quota exceeded"].
Proof.
  exact (save_rejected_write_sends_nothing
           (Platform hostname_of (Normal [Tab (Some 7) (Some page_url)]) None
              (λ _ _, Some "QUOTA_BYTES quota exceeded") (λ _ _, None)
              json_stringify json_parse)
           (Tab (Some 7) (Some page_url)) [] page_url "example.com"
           "QUOTA_BYTES quota exceeded" "Vazirmatn" "rtl" "18" "" "" "" ""
           empty_world eq_refl eq_refl eq_refl eq_refl eq_refl eq_refl eq_refl
           (λ _, eq_refl)).
Defined.

Lemma save_without_tab_id_only_writes_witness :
  let P := Platform hostname_of (Normal [Tab None (Some page_url)]) None
             (λ _ _, None) (λ _ _, None) json_stringify json_parse in
  let w' := Popup.saveAndApplySettings P "Vazirmatn" "rtl" "18" "" "" "" ""
              empty_world in
  sync w' = <["example.com" := vazir_record]> (sync empty_world)
  ∧ trace w' = [StorageSyncSet [("example.com", vazir_record)]].
Proof.
  exact (save_without_tab_id_only_writes
           (Platform hostname_of (Normal [Tab None (Some page_url)]) None
              (λ _ _, None) (λ _ _, None) json_stringify json_parse)
           (Tab None (Some page_url)) [] page_url "example.com"
           "Vazirmatn" "rtl" "18" "" "" "" "" empty_world
           eq_refl eq_refl (or_introl eq_refl) eq_refl eq_refl eq_refl eq_refl
           eq_refl (λ _, eq_refl)).
Defined.


End Examples.
